(** * TushareMCP: the rate-limit resolver, the specification store, the
      scraper's text heuristics, tables and crawl, the provider client and
      the login heuristic, embedded in Rocq.

    Conventions of the embedding.
    - A Python [str] is modelled by its UTF-8 encoding, a [string] of bytes.
      Equality, the substring test [in] and the ordering used by [sorted]
      agree with Python's, which work on code points.  White space and letter
      case are handled for the ASCII range: [str.strip], [str.lower] and the
      regular-expression classes [\s] and [\d] leave non-ASCII code points
      alone.
    - A call that can raise returns a [result]: [Ok v] or [Raise e].
    - A value that [json.loads] can produce is a [value]; a Python [float] is
      modelled by the rational it denotes (binary rounding is not modelled),
      with the two infinities and NaN added.
    - What lies outside the program is an input of the function that uses
      it: the files, the clock, the cell texts of an HTML table, what
      fetching and parsing a page comes to, and the vendor's library behind
      the client.  An object that a method updates is passed in and returned
      with the result.
    - Paths are those of a POSIX system: [str(Path(p))] is the text [pathlib]
      gives there. *)

From Stdlib Require Import String Ascii ZArith QArith List Bool Lia.
From Stdlib Require Import Sorting.Sorted Sorting.Permutation.
From stdpp Require Import gmap strings list.

Local Open Scope string_scope.
Local Open Scope Z_scope.

(** ** Python values, exceptions and the builtins the sources use *)

Module Py.

Inductive exn : Type :=
| ValueError
| TypeError
| AttributeError
| OverflowError
| JSONDecodeError
| OSError
| Error.

Inductive result (A : Type) : Type :=
| Ok (a : A)
| Raise (e : exn).

Arguments Ok {A} a.
Arguments Raise {A} e.

#[global] Instance result_ret : MRet result := fun A a => Ok a.
#[global] Instance result_bind : MBind result := fun A B f m =>
  match m with
  | Ok a => f a
  | Raise e => Raise e
  end.

(** [try: r  except Exception: h] *)
Definition try_except {A : Type} (r : result A) (h : A) : A :=
  match r with
  | Ok a => a
  | Raise _ => h
  end.

Inductive float : Type :=
| FFinite (q : Q)
| FInf (negative : bool)
| FNan.

Definition float_of_Z (z : Z) : float := FFinite (z # 1).

(** [f >= 0] on floats: false for NaN. *)
Definition float_ge0 (f : float) : bool :=
  match f with
  | FFinite q => Qle_bool 0 q
  | FInf negative => negb negative
  | FNan => false
  end.

Definition float_is_zero (f : float) : bool :=
  match f with
  | FFinite q => Qeq_bool q 0
  | _ => false
  end.

Inductive value : Type :=
| JNull
| JBool (b : bool)
| JInt (z : Z)
| JFloat (f : float)
| JStr (s : string)
| JArr (l : list value)
| JObj (items : list (string * value)).

(** Truth value of an object, as [if x], [x or y] and [not x] take it. *)
Definition truthy (v : value) : bool :=
  match v with
  | JNull => false
  | JBool b => b
  | JInt z => negb (z =? 0)
  | JFloat f => negb (float_is_zero f)
  | JStr s => negb (String.eqb s "")
  | JArr l => match l with [] => false | _ => true end
  | JObj items => match items with [] => false | _ => true end
  end.

(** [x or y] *)
Definition or_else (x y : value) : value := if truthy x then x else y.

(** A [dict] keeps its items in insertion order with distinct keys; lookup
    takes the first item of the key. *)
Fixpoint assoc {A : Type} (k : string) (items : list (string * A)) : option A :=
  match items with
  | [] => None
  | (k', v) :: rest => if String.eqb k k' then Some v else assoc k rest
  end.

(** [d.get(k)]: [None] for a missing key; only a dict has the method. *)
Definition get (d : value) (k : string) : result value :=
  match d with
  | JObj items => Ok (default JNull (assoc k items))
  | _ => Raise AttributeError
  end.

(** [d.get(k, dflt)] *)
Definition get_default (d : value) (k : string) (dflt : value) : result value :=
  match d with
  | JObj items => Ok (default dflt (assoc k items))
  | _ => Raise AttributeError
  end.

(** *** Characters and strings *)

Definition is_space (c : ascii) : bool :=
  let n := N_of_ascii c in
  ((9 <=? n) && (n <=? 13) || (28 <=? n) && (n <=? 32))%N.

Definition is_digit (c : ascii) : bool :=
  let n := N_of_ascii c in ((48 <=? n) && (n <=? 57))%N.

Definition digit_value (c : ascii) : Z := Z.of_N (N_of_ascii c) - 48.

Definition lower_char (c : ascii) : ascii :=
  let n := N_of_ascii c in
  if ((65 <=? n) && (n <=? 90))%N then ascii_of_N (n + 32) else c.

(** [s.lower()] *)
Fixpoint lower (s : string) : string :=
  match s with
  | EmptyString => EmptyString
  | String c s' => String (lower_char c) (lower s')
  end.

Fixpoint lstrip (s : string) : string :=
  match s with
  | EmptyString => EmptyString
  | String c s' => if is_space c then lstrip s' else s
  end.

(** Drops trailing white space: a character stays when it is not white space
    or when something that stays follows it. *)
Fixpoint rstrip (s : string) : string :=
  match s with
  | EmptyString => EmptyString
  | String c s' =>
      match rstrip s' with
      | EmptyString => if is_space c then EmptyString else String c EmptyString
      | r => String c r
      end
  end.

(** [s.strip()] *)
Definition strip (s : string) : string := rstrip (lstrip s).

(** [needle in hay] on strings *)
Fixpoint contains (needle hay : string) : bool :=
  String.prefix needle hay ||
  match hay with
  | EmptyString => false
  | String _ hay' => contains needle hay'
  end.

(** [s in {a, b, ...}] on a set of string literals *)
Definition mem_str (s : string) (l : list string) : bool :=
  existsb (String.eqb s) l.

(** *** [int(str)] and [float(str)] *)

(** digit ("_"? digit)*, read as far as it goes: the value, the number of
    digits and what is left. *)
Fixpoint digitpart (acc : Z) (n : nat) (s : string) : Z * nat * string :=
  match s with
  | String c s' =>
      if is_digit c then digitpart (10 * acc + digit_value c) (S n) s'
      else if Ascii.eqb c "_" then
        match n, s' with
        | S _, String d s'' =>
            if is_digit d
            then digitpart (10 * acc + digit_value d) (S n) s''
            else (acc, n, s)
        | _, _ => (acc, n, s)
        end
      else (acc, n, s)
  | EmptyString => (acc, n, s)
  end.

(** An optional sign: whether it is a minus, and the rest. *)
Definition sign (s : string) : bool * string :=
  match s with
  | String "-" s' => (true, s')
  | String "+" s' => (false, s')
  | _ => (false, s)
  end.

(** [int(s)] for a string in base 10: surrounding white space, a sign,
    digits with single underscores between them.  The interpreter's limit on
    the number of digits is not modelled. *)
Definition int_of_str (s : string) : result Z :=
  let '(neg, body) := sign (strip s) in
  match digitpart 0 0 body with
  | (z, S _, EmptyString) => Ok (if neg then - z else z)
  | _ => Raise ValueError
  end.

(** The decimal number after the sign: digits, a fraction, an exponent. *)
Definition decimal_of_str (body : string) : option Q :=
  let '(ip, ni, r1) := digitpart 0 0 body in
  let '(fp, nf, r2) :=
    match r1 with
    | String "." r => digitpart 0 0 r
    | _ => (0, 0%nat, r1)
    end in
  match ni, nf with
  | O, O => None
  | _, _ =>
      let mant := ip * 10 ^ Z.of_nat nf + fp in
      let scale (e : Z) := Qred ((mant # 1) * Qpower (10 # 1) (e - Z.of_nat nf)) in
      match r2 with
      | EmptyString => Some (scale 0)
      | String c r =>
          if Ascii.eqb (lower_char c) "e" then
            let '(eneg, r') := sign r in
            match digitpart 0 0 r' with
            | (e, S _, EmptyString) => Some (scale (if eneg then - e else e))
            | _ => None
            end
          else None
      end
  end.

(** [float(s)] for a string *)
Definition float_of_str (s : string) : result float :=
  let '(neg, body) := sign (strip s) in
  let name := lower body in
  if mem_str name ["inf"; "infinity"] then Ok (FInf neg)
  else if String.eqb name "nan" then Ok FNan
  else
    match decimal_of_str body with
    | Some q => Ok (FFinite (if neg then Qred (- q) else q))
    | None => Raise ValueError
    end.

(** Integer part of a rational, towards zero. *)
Definition trunc (q : Q) : Z := Z.quot (Qnum q) (Zpos (Qden q)).

(** [int(x)] *)
Definition int (x : value) : result Z :=
  match x with
  | JBool b => Ok (if b then 1 else 0)
  | JInt z => Ok z
  | JFloat (FFinite q) => Ok (trunc q)
  | JFloat (FInf _) => Raise OverflowError
  | JFloat FNan => Raise ValueError
  | JStr s => int_of_str s
  | JNull | JArr _ | JObj _ => Raise TypeError
  end.

(** [float(x)]; an integer too large for a float raises. *)
Definition float_of (x : value) : result float :=
  match x with
  | JBool b => Ok (float_of_Z (if b then 1 else 0))
  | JInt z =>
      if Z.abs z <? 2 ^ 1024 - 2 ^ 970 then Ok (float_of_Z z)
      else Raise OverflowError
  | JFloat f => Ok f
  | JStr s => float_of_str s
  | JNull | JArr _ | JObj _ => Raise TypeError
  end.

(** *** [sorted] and [list.sort]: a stable sort *)

Section Sort.
Context {A : Type} (leb : A -> A -> bool).

(** [x], which came before every element of [l], goes in front of the
    first element it does not exceed. *)
Fixpoint insert_sorted (x : A) (l : list A) : list A :=
  match l with
  | [] => [x]
  | y :: l' => if leb x y then x :: l else y :: insert_sorted x l'
  end.

Fixpoint sort_by (l : list A) : list A :=
  match l with
  | [] => []
  | x :: l' => insert_sorted x (sort_by l')
  end.
End Sort.

End Py.


(** ** config.py: the rate-limit resolver *)

Module Config.
Import Py.

Record RateLimitConfig : Type := {
  max_rows : option Z;
  min_interval_seconds : float;
  source : string
}.

(** The files the resolver can see are a [gmap string (result value)]:
    [fs !! p = None] when there is no file at [p]; [Some r] when a file
    exists there and [json.loads(p.read_text())] gives [r], a value or the
    error of a text that cannot be read or is not JSON. *)

Definition _parse_int (v : option string) : option Z :=
  match v with
  | None => None
  | Some s =>
      if String.eqb s "" then None
      else try_except (z ← int_of_str s; Ok (Some z)) None
  end.

Definition _parse_float (v : option string) : option float :=
  match v with
  | None => None
  | Some s =>
      if String.eqb s "" then None
      else try_except (f ← float_of_str s; Ok (Some f)) None
  end.

Definition _load_limits (fs : gmap string (result value)) (path : option string)
  : result (option value) :=
  match path with
  | None => Ok None
  | Some p =>
      if String.eqb p "" then Ok None
      else
        match fs !! p with
        | None => Ok None
        | Some contents => v ← contents; Ok (Some v)
        end
  end.

(** What a [for] loop or [sorted] iterates over. *)
Definition iterate (v : value) : result (list value) :=
  match v with
  | JArr l => Ok l
  | JObj items => Ok (map (fun kv => JStr (fst kv)) items)
  | JStr s => Ok (map (fun c => JStr (String c EmptyString)) (list_ascii_of_string s))
  | JNull | JBool _ | JInt _ | JFloat _ => Raise TypeError
  end.

(** [int(t.get("min_points", 0))] *)
Definition tier_min_points (t : value) : result Z :=
  v ← get_default t "min_points" (JInt 0); int v.

(** The keys [sorted] computes, one per element and in order; the first
    failure is raised. *)
Fixpoint sort_keys (tiers : list value) : result (list (Z * value)) :=
  match tiers with
  | [] => Ok []
  | t :: rest =>
      k ← tier_min_points t;
      krest ← sort_keys rest;
      Ok ((k, t) :: krest)
  end.

Definition key_leb (x y : Z * value) : bool := fst x <=? fst y.

(** [sorted(tiers, key=lambda t: int(t.get("min_points", 0)))] *)
Definition sorted_tiers (tiers : value) : result (list value) :=
  l ← iterate tiers;
  keyed ← sort_keys l;
  Ok (map snd (sort_by key_leb keyed)).

(** The body of the loop over the sorted tiers, started with [selected]. *)
Fixpoint select_tier (points : Z) (selected : option value) (tiers : list value)
  : option value :=
  match tiers with
  | [] => selected
  | tier :: rest =>
      match tier_min_points tier with
      | Raise _ => select_tier points selected rest
      | Ok min_points =>
          if min_points <=? points
          then select_tier points (Some tier) rest
          else select_tier points selected rest
      end
  end.

(** [None if v is None else int(v)] *)
Definition none_or_int (v : value) : result (option Z) :=
  match v with
  | JNull => Ok None
  | _ => z ← int v; Ok (Some z)
  end.

(** The config built from a tier or from the file's [default] object. *)
Definition config_of (entry : value) (limits_path : string)
    (default_max_rows : Z) (default_min_interval_seconds : float)
  : result RateLimitConfig :=
  max_rows_value ← get_default entry "max_rows" (JInt default_max_rows);
  max_rows_value ← none_or_int max_rows_value;
  interval ← get_default entry "min_interval_seconds"
               (JFloat default_min_interval_seconds);
  interval ← float_of interval;
  Ok {| max_rows := max_rows_value;
        min_interval_seconds := interval;
        source := "limits:" ++ limits_path |}.

(** The last two returns: a partial override from the environment, or the
    defaults. *)
Definition env_or_default (max_rows : option Z) (min_interval : option float)
    (default_max_rows : Z) (default_min_interval_seconds : float)
  : RateLimitConfig :=
  match max_rows, min_interval with
  | None, None =>
      {| max_rows := Some default_max_rows;
         min_interval_seconds := default_min_interval_seconds;
         source := "default" |}
  | _, _ =>
      {| max_rows := Some (default default_max_rows max_rows);
         min_interval_seconds := default default_min_interval_seconds min_interval;
         source := "env:partial" |}
  end.

(** [if selected:] on the loop's variable, which starts as [None]. *)
Definition chosen (selected : option value) : option value :=
  match selected with
  | Some tier => if truthy tier then Some tier else None
  | None => None
  end.

Definition resolve_rate_limits (fs : gmap string (result value))
    (max_rows_env min_interval_env points_env limits_path : option string)
    (default_max_rows : Z) (default_min_interval_seconds : float)
  : result RateLimitConfig :=
  let max_rows := _parse_int max_rows_env in
  let min_interval := _parse_float min_interval_env in
  let fallback :=
    Ok (env_or_default max_rows min_interval
          default_max_rows default_min_interval_seconds) in
  match max_rows, min_interval with
  | Some mr, Some mi =>
      Ok {| max_rows := Some mr; min_interval_seconds := mi;
            source := "env:explicit" |}
  | _, _ =>
      limits ← _load_limits fs limits_path;
      let points := _parse_int points_env in
      match limits, points with
      | Some limits, Some points =>
          if truthy limits then
            let path := default "None" limits_path in
            tiers ← get limits "tiers";
            tiers ← sorted_tiers (or_else tiers (JArr []));
            match chosen (select_tier points None tiers) with
            | Some selected =>
                config_of selected path
                  default_max_rows default_min_interval_seconds
            | None =>
                dflt ← get limits "default";
                let dflt := or_else dflt (JObj []) in
                if truthy dflt
                then config_of dflt path
                       default_max_rows default_min_interval_seconds
                else fallback
            end
          else fallback
      | _, _ => fallback
      end
  end.

End Config.

(** ** specs.py: the specification store *)

Module Specs.
Import Py.

(** An endpoint specification as the catalog holds it.  A field is [None]
    when the key is missing or its value is one that [x or default] replaces
    ([None], an empty string, list or dict); the [input] properties keep the
    dict's insertion order. *)
Record InputSchema : Type := {
  required : option (list string);
  properties : option (list (string * value))
}.

Record OutputField : Type := {
  field_name : option string
}.

Record OutputSchema : Type := {
  fields : option (list OutputField)
}.

Record Endpoint : Type := {
  title : option string;
  description : option string;
  aliases : option (list string);
  input : option InputSchema;
  output : option OutputSchema
}.

Record SpecStore : Type := {
  apis : list (string * Endpoint);
  meta : list (string * value)
}.

(** The catalog file after [json.loads]: its [apis] and [meta] keys. *)
Record CatalogFile : Type := {
  raw_apis : option (list (string * Endpoint));
  raw_meta : option (list (string * value))
}.

(** [re.sub(r"\s+", " ", text)]: [in_run] tells that the character before
    was white space, already replaced. *)
Fixpoint collapse_spaces (in_run : bool) (text : string) : string :=
  match text with
  | EmptyString => EmptyString
  | String c rest =>
      if is_space c then
        if in_run then collapse_spaces true rest
        else String " " (collapse_spaces true rest)
      else String c (collapse_spaces false rest)
  end.

Definition _normalize (text : string) : string :=
  lower (strip (collapse_spaces false text)).

(** [{**d, k: v}]: a key already there keeps its place. *)
Fixpoint dict_set {A : Type} (k : string) (v : A) (items : list (string * A))
  : list (string * A) :=
  match items with
  | [] => [(k, v)]
  | (k', v') :: rest =>
      if String.eqb k k' then (k, v) :: rest else (k', v') :: dict_set k v rest
  end.

(** [s.split(sep)] *)
Fixpoint split_on (sep : ascii) (s : string) : list string :=
  match s with
  | EmptyString => [EmptyString]
  | String c rest =>
      if Ascii.eqb c sep then EmptyString :: split_on sep rest
      else
        match split_on sep rest with
        | h :: t => String c h :: t
        | [] => [String c EmptyString]
        end
  end.

(** [str(Path(p))] on a POSIX system: the components of the path joined by
    single slashes, without the empty ones and the ["."] ones, behind the
    root: one slash, or two when the path starts with exactly two.  A path
    with nothing left is ["."]. *)
Definition path_text (p : string) : string :=
  let root :=
    if String.prefix "///" p then "/"
    else if String.prefix "//" p then "//"
    else if String.prefix "/" p then "/"
    else "" in
  let parts :=
    List.filter (fun x => negb (String.eqb x "") && negb (String.eqb x "."))
      (split_on "/" p) in
  let text := root ++ String.concat "/" parts in
  if String.eqb text "" then "." else text.

(** [now] is what [_now_iso()] returns at the call. *)
Definition empty (now : string) : SpecStore :=
  {| apis := [];
     meta := [("loaded_at", JStr now); ("source", JStr "empty")] |}.

Definition load (fs : gmap string (result CatalogFile)) (now : string)
    (path : option string) : result SpecStore :=
  match path with
  | None => Ok (empty now)
  | Some p =>
      if String.eqb p "" then Ok (empty now)
      else
        match fs !! p with
        | None => Ok (empty now)
        | Some contents =>
            raw ← contents;
            let apis := default [] (raw_apis raw) in
            let meta := default [] (raw_meta raw) in
            let meta :=
              dict_set "spec_path" (JStr (path_text p))
                (dict_set "loaded_at" (JStr now) meta) in
            Ok {| apis := apis; meta := meta |}
        end
  end.

Definition get (self : SpecStore) (api_name : string) : option Endpoint :=
  assoc api_name (apis self).

(** The text an endpoint is searched in. *)
Definition haystack (api_name : string) (spec : Endpoint) : string :=
  let title := default "" (title spec) in
  let desc := default "" (description spec) in
  let aliases := default [] (aliases spec) in
  let input := default {| required := None; properties := None |} (input spec) in
  let output := default {| fields := None |} (output spec) in
  String.concat " "
    [ api_name;
      title;
      desc;
      String.concat " " aliases;
      String.concat " " (default [] (required input));
      String.concat " " (map fst (default [] (properties input)));
      String.concat " "
        (map (fun f => default "" (field_name f)) (default [] (fields output))) ].

(** One turn of the loop of [search]: the scored entry, or nothing. *)
Definition score_entry (kw : string) (entry : string * Endpoint)
  : option (Z * Endpoint) :=
  let '(api_name, spec) := entry in
  let title := default "" (title spec) in
  let desc := default "" (description spec) in
  let h := _normalize (haystack api_name spec) in
  if negb (contains kw h) then None
  else
    let score := 1 in
    let score := if contains kw (_normalize api_name) then score + 10 else score in
    let score := if contains kw (_normalize title) then score + 5 else score in
    let score := if contains kw (_normalize desc) then score + 3 else score in
    Some (score, spec).

Fixpoint scored (kw : string) (items : list (string * Endpoint))
  : list (Z * Endpoint) :=
  match items with
  | [] => []
  | entry :: rest =>
      match score_entry kw entry with
      | Some r => r :: scored kw rest
      | None => scored kw rest
      end
  end.

(** The order of [results.sort(key=lambda x: x[0], reverse=True)] *)
Definition score_geb (x y : Z * Endpoint) : bool := fst y <=? fst x.

Definition search (self : SpecStore) (keyword : string) (limit : Z)
  : list Endpoint :=
  let kw := _normalize keyword in
  if String.eqb kw "" then []
  else
    let results := sort_by score_geb (scored kw (apis self)) in
    map snd (firstn (Z.to_nat (Z.max 1 limit)) results).

Record Validation : Type := {
  ok : bool;
  missing_required : list string;
  unknown_params : list string
}.

(** [v in (None, "")] *)
Definition none_or_empty (v : value) : bool :=
  match v with
  | JNull => true
  | JStr s => String.eqb s ""
  | _ => false
  end.

(** [k not in params or params.get(k) in (None, "")] *)
Definition is_missing (params : gmap string value) (k : string) : bool :=
  negb (bool_decide (k ∈ dom params)) || none_or_empty (default JNull (params !! k)).

(** [spec] is [None] for an absent spec: Python's [None] or an empty dict,
    which [not spec] treats alike. *)
Definition validate_params (spec : option Endpoint) (params : gmap string value)
  : Validation :=
  match spec with
  | None => {| ok := true; missing_required := []; unknown_params := [] |}
  | Some spec =>
      let input_schema :=
        default {| required := None; properties := None |} (input spec) in
      let required : gset string :=
        list_to_set (default [] (required input_schema)) in
      let properties : gset string :=
        list_to_set (map fst (default [] (properties input_schema))) in
      let missing_required :=
        sort_by String.leb
          (List.filter (is_missing params) (elements required)) in
      let unknown_params :=
        sort_by String.leb
          (List.filter
             (fun k => negb (bool_decide (properties = ∅))
                       && negb (bool_decide (k ∈ properties)))
             (elements (dom params))) in
      let ok := match missing_required with [] => true | _ => false end in
      {| ok := ok;
         missing_required := missing_required;
         unknown_params := unknown_params |}
  end.

End Specs.

(** ** scrape.py: type coercion and the row-limit heuristic *)

Module Scrape.
Import Py.

(** The returned dict, as its items in order. *)
Definition _coerce_type (type_text : option string) : list (string * string) :=
  let t := lower (strip (default "" type_text)) in
  if String.eqb t "" then [("type", "string")]
  else if mem_str t ["str"; "string"; "text"; "varchar"] then [("type", "string")]
  else if mem_str t ["int"; "integer"; "long"] then [("type", "integer")]
  else if mem_str t ["float"; "double"; "number"; "decimal"] then [("type", "number")]
  else if mem_str t ["bool"; "boolean"] then [("type", "boolean")]
  else if contains "date" t || contains "datetime" t || contains "time" t then
    [("type", "string");
     ("format", if contains "time" t then "date-time" else "date")]
  else [("type", "string"); ("ts_type", t)].

(** *** The regular expressions of [_extract_max_rows]

    The matcher works on the characters of the text, each the UTF-8 bytes of
    one code point, and lists the ways a pattern matches at a position in the
    order the backtracking engine of [re] tries them. *)

Definition is_continuation (c : ascii) : bool :=
  let n := N_of_ascii c in ((128 <=? n) && (n <=? 191))%N.

Definition starts_with_continuation (s : string) : bool :=
  match s with
  | String c _ => is_continuation c
  | EmptyString => false
  end.

(** The characters of a text. *)
Fixpoint chars (s : string) : list string :=
  match s with
  | EmptyString => []
  | String c rest =>
      match chars rest with
      | h :: t =>
          if starts_with_continuation h then String c h :: t
          else String c EmptyString :: h :: t
      | [] => [String c EmptyString]
      end
  end.

Inductive charset : Type :=
| One (c : string)               (* a literal character *)
| NoneOf (cs : list string).     (* [^...] *)

Inductive regex : Type :=
| Never
| Chr (p : charset)
| Str (lit : list string)
| Cat (r1 r2 : regex)
| Alt (r1 r2 : regex)
| Rep (p : charset) (lo : nat) (hi : option nat)    (* p{lo,hi}, p* *)
| Group (r : regex).

Definition charset_mem (p : charset) (c : string) : bool :=
  match p with
  | One c' => String.eqb c c'
  | NoneOf cs => negb (mem_str c cs)
  end.

(** How many leading characters are in [p], at most [hi]. *)
Fixpoint span (p : charset) (hi : option nat) (s : list string) : nat :=
  match s, hi with
  | _, Some O => O
  | c :: rest, _ =>
      if charset_mem p c then S (span p (pred <$> hi) rest) else O
  | [], _ => O
  end.

(** What is left after a greedy repetition, the longest match first. *)
Definition rep_rests (p : charset) (lo : nat) (hi : option nat) (s : list string)
  : list (list string) :=
  let n := span p hi s in
  map (fun k => skipn k s) (rev (seq lo (S n - lo))).

Fixpoint strip_prefix (lit s : list string) : option (list string) :=
  match lit, s with
  | [], _ => Some s
  | c :: lit', c' :: s' => if String.eqb c c' then strip_prefix lit' s' else None
  | _ :: _, [] => None
  end.

(** The matches of [r] at the head of [s]: the text of the group and what is
    left of [s], in the engine's order. *)
Fixpoint run (r : regex) (cap : option string) (s : list string)
  : list (option string * list string) :=
  match r with
  | Never => []
  | Chr p =>
      match s with
      | c :: rest => if charset_mem p c then [(cap, rest)] else []
      | [] => []
      end
  | Str lit =>
      match strip_prefix lit s with
      | Some rest => [(cap, rest)]
      | None => []
      end
  | Cat r1 r2 => flat_map (fun m => run r2 (fst m) (snd m)) (run r1 cap s)
  | Alt r1 r2 => run r1 cap s ++ run r2 cap s
  | Rep p lo hi => map (fun rest => (cap, rest)) (rep_rests p lo hi s)
  | Group r1 =>
      map (fun m =>
             let rest := snd m in
             (Some (String.concat "" (firstn (length s - length rest) s)), rest))
          (run r1 cap s)
  end.

(** [re.findall(pat, text)] for a pattern with one group: the text is
    scanned from the left, [skip] characters being inside the last match. *)
Fixpoint findall_from (r : regex) (skip : nat) (s : list string) : list string :=
  match s with
  | [] => []
  | _ :: rest =>
      match skip with
      | S k => findall_from r k rest
      | O =>
          match run r None s with
          | (cap, after) :: _ =>
              default "" cap :: findall_from r (length rest - length after) rest
          | [] => findall_from r O rest
          end
      end
  end.

Definition findall (r : regex) (text : string) : list string :=
  findall_from r O (chars text).

Definition alternatives (phrases : list string) : regex :=
  foldr (fun phrase r => Alt (Str (chars phrase)) r) Never phrases.

Definition units : regex := alternatives ["条"; "行"; "只"].

Definition backslash : string := "\".

(** The first pattern as [re] reads it.  In the raw string literal each
    [\\] is two characters, for [re] an escaped backslash: [[^\\d]] is any
    character but a backslash and [d], [\\d{1,7}] a backslash and one to
    seven [d], [\\s*] a backslash and any number of [s]. *)
Definition pattern_phrase_first : regex :=
  Cat (alternatives
         ["限量"; "单次最大"; "单次最多"; "单次"; "每次"; "单笔"; "一次";
          "每次返回行数"; "每次返回"; "每次可请求股票数"; "单次可请求股票数";
          "单次请求股票数"])
   (Cat (Rep (NoneOf [backslash; "d"]) 0 (Some 20%nat))
   (Cat (Group (Cat (Chr (One backslash)) (Rep (One "d") 1 (Some 7%nat))))
   (Cat (Chr (One backslash))
   (Cat (Rep (One "s") 0 None)
        units)))).

(** The second pattern: [[^\\n]] is any character but a backslash and [n]. *)
Definition pattern_number_first : regex :=
  Cat (Group (Cat (Chr (One backslash)) (Rep (One "d") 1 (Some 7%nat))))
   (Cat (Chr (One backslash))
   (Cat (Rep (One "s") 0 None)
   (Cat units
   (Cat (Rep (NoneOf [backslash; "n"]) 0 (Some 12%nat))
        (alternatives ["每次"; "单次"; "返回"; "请求"]))))).

Definition patterns : list regex := [pattern_phrase_first; pattern_number_first].

(** [int(x) for x in ...]: the first failure is raised. *)
Fixpoint ints (l : list string) : result (list Z) :=
  match l with
  | [] => Ok []
  | x :: rest => z ← int_of_str x; zs ← ints rest; Ok (z :: zs)
  end.

Definition maximum (l : list Z) : option Z :=
  match l with
  | [] => None
  | x :: rest => Some (fold_left Z.max rest x)
  end.

Definition _extract_max_rows (text : option string) : result (option Z) :=
  match text with
  | None => Ok None
  | Some text =>
      if String.eqb text "" then Ok None
      else
        numbers ← ints (flat_map (fun pat => findall pat text) patterns);
        Ok (maximum numbers)
  end.

End Scrape.

(** ** capture_storage_state.py: the logged-in heuristic *)

Module Capture.
Import Py.

(** What the heuristic reads from the browser, each read succeeding or
    raising: the page's URL, the keys of its local storage, and the [name]
    of each cookie of its context ([None] for a cookie without one). *)
Record Page : Type := {
  url : result (option string);
  local_storage_keys : result (list string);
  cookie_names : result (list (option string))
}.

Definition storage_key_hit (k : string) : bool :=
  let k := lower k in
  contains "token" k || contains "auth" k.

Definition cookie_hit (c : option string) : bool :=
  let name := lower (default "" c) in
  contains "token" name || contains "session" name || contains "auth" name.

Definition _looks_logged_in (page : Page) : bool :=
  let url := try_except (u ← url page; Ok (default "" u)) "" in
  if negb (contains "login" url) then true
  else if try_except (keys ← local_storage_keys page;
                      Ok (existsb storage_key_hit keys)) false then true
  else if try_except (cookies ← cookie_names page;
                      Ok (existsb cookie_hit cookies)) false then true
  else false.

End Capture.

(** ** scrape.py: the parameter tables *)

Module Rows.
Import Py.

(** A table row: header text to cell text, a [dict[str, str]] with its items
    in order.  A schema is a dict of the same kind. *)

Definition _is_required (v : string) : bool :=
  let x := lower (strip v) in
  mem_str x ["y"; "yes"; "是"; "必填"; "required"; "true"; "1"].

(** The cell under the first of [keys] that is a header of the row. *)
Fixpoint pick (row : list (string * string)) (keys : list string) : string :=
  match keys with
  | [] => ""
  | k :: rest =>
      match assoc k row with
      | Some v => v
      | None => pick row rest
      end
  end.

(** [properties] and [required] as the loop of [_map_input_rows] holds
    them. *)
Record InputState : Type := {
  properties : list (string * list (string * string));
  required : list string
}.

(** What a turn of the loop of [_map_input_rows] reads from its row: the
    parameter's name, its schema, and whether it is required. *)
Definition input_name (row : list (string * string)) : string :=
  strip (pick row ["参数名称"; "参数"; "字段"; "名称"; "字段名"; "name"]).

Definition input_schema (row : list (string * string))
  : list (string * string) :=
  let type_text := strip (pick row ["类型"; "数据类型"; "type"]) in
  let desc := strip (pick row ["描述"; "说明"; "desc"; "备注"]) in
  let dflt := strip (pick row ["默认"; "default"]) in
  let schema :=
    Specs.dict_set "description" desc (Scrape._coerce_type (Some type_text)) in
  if String.eqb dflt "" then schema
  else Specs.dict_set "default" dflt schema.

Definition input_required (row : list (string * string)) : bool :=
  _is_required
    (strip (pick row ["必填"; "是否必须"; "是否必填"; "required"; "是否"])).

(** One turn of the loop of [_map_input_rows]. *)
Definition input_row (st : InputState) (row : list (string * string))
  : InputState :=
  let name := input_name row in
  if String.eqb name "" then st
  else
    {| properties := Specs.dict_set name (input_schema row) (properties st);
       required := if input_required row
                   then required st ++ [name] else required st |}.

(** The returned schema: its [properties] and its [required] list. *)
Definition _map_input_rows (rows : list (list (string * string)))
  : InputState :=
  let st := fold_left input_row rows {| properties := []; required := [] |} in
  {| properties := properties st;
     required :=
       sort_by String.leb (elements (list_to_set (required st) : gset string)) |}.

(** [{"name": name, "description": desc, **extra}] *)
Definition field_of (name desc : string) (extra : list (string * string))
  : list (string * string) :=
  fold_left (fun d kv => Specs.dict_set (fst kv) (snd kv) d) extra
    [("name", name); ("description", desc)].

Definition output_name (row : list (string * string)) : string :=
  strip (pick row ["字段"; "字段名"; "名称"; "参数名称"; "name"]).

(** One turn of the loop of [_map_output_rows]: the field appended, if
    any. *)
Definition output_row (row : list (string * string))
  : option (list (string * string)) :=
  let name := output_name row in
  if String.eqb name "" then None
  else
    let type_text := strip (pick row ["类型"; "数据类型"; "type"]) in
    let desc := strip (pick row ["描述"; "说明"; "desc"; "备注"]) in
    Some (field_of name desc (Scrape._coerce_type (Some type_text))).

(** The [fields] of the returned schema. *)
Fixpoint _map_output_rows (rows : list (list (string * string)))
  : list (list (string * string)) :=
  match rows with
  | [] => []
  | row :: rest =>
      match output_row row with
      | Some field => field :: _map_output_rows rest
      | None => _map_output_rows rest
      end
  end.

End Rows.

(** ** scrape.py: the minimum points *)

Module Points.
Import Py.

(** The pattern of [_extract_min_points] uses the classes [\d] and [\s],
    taken here on the ASCII range; the matcher is the one of the row-limit
    patterns, with classes given by a test on a character. *)
Inductive pattern : Type :=
| PStr (lit : list string)
| PCat (r1 r2 : pattern)
| PRep (p : string -> bool) (lo : nat) (hi : option nat)
| PGroup (r : pattern).

Definition digit_char (c : string) : bool :=
  match c with
  | String a EmptyString => is_digit a
  | _ => false
  end.

Definition space_char (c : string) : bool :=
  match c with
  | String a EmptyString => is_space a
  | _ => false
  end.

Fixpoint span (p : string -> bool) (hi : option nat) (s : list string) : nat :=
  match s, hi with
  | _, Some O => O
  | c :: rest, _ => if p c then S (span p (pred <$> hi) rest) else O
  | [], _ => O
  end.

Definition rep_rests (p : string -> bool) (lo : nat) (hi : option nat)
    (s : list string) : list (list string) :=
  let n := span p hi s in
  map (fun k => skipn k s) (rev (seq lo (S n - lo))).

Fixpoint run (r : pattern) (cap : option string) (s : list string)
  : list (option string * list string) :=
  match r with
  | PStr lit =>
      match Scrape.strip_prefix lit s with
      | Some rest => [(cap, rest)]
      | None => []
      end
  | PCat r1 r2 => flat_map (fun m => run r2 (fst m) (snd m)) (run r1 cap s)
  | PRep p lo hi => map (fun rest => (cap, rest)) (rep_rests p lo hi s)
  | PGroup r1 =>
      map (fun m =>
             let rest := snd m in
             (Some (String.concat "" (firstn (length s - length rest) s)), rest))
          (run r1 cap s)
  end.

Fixpoint findall_from (r : pattern) (skip : nat) (s : list string)
  : list string :=
  match s with
  | [] => []
  | _ :: rest =>
      match skip with
      | S k => findall_from r k rest
      | O =>
          match run r None s with
          | (cap, after) :: _ =>
              default "" cap :: findall_from r (length rest - length after) rest
          | [] => findall_from r O rest
          end
      end
  end.

(** [(\d{1,7})\s*积分] *)
Definition points_pattern : pattern :=
  PCat (PGroup (PRep digit_char 1 (Some 7%nat)))
   (PCat (PRep space_char 0 None)
         (PStr (Scrape.chars "积分"))).

Definition minimum (l : list Z) : option Z :=
  match l with
  | [] => None
  | x :: rest => Some (fold_left Z.min rest x)
  end.

(** [text] is [None] for Python's [None]. *)
Definition _extract_min_points (text : option string) : result Z :=
  hits ← Scrape.ints
           (findall_from points_pattern O (Scrape.chars (default "" text)));
  Ok (default 0 (minimum hits)).

End Points.

(** ** scrape.py: the endpoint's name and the permission note *)

Module Page.
Import Py Points.

(** [re.search]: the group of the leftmost match, the engine's first. *)
Fixpoint search (r : pattern) (s : list string) : option (option string) :=
  match run r None s with
  | (cap, _) :: _ => Some cap
  | [] =>
      match s with
      | [] => None
      | _ :: rest => search r rest
      end
  end.

Definition is_letter (a : ascii) : bool :=
  let n := N_of_ascii a in
  ((65 <=? n) && (n <=? 90) || (97 <=? n) && (n <=? 122))%N.

(** [[a-zA-Z_]] *)
Definition name_start (c : string) : bool :=
  match c with
  | String a EmptyString => is_letter a || Ascii.eqb a "_"
  | _ => false
  end.

(** [[a-zA-Z0-9_]] *)
Definition name_char (c : string) : bool :=
  match c with
  | String a EmptyString => is_letter a || is_digit a || Ascii.eqb a "_"
  | _ => false
  end.

(** [[:：]] *)
Definition colon (c : string) : bool :=
  String.eqb c ":" || String.eqb c "：".

(** The pattern of [_extract_api_name_from_text]: the word, a colon, white
    space (on the ASCII range) and the group, a first character of a name
    followed by any number of characters of a name. *)
Definition name_pattern : pattern :=
  PCat (PStr (Scrape.chars "接口"))
   (PCat (PRep colon 1 (Some 1%nat))
    (PCat (PRep space_char 0 None)
          (PGroup (PCat (PRep name_start 1 (Some 1%nat))
                        (PRep name_char 0 None))))).

(** [text] is [None] for Python's [None], and so is the result. *)
Definition _extract_api_name_from_text (text : option string) : option string :=
  match text with
  | None => None
  | Some text =>
      if String.eqb text "" then None
      else
        match search name_pattern (Scrape.chars text) with
        | Some cap => cap
        | None => None
        end
  end.

Definition permission_phrases : list string :=
  ["单独开权限"; "单独开通"; "需单独开通"; "需单独申请"; "权限开通"; "需申请权限"].

Definition _detect_permission_required (text : option string) : bool :=
  match text with
  | None => false
  | Some text =>
      if String.eqb text "" then false
      else existsb (fun kw => contains kw text) permission_phrases
  end.

End Page.

(** ** scrape.py: the rows of a table *)

Module Table.
Import Py.

(** [{headers[i]: values[i] if i < len(values) else "" for i in
    range(len(headers))}], built on [row]. *)
Fixpoint build_row (headers values : list string) (row : list (string * string))
  : list (string * string) :=
  match headers with
  | [] => row
  | h :: headers' =>
      build_row headers' (tl values) (Specs.dict_set h (hd "" values) row)
  end.

(** A table is read as the texts of the cells of each of its [tr], the
    first being the header; [None] stands for the [IndexError] that a table
    without any [tr] raises. *)
Definition _parse_table (trs : list (list string))
  : option (list (list (string * string))) :=
  match trs with
  | [] => None
  | headers :: body =>
      Some (flat_map
              (fun cells =>
                 match cells with
                 | [] => []
                 | _ :: _ => [build_row headers cells []]
                 end)
              body)
  end.

End Table.

(** ** scrape.py: the crawl *)

Module Crawl.
Import Py.

(** The links of the base page, each kept at its first occurrence. *)
Fixpoint unique_from (seen : gset string) (hrefs : list string) : list string :=
  match hrefs with
  | [] => []
  | u :: rest =>
      if bool_decide (u ∈ seen) then unique_from seen rest
      else u :: unique_from ({[u]} ∪ seen) rest
  end.

Definition unique_links (hrefs : list string) : list string :=
  unique_from ∅ hrefs.

(** [links[:n]] *)
Definition slice_to {A : Type} (n : Z) (links : list A) : list A :=
  if 0 <=? n then firstn (Z.to_nat n) links
  else firstn (length links - Z.to_nat (- n)) links.

(** [unique_links[:max_pages]] when [max_pages] is given. *)
Definition capped (max_pages : option Z) (links : list string) : list string :=
  match max_pages with
  | Some n => slice_to n links
  | None => links
  end.

(** What fetching and parsing the page at a URL comes to.  The fetch can
    fail, which the loop catches and answers by going on to the next link.
    The parser, called outside any [try], can raise, which ends the crawl
    with that error.  Otherwise the parser gives the endpoint's name and its
    spec, or nothing when the page describes no endpoint. *)
Inductive outcome (Spec : Type) : Type :=
| Unreachable
| Broken (e : exn)
| Parsed (doc : option (string * Spec)).

Arguments Unreachable {Spec}.
Arguments Broken {Spec} e.
Arguments Parsed {Spec} doc.

Section Pages.
(** The network and the HTML parser are outside the program. *)
Context {Spec : Type} (page : string -> outcome Spec).

(** The loop over the links, on [visited] and [apis]. *)
Fixpoint crawl (visited : gset string) (apis : list (string * Spec))
    (links : list string) : result (list (string * Spec)) :=
  match links with
  | [] => Ok apis
  | url :: rest =>
      if bool_decide (url ∈ visited) then crawl visited apis rest
      else
        let visited := {[url]} ∪ visited in
        match page url with
        | Unreachable => crawl visited apis rest
        | Broken e => Raise e
        | Parsed (Some (api_name, spec)) =>
            crawl visited (Specs.dict_set api_name spec apis) rest
        | Parsed None => crawl visited apis rest
        end
  end.

(** The [apis] of the catalog and the [count] of its [meta]. *)
Definition scrape (max_pages : option Z) (hrefs : list string)
  : result (list (string * Spec) * Z) :=
  apis ← crawl ∅ [] (capped max_pages (unique_links hrefs));
  Ok (apis, Z.of_nat (length apis)).
End Pages.

End Crawl.

(** ** client.py: the provider handle *)

Module Client.
Import Py.

Inductive error : Type :=
| RuntimeError (message : string)
| AttributeError (message : string).

Inductive outcome (A : Type) : Type :=
| Done (a : A)
| Failed (e : error).

Arguments Done {A} a.
Arguments Failed {A} e.

(** [a or b] on what [os.environ.get] returns. *)
Definition or_env (a b : option string) : option string :=
  match a with
  | Some s => if String.eqb s "" then b else Some s
  | None => b
  end.

Definition falsy (token : option string) : bool :=
  match token with
  | Some s => String.eqb s ""
  | None => true
  end.

Section Provider.
(** The vendor's library: the text of the exception when it cannot be
    imported, the handle [ts.pro_api] builds for a token, and what [getattr]
    finds on a handle: nothing (or [None]), or an attribute that is callable
    or not.  [ts.pro_api] is taken to return a handle. *)
Context {Handle Fn : Type}
        (import_error : option string)
        (pro_api : string -> Handle)
        (attribute : Handle -> string -> option (Fn + unit)).

Record TushareClient : Type := {
  _token : option string;
  _pro : option Handle
}.

Definition from_env (environ : gmap string string) : TushareClient :=
  {| _token := or_env (environ !! "TUSHARE_TOKEN") (environ !! "TS_TOKEN");
     _pro := None |}.

(** The result and the client after the call. *)
Definition _get_pro (self : TushareClient) : outcome Handle * TushareClient :=
  match _pro self with
  | Some pro => (Done pro, self)
  | None =>
      if falsy (_token self) then
        (Failed (RuntimeError
                   "Missing Tushare token. Set env `TUSHARE_TOKEN` (or `TS_TOKEN`)."),
         self)
      else
        match import_error with
        | Some e =>
            (Failed (RuntimeError ("Failed to import `tushare`: " ++ e)), self)
        | None =>
            let pro := pro_api (default "" (_token self)) in
            (Done pro, {| _token := _token self; _pro := Some pro |})
        end
  end.

Definition get_api (self : TushareClient) (api_name : string)
  : outcome Fn * TushareClient :=
  match _get_pro self with
  | (Failed e, self) => (Failed e, self)
  | (Done pro, self) =>
      match attribute pro api_name with
      | Some (inl fn) => (Done fn, self)
      | _ => (Failed (AttributeError ("Unknown Tushare API: " ++ api_name)), self)
      end
  end.
End Provider.

End Client.

(** * Properties *)

(** ** The stable sort *)

Module SortFacts.
Import Py.

Section Sorting.
Context {A : Type} (leb : A -> A -> bool).

Definition le (x y : A) : Prop := leb x y = true.

Lemma insert_sorted_perm (x : A) (l : list A) :
  Permutation (insert_sorted leb x l) (x :: l).
Proof.
  induction l as [|y l IH]; simpl.
  - reflexivity.
  - destruct (leb x y).
    + reflexivity.
    + rewrite IH. apply perm_swap.
Qed.

Lemma sort_by_perm (l : list A) : Permutation (sort_by leb l) l.
Proof.
  induction l as [|x l IH]; simpl.
  - constructor.
  - rewrite insert_sorted_perm. now constructor.
Qed.

Lemma sort_by_In (x : A) (l : list A) : In x (sort_by leb l) <-> In x l.
Proof.
  split; apply Permutation_in;
    [apply sort_by_perm | symmetry; apply sort_by_perm].
Qed.

(** An element keeps its place among those it is tied with: the elements
    of a class [p] whose members are below one another come out in the
    order they went in. *)
Lemma insert_sorted_stable (p : A -> bool) (x : A) (l : list A) :
  (forall y, p x = true -> p y = true -> leb x y = true) ->
  List.filter p (insert_sorted leb x l) = List.filter p (x :: l).
Proof.
  intros Hp. induction l as [|y l IH]; [reflexivity|].
  cbn [insert_sorted]. destruct (leb x y) eqn:Hxy; [reflexivity|].
  cbn [List.filter] in *. rewrite IH.
  destruct (p x) eqn:Hx, (p y) eqn:Hy; try reflexivity.
  rewrite (Hp y eq_refl Hy) in Hxy. discriminate.
Qed.

Lemma sort_by_stable (p : A -> bool) (l : list A) :
  (forall x y, p x = true -> p y = true -> leb x y = true) ->
  List.filter p (sort_by leb l) = List.filter p l.
Proof.
  intros Hp. induction l as [|x l IH]; [reflexivity|].
  cbn [sort_by]. rewrite insert_sorted_stable by (apply Hp).
  cbn [List.filter]. now rewrite IH.
Qed.

Hypothesis leb_total : forall x y, leb x y = true \/ leb y x = true.
Hypothesis leb_trans :
  forall x y z, leb x y = true -> leb y z = true -> leb x z = true.

Lemma insert_sorted_sorted (x : A) (l : list A) :
  StronglySorted le l -> StronglySorted le (insert_sorted leb x l).
Proof.
  induction 1 as [|y l Hl IH Hy]; cbn [insert_sorted].
  - repeat constructor.
  - destruct (leb x y) eqn:Hxy.
    + constructor; [now constructor|].
      constructor; [exact Hxy|].
      apply List.Forall_forall. intros z Hz.
      rewrite List.Forall_forall in Hy. apply leb_trans with y; auto.
      now apply Hy.
    + constructor; [exact IH|].
      apply List.Forall_forall. intros z Hz.
      apply (Permutation_in _ (insert_sorted_perm x l)) in Hz.
      destruct Hz as [<-|Hz].
      * destruct (leb_total x y) as [H|H]; [congruence|exact H].
      * rewrite List.Forall_forall in Hy. now apply Hy.
Qed.

Lemma sort_by_sorted (l : list A) : StronglySorted le (sort_by leb l).
Proof.
  induction l as [|x l IH]; cbn [sort_by].
  - constructor.
  - now apply insert_sorted_sorted.
Qed.
End Sorting.

End SortFacts.

(** ** The rate-limit resolver *)

Module ConfigFacts.
Import Py Config SortFacts.

(** A tier that states its [min_points] as something [int] accepts. *)
Definition tier_has_min_points (t : value) (m : Z) : Prop :=
  exists items v,
    t = JObj items /\ assoc "min_points" items = Some v /\ int v = Ok m.

(** The limits table of the documentation's example. *)
Definition example_tiers : list value :=
  [ JObj [("min_points", JInt 0); ("max_rows", JInt 100);
          ("min_interval_seconds", JFloat (FFinite 1))];
    JObj [("min_points", JInt 2000); ("max_rows", JInt 1000);
          ("min_interval_seconds", JFloat (FFinite (3 # 10)))];
    JObj [("min_points", JInt 5000); ("max_rows", JInt 5000);
          ("min_interval_seconds", JFloat (FFinite (1 # 10)))] ].

Definition example_limits : value := JObj [("tiers", JArr example_tiers)].

Lemma tier_has_min_points_spec (t : value) (m : Z) :
  tier_has_min_points t m -> tier_min_points t = Ok m /\ truthy t = true.
Proof.
  intros (items & v & -> & Hv & Hm). unfold tier_min_points. simpl.
  rewrite Hv. simpl. split; [exact Hm|].
  destruct items; [discriminate|reflexivity].
Qed.

Lemma key_leb_total (x y : Z * value) :
  key_leb x y = true \/ key_leb y x = true.
Proof. unfold key_leb. lia. Qed.

Lemma key_leb_trans (x y z : Z * value) :
  key_leb x y = true -> key_leb y z = true -> key_leb x z = true.
Proof. unfold key_leb. lia. Qed.

Lemma sort_keys_ok (tiers : list value) :
  Forall (fun t => exists m, tier_min_points t = Ok m) tiers ->
  exists keyed,
    sort_keys tiers = Ok keyed /\ map snd keyed = tiers /\
    Forall (fun kt => tier_min_points (snd kt) = Ok (fst kt)) keyed.
Proof.
  induction 1 as [|t tiers [m Hm] _ (keyed & Hk & Hs & Hc)].
  - exists []. repeat split; constructor.
  - exists ((m, t) :: keyed). simpl. rewrite Hm, Hk. simpl.
    repeat split; [now rewrite Hs|]. now constructor.
Qed.

(** On tiers sorted by their keys the loop ends on a qualifying tier of the
    greatest key, or on what it started with when no tier qualifies. *)
Lemma select_tier_sorted (points : Z) (keyed : list (Z * value)) :
  StronglySorted (le key_leb) keyed ->
  Forall (fun kt => tier_min_points (snd kt) = Ok (fst kt)) keyed ->
  forall selected,
    (select_tier points selected (map snd keyed) = selected /\
     Forall (fun kt => points < fst kt) keyed) \/
    (exists kt,
       select_tier points selected (map snd keyed) = Some (snd kt) /\
       In kt keyed /\ fst kt <= points /\
       Forall (fun kt' => fst kt' <= points -> fst kt' <= fst kt) keyed).
Proof.
  induction 1 as [|[k t] keyed Hs IH Hk]; intros Hc selected.
  - left. split; [reflexivity|constructor].
  - inversion Hc as [|? ? Hkt Hc']; subst. simpl in Hkt.
    cbn [map snd select_tier]. rewrite Hkt.
    destruct (k <=? points) eqn:Hq.
    + destruct (IH Hc' (Some t)) as [[Hsel Hnone]|(kt & Hsel & Hin & Hle & Hmax)].
      * right. exists (k, t). rewrite Hsel. simpl.
        repeat split; [now left|lia|].
        constructor; [simpl; lia|].
        eapply List.Forall_impl; [|exact Hnone]. simpl. intros; lia.
      * right. exists kt. rewrite Hsel.
        repeat split; [now right|exact Hle|].
        constructor; [|exact Hmax]. simpl. intros _.
        rewrite List.Forall_forall in Hk. specialize (Hk kt Hin).
        unfold le, key_leb in Hk. simpl in Hk. lia.
    + destruct (IH Hc' selected) as [[Hsel Hnone]|(kt & Hsel & Hin & Hle & Hmax)].
      * left. split; [exact Hsel|]. constructor; [simpl; lia|exact Hnone].
      * right. exists kt. rewrite Hsel.
        repeat split; [now right|exact Hle|].
        constructor; [simpl; lia|exact Hmax].
Qed.

(** What the resolver does once the limits file is loaded and the points
    are known, when every tier states its [min_points]. *)
Lemma resolve_with_tiers (fs : gmap string (result value))
    (max_rows_env min_interval_env points_env : option string)
    (path : string) (items : list (string * value)) (tiers : list value)
    (points dmr : Z) (dmi : float) :
  _parse_int max_rows_env = None \/ _parse_float min_interval_env = None ->
  path <> "" ->
  fs !! path = Some (Ok (JObj items)) ->
  assoc "tiers" items = Some (JArr tiers) ->
  tiers <> [] ->
  _parse_int points_env = Some points ->
  Forall (fun t => exists m, tier_has_min_points t m) tiers ->
  exists keyed,
    map snd keyed = tiers /\
    Forall (fun kt => tier_min_points (snd kt) = Ok (fst kt)) keyed /\
    resolve_rate_limits fs max_rows_env min_interval_env points_env
      (Some path) dmr dmi =
    match chosen (select_tier points None
                    (map snd (sort_by key_leb keyed))) with
    | Some selected => config_of selected path dmr dmi
    | None =>
        dflt ← get (JObj items) "default";
        let dflt := or_else dflt (JObj []) in
        if truthy dflt then config_of dflt path dmr dmi
        else Ok (env_or_default (_parse_int max_rows_env)
                   (_parse_float min_interval_env) dmr dmi)
    end.
Proof.
  intros Henv Hpath Hfs Htiers Hne Hpoints Hwf.
  destruct (sort_keys_ok tiers) as (keyed & Hk & Hs & Hc).
  { eapply List.Forall_impl; [|exact Hwf]. intros t [m Hm].
    exists m. now apply tier_has_min_points_spec. }
  exists keyed. split; [exact Hs|]. split; [exact Hc|].
  assert (Hload : _load_limits fs (Some path) = Ok (Some (JObj items))).
  { unfold _load_limits. apply String.eqb_neq in Hpath. rewrite Hpath, Hfs.
    reflexivity. }
  assert (Htruthy : truthy (JObj items) = true).
  { destruct items; [discriminate|reflexivity]. }
  assert (Hsorted : sorted_tiers (or_else (JArr tiers) (JArr [])) =
                    Ok (map snd (sort_by key_leb keyed))).
  { unfold or_else. destruct tiers; [congruence|].
    cbn [truthy]. unfold sorted_tiers. cbn [iterate mbind result_bind].
    rewrite Hk. reflexivity. }
  unfold resolve_rate_limits. rewrite Hload, Hpoints.
  cbn [mbind result_bind]. rewrite Htruthy.
  cbn [get]. rewrite Htiers. cbn [from_option id mbind result_bind].
  rewrite Hsorted. cbn [mbind result_bind].
  destruct Henv as [-> | Hmi].
  - reflexivity.
  - rewrite Hmi. destruct (_parse_int max_rows_env); reflexivity.
Qed.

(** Where every tier states a [min_points] that [int] accepts, the
    selection is the documented one: with points that parse and the
    environment not giving both values, the resolver builds its result from
    a tier whose [min_points] is the greatest among those not above the
    points; on the example table with 3000 points that is the tier of 2000:
    1000 rows, 0.3 seconds, source "limits:<path>". *)
Theorem resolve_rate_limits_selects_highest_tier :
  (forall (fs : gmap string (result value))
      (max_rows_env min_interval_env points_env : option string)
      (path : string) (items : list (string * value)) (tiers : list value)
      (points dmr : Z) (dmi : float),
      (_parse_int max_rows_env = None \/ _parse_float min_interval_env = None) ->
      path <> "" ->
      fs !! path = Some (Ok (JObj items)) ->
      assoc "tiers" items = Some (JArr tiers) ->
      _parse_int points_env = Some points ->
      Forall (fun t => exists m, tier_has_min_points t m) tiers ->
      Exists (fun t => exists m, tier_has_min_points t m /\ m <= points) tiers ->
      exists tier m,
        In tier tiers /\ tier_has_min_points tier m /\ m <= points /\
        (forall t' m', In t' tiers -> tier_has_min_points t' m' ->
                       m' <= points -> m' <= m) /\
        resolve_rate_limits fs max_rows_env min_interval_env points_env
          (Some path) dmr dmi
        = config_of tier path dmr dmi) /\
  (forall (fs : gmap string (result value)) (path : string)
      (dmr : Z) (dmi : float),
      path <> "" ->
      fs !! path = Some (Ok example_limits) ->
      resolve_rate_limits fs None None (Some "3000") (Some path) dmr dmi
      = Ok {| max_rows := Some 1000;
              min_interval_seconds := FFinite (3 # 10);
              source := "limits:" ++ path |}).
Proof.
  split.
  - intros fs mre mie pe path items tiers points dmr dmi
      Henv Hpath Hfs Htiers Hpoints Hwf Hq.
    assert (Hne : tiers <> []) by (intros ->; inversion Hq).
    destruct (resolve_with_tiers fs mre mie pe path items tiers points dmr dmi
                Henv Hpath Hfs Htiers Hne Hpoints Hwf)
      as (keyed & Hs & Hc & ->).
    assert (Hperm : Permutation (sort_by key_leb keyed) keyed)
      by apply sort_by_perm.
    assert (Hc' : Forall (fun kt => tier_min_points (snd kt) = Ok (fst kt))
                    (sort_by key_leb keyed)).
    { apply List.Forall_forall. intros kt Hin.
      rewrite List.Forall_forall in Hc. apply Hc.
      now apply (Permutation_in _ Hperm). }
    assert (Hkey : forall t m, In t tiers -> tier_has_min_points t m ->
                               In (m, t) keyed).
    { intros t m Hin Hm. rewrite <- Hs in Hin. apply in_map_iff in Hin.
      destruct Hin as ([k t'] & Heq & Hin). simpl in Heq. subst t'.
      rewrite List.Forall_forall in Hc. specialize (Hc _ Hin). simpl in Hc.
      apply tier_has_min_points_spec in Hm. destruct Hm as [Hm _].
      rewrite Hm in Hc. now inversion Hc; subst. }
    destruct (select_tier_sorted points (sort_by key_leb keyed)
                (sort_by_sorted key_leb key_leb_total key_leb_trans keyed)
                Hc' None)
      as [[_ Hnone]|([k t] & Hsel & Hin & Hle & Hmax)].
    + exfalso. apply List.Exists_exists in Hq.
      destruct Hq as (t & Hin & m & Hm & Hle).
      rewrite List.Forall_forall in Hnone.
      specialize (Hnone (m, t)). simpl in Hnone.
      assert (points < m); [|lia].
      apply Hnone. apply (Permutation_in _ (Permutation_sym Hperm)).
      now apply Hkey.
    + simpl in Hsel, Hle. rewrite Hsel.
      apply (Permutation_in _ Hperm) in Hin.
      assert (Hint : In t tiers).
      { rewrite <- Hs. apply in_map_iff. now exists (k, t). }
      rewrite List.Forall_forall in Hwf.
      destruct (Hwf t Hint) as [m Hm].
      assert (m = k).
      { specialize (Hkey t m Hint Hm).
        rewrite List.Forall_forall in Hc.
        pose proof (Hc _ Hkey) as H1. pose proof (Hc _ Hin) as H2.
        simpl in H1, H2. congruence. }
      subst m. exists t, k.
      destruct (tier_has_min_points_spec t k Hm) as [_ Htruthy].
      cbn [chosen]. rewrite Htruthy.
      repeat split; auto.
      intros t' m' Hin' Hm' Hle'.
      rewrite List.Forall_forall in Hmax.
      apply (Hmax (m', t')); [|exact Hle'].
      apply (Permutation_in _ (Permutation_sym Hperm)). now apply Hkey.
  - intros fs path dmr dmi Hpath Hfs.
    unfold resolve_rate_limits, _load_limits.
    apply String.eqb_neq in Hpath. cbn [_parse_int _parse_float].
    rewrite Hpath, Hfs. reflexivity.
Qed.

Definition example_fs : gmap string (result value) :=
  {[ "limits.json" := Ok example_limits ]}.

Lemma resolve_rate_limits_selects_highest_tier_witness :
  exists tier m,
    In tier example_tiers /\
    tier_has_min_points tier m /\ m <= 3000 /\
    resolve_rate_limits example_fs None (Some "fast") (Some "3000")
      (Some "limits.json") 500 (FFinite (35 # 100))
    = config_of tier "limits.json" 500 (FFinite (35 # 100)).
Proof.
  destruct (proj1 resolve_rate_limits_selects_highest_tier
              example_fs None (Some "fast") (Some "3000") "limits.json"
              [("tiers", JArr example_tiers)] example_tiers
              3000 500 (FFinite (35 # 100)))
    as (tier & m & Hin & Hm & Hle & _ & Heq).
  - left. reflexivity.
  - discriminate.
  - reflexivity.
  - reflexivity.
  - reflexivity.
  - repeat constructor.
    + exists 0. eexists _, _. repeat split; reflexivity.
    + exists 2000. eexists _, _. repeat split; reflexivity.
    + exists 5000. eexists _, _. repeat split; reflexivity.
  - constructor. exists 0. split; [|lia].
    eexists _, _. repeat split; reflexivity.
  - exists tier, m. repeat split; assumption.
Defined.


(** So does a tier whose [min_points] [int] rejects: the key function of
    [sorted] raises before the loop, whose [try] would skip the tier. *)
Lemma resolve_rate_limits_raises_on_unparsable_min_points :
  resolve_rate_limits
    {[ "limits.json" :=
         Ok (JObj [("tiers", JArr [
               JObj [("min_points", JStr "gold"); ("max_rows", JInt 100)];
               JObj [("min_points", JInt 0); ("max_rows", JInt 50)]])]) ]}
    None None (Some "3000") (Some "limits.json") 500 (FFinite (35 # 100))
  = Raise ValueError.
Proof. reflexivity. Qed.





(** A negative interval in the environment goes through unchanged. *)
Lemma resolve_rate_limits_negative_interval :
  float_ge0 (FFinite (35 # 100)) = true /\
  exists cfg,
    resolve_rate_limits example_fs (Some "5") (Some "-1") (Some "3000")
      (Some "limits.json") 500 (FFinite (35 # 100)) = Ok cfg /\
    float_ge0 (min_interval_seconds cfg) = false.
Proof. split; [reflexivity|]. eexists. split; reflexivity. Qed.

(** An entry of the limits file that states its [min_interval_seconds] as
    something [float] accepts. *)
Definition interval_given (entry : value) (f : float) : Prop :=
  exists items v,
    entry = JObj items /\ assoc "min_interval_seconds" items = Some v /\
    float_of v = Ok f.

(** The entries the resolver can build a config from: what it iterates over
    under [tiers], and the [default] object. *)
Definition file_entry (limits entry : value) : Prop :=
  (exists tiers l,
     get limits "tiers" = Ok tiers /\
     iterate (or_else tiers (JArr [])) = Ok l /\ In entry l) \/
  (exists d, get limits "default" = Ok d /\ entry = or_else d (JObj [])).

Lemma select_tier_In (points : Z) (tiers : list value) :
  forall selected t,
    select_tier points selected tiers = Some t ->
    selected = Some t \/ In t tiers.
Proof.
  induction tiers as [|tier tiers IH]; intros selected t H; cbn in H.
  - now left.
  - destruct (tier_min_points tier) as [m|e].
    + destruct (m <=? points).
      * destruct (IH _ _ H) as [Heq|Hin].
        -- injection Heq as ->. right. now left.
        -- right. now right.
      * destruct (IH _ _ H) as [Heq|Hin]; [now left|right; now right].
    + destruct (IH _ _ H) as [Heq|Hin]; [now left|right; now right].
Qed.

Lemma sort_keys_snd (tiers : list value) :
  forall keyed, sort_keys tiers = Ok keyed -> map snd keyed = tiers.
Proof.
  induction tiers as [|t tiers IH]; intros keyed H; cbn in H.
  - now injection H as <-.
  - destruct (tier_min_points t) as [k|e]; [|discriminate].
    cbn in H. destruct (sort_keys tiers) as [krest|e]; [|discriminate].
    cbn in H. injection H as <-. cbn. now rewrite (IH krest).
Qed.

Lemma sorted_tiers_In (tiers : value) (sorted : list value) :
  sorted_tiers tiers = Ok sorted ->
  exists l, iterate tiers = Ok l /\ forall t, In t sorted -> In t l.
Proof.
  unfold sorted_tiers. intros H.
  destruct (iterate tiers) as [l|e]; [|discriminate]. cbn in H.
  destruct (sort_keys l) as [keyed|e] eqn:Hk; [|discriminate]. cbn in H.
  injection H as <-. exists l. split; [reflexivity|].
  intros t Hin. rewrite <- (sort_keys_snd _ _ Hk).
  apply in_map_iff in Hin. destruct Hin as (kt & <- & Hin).
  apply in_map. now apply (sort_by_In key_leb).
Qed.

Lemma config_of_interval (entry : value) (path : string) (dmr : Z)
    (dmi : float) (cfg : RateLimitConfig) :
  config_of entry path dmr dmi = Ok cfg ->
  interval_given entry (min_interval_seconds cfg) \/
  min_interval_seconds cfg = dmi.
Proof.
  unfold config_of. intros H.
  destruct entry as [| | | | | |items]; try discriminate.
  cbn [get_default mbind result_bind] in H.
  destruct (none_or_int _) as [mr|e]; [|discriminate].
  cbn [mbind result_bind] in H.
  destruct (assoc "min_interval_seconds" items) as [v|] eqn:Hv; cbn in H.
  - destruct (float_of v) as [f|e] eqn:Hf; [|discriminate].
    cbn in H. injection H as <-. left. now exists items, v.
  - injection H as <-. now right.
Qed.

Lemma env_or_default_interval (mr : option Z) (mi : option float) (dmr : Z)
    (dmi : float) :
  min_interval_seconds (env_or_default mr mi dmr dmi) = default dmi mi.
Proof. destruct mr, mi; reflexivity. Qed.

(** C7, amended.  The resolver passes the interval through unchanged: the
    result's [min_interval_seconds] is at least 0 when the default is, the
    environment value is when it parses, and every [min_interval_seconds]
    stated in the limits file is.  Nothing is clamped. *)
Theorem resolve_rate_limits_interval_nonnegative :
  forall (fs : gmap string (result value))
    (max_rows_env min_interval_env points_env limits_path : option string)
    (dmr : Z) (dmi : float) (cfg : RateLimitConfig),
    float_ge0 dmi = true ->
    (forall f, _parse_float min_interval_env = Some f -> float_ge0 f = true) ->
    (forall p limits entry f,
       limits_path = Some p -> fs !! p = Some (Ok limits) ->
       file_entry limits entry -> interval_given entry f ->
       float_ge0 f = true) ->
    resolve_rate_limits fs max_rows_env min_interval_env points_env
      limits_path dmr dmi = Ok cfg ->
    float_ge0 (min_interval_seconds cfg) = true.
Proof.
  intros fs mre mie pe lp dmr dmi cfg Hd Henv Hfile.
  assert (Hfallback : forall mr,
             Ok (env_or_default mr (_parse_float mie) dmr dmi) = Ok cfg ->
             float_ge0 (min_interval_seconds cfg) = true).
  { intros mr H. injection H as <-. rewrite env_or_default_interval.
    destruct (_parse_float mie) as [f|]; [now apply Henv|exact Hd]. }
  assert (Hentry : forall p limits entry,
             lp = Some p -> fs !! p = Some (Ok limits) ->
             file_entry limits entry ->
             config_of entry (default "None" lp) dmr dmi = Ok cfg ->
             float_ge0 (min_interval_seconds cfg) = true).
  { intros p limits entry Hp Hfs He Hc.
    destruct (config_of_interval _ _ _ _ _ Hc) as [Hi| ->]; [|exact Hd].
    exact (Hfile p limits entry _ Hp Hfs He Hi). }
  assert (Hrest : forall mr,
    (limits ← _load_limits fs lp;
     match limits, _parse_int pe with
     | Some limits, Some points =>
         if truthy limits then
           tiers ← get limits "tiers";
           tiers ← sorted_tiers (or_else tiers (JArr []));
           match chosen (select_tier points None tiers) with
           | Some selected => config_of selected (default "None" lp) dmr dmi
           | None =>
               dflt ← get limits "default";
               if truthy (or_else dflt (JObj []))
               then config_of (or_else dflt (JObj [])) (default "None" lp)
                      dmr dmi
               else Ok (env_or_default mr (_parse_float mie) dmr dmi)
           end
         else Ok (env_or_default mr (_parse_float mie) dmr dmi)
     | _, _ => Ok (env_or_default mr (_parse_float mie) dmr dmi)
     end) = Ok cfg ->
    float_ge0 (min_interval_seconds cfg) = true).
  { intros mr H. unfold _load_limits in H.
    destruct lp as [p|]; [|now apply (Hfallback mr)].
    destruct (String.eqb p ""); [now apply (Hfallback mr)|].
    destruct (fs !! p) as [[limits|e]|] eqn:Hfs;
      [|discriminate|now apply (Hfallback mr)].
    cbn [mbind result_bind] in H.
    destruct (_parse_int pe) as [points|]; [|now apply (Hfallback mr)].
    destruct (truthy limits); [|now apply (Hfallback mr)].
    destruct (get limits "tiers") as [tiers|e] eqn:Ht; [|discriminate].
    cbn [mbind result_bind] in H.
    destruct (sorted_tiers (or_else tiers (JArr []))) as [sorted|e] eqn:Hs;
      [|discriminate].
    cbn [mbind result_bind] in H.
    destruct (chosen (select_tier points None sorted)) as [selected|] eqn:Hc.
    - apply (Hentry p limits selected eq_refl Hfs); [|exact H].
      left. destruct (sorted_tiers_In _ _ Hs) as (l & Hl & Hin).
      exists tiers, l. repeat split; try assumption. apply Hin.
      unfold chosen in Hc.
      destruct (select_tier points None sorted) as [t|] eqn:Hsel;
        [|discriminate].
      destruct (truthy t); [|discriminate]. injection Hc as ->.
      destruct (select_tier_In _ _ _ _ Hsel) as [Habs|Hin']; [discriminate|].
      exact Hin'.
    - destruct (get limits "default") as [dflt|e] eqn:Hdf; [|discriminate].
      cbn [mbind result_bind] in H.
      destruct (truthy (or_else dflt (JObj []))); [|now apply (Hfallback mr)].
      apply (Hentry p limits (or_else dflt (JObj [])) eq_refl Hfs); [|exact H].
      right. now exists dflt. }
  unfold resolve_rate_limits.
  destruct (_parse_int mre) as [mr|] eqn:Hmr.
  - destruct (_parse_float mie) as [mi|] eqn:Hmi.
    + intros H. injection H as <-. now apply Henv.
    + intros H. exact (Hrest (Some mr) H).
  - intros H. apply (Hrest None).
    destruct (_parse_float mie); exact H.
Qed.

Lemma resolve_rate_limits_interval_nonnegative_witness :
  float_ge0
    (min_interval_seconds
       {| max_rows := Some 1000; min_interval_seconds := FFinite (3 # 10);
          source := "limits:limits.json" |}) = true.
Proof.
  apply (resolve_rate_limits_interval_nonnegative example_fs
           None (Some "0.5") (Some "3000") (Some "limits.json")
           500 (FFinite (35 # 100))).
  - reflexivity.
  - intros f H. vm_compute in H. injection H as <-. reflexivity.
  - intros p limits entry f Hp Hfs He Hi. injection Hp as <-.
    vm_compute in Hfs. injection Hfs as <-.
    destruct Hi as (items & v & -> & Hv & Hf).
    destruct He as [(tiers & l & Ht & Hl & Hin)|(d & Hd & He)].
    + cbn in Ht. injection Ht as <-. cbn in Hl. injection Hl as <-.
      destruct Hin as [H|[H|[H|[]]]]; injection H as <-;
        cbn in Hv; injection Hv as <-; cbn in Hf; injection Hf as <-;
        reflexivity.
    + cbn in Hd. injection Hd as <-. cbn in He. injection He as ->.
      discriminate Hv.
  - reflexivity.
Defined.

End ConfigFacts.

(** ** The specification store *)

Module SpecsFacts.
Import Py Specs SortFacts.

Lemma leb_string_total (x y : string) :
  String.leb x y = true \/ String.leb y x = true.
Proof. apply String.leb_total. Qed.

Lemma compare_lt_trans (x : string) :
  forall y z,
    String.compare x y = Lt -> String.compare y z = Lt ->
    String.compare x z = Lt.
Proof.
  induction x as [|a x IH]; intros [|b y] [|c z]; cbn; try congruence.
  unfold Ascii.compare.
  destruct (N.compare_spec (N_of_ascii a) (N_of_ascii b)) as [Hab|Hab|Hab];
    try discriminate;
    destruct (N.compare_spec (N_of_ascii b) (N_of_ascii c)) as [Hbc|Hbc|Hbc];
    try discriminate; intros Hxy Hyz.
  - rewrite Hab, Hbc, N.compare_refl. now apply IH with y.
  - rewrite Hab. now apply N.compare_lt_iff in Hbc as ->.
  - rewrite <- Hbc. now apply N.compare_lt_iff in Hab as ->.
  - assert (H : (N_of_ascii a < N_of_ascii c)%N) by lia.
    now apply N.compare_lt_iff in H as ->.
Qed.

Lemma leb_string_trans (x y z : string) :
  String.leb x y = true -> String.leb y z = true -> String.leb x z = true.
Proof.
  unfold String.leb. intros Hxy Hyz.
  destruct (String.compare x y) eqn:Exy; try discriminate;
    destruct (String.compare y z) eqn:Eyz; try discriminate.
  - apply String.compare_eq_iff in Exy. subst. now rewrite Eyz.
  - apply String.compare_eq_iff in Exy. subst. now rewrite Eyz.
  - apply String.compare_eq_iff in Eyz. subst. now rewrite Exy.
  - now rewrite (compare_lt_trans x y z Exy Eyz).
Qed.

(** The names a spec requires and the names it declares. *)
Definition required_names (s : Endpoint) : list string :=
  default [] (required (default {| required := None; properties := None |} (input s))).

Definition declared_names (s : Endpoint) : list string :=
  map fst
    (default [] (properties (default {| required := None; properties := None |} (input s)))).

Lemma In_elements_list_to_set (k : string) (l : list string) :
  In k (elements (list_to_set l : gset string)) <-> In k l.
Proof.
  rewrite <- !list_elem_of_In, elem_of_elements, elem_of_list_to_set.
  reflexivity.
Qed.

Lemma list_to_set_empty_iff (l : list string) :
  (list_to_set l : gset string) = ∅ <-> l = [].
Proof.
  split; [|now intros ->].
  destruct l as [|x l]; [reflexivity|]. intros H.
  assert (Hx : x ∈ (list_to_set (x :: l) : gset string))
    by (apply elem_of_list_to_set; left).
  rewrite H in Hx. now apply not_elem_of_empty in Hx.
Qed.

Lemma missing_required_spec (s : Endpoint) (params : gmap string value)
    (k : string) :
  In k (missing_required (validate_params (Some s) params)) <->
  In k (required_names s) /\ is_missing params k = true.
Proof.
  cbn [validate_params missing_required].
  rewrite sort_by_In, filter_In, In_elements_list_to_set. reflexivity.
Qed.

Lemma unknown_params_spec (s : Endpoint) (params : gmap string value)
    (k : string) :
  In k (unknown_params (validate_params (Some s) params)) <->
  declared_names s <> [] /\ is_Some (params !! k) /\ ~ In k (declared_names s).
Proof.
  cbn [validate_params unknown_params].
  rewrite sort_by_In, filter_In, <- list_elem_of_In, elem_of_elements,
    elem_of_dom, andb_true_iff, !negb_true_iff, !bool_decide_eq_false,
    list_to_set_empty_iff, elem_of_list_to_set, list_elem_of_In.
  fold (declared_names s). tauto.
Qed.

Lemma sorted_filter_elements (X : gset string) (p : string -> bool) :
  StronglySorted (fun a b => String.leb a b = true)
    (sort_by String.leb (List.filter p (elements X))) /\
  List.NoDup (sort_by String.leb (List.filter p (elements X))).
Proof.
  split.
  - apply (sort_by_sorted String.leb leb_string_total leb_string_trans).
  - eapply Permutation_NoDup; [symmetry; apply sort_by_perm|].
    apply List.NoDup_filter, NoDup_ListNoDup, NoDup_elements.
Qed.

(** C3. [ok] holds exactly when nothing required is missing; the unknown
    parameters are the supplied names that are not declared, sorted, and
    none are reported when the spec declares no property; they do not
    enter [ok]; without a spec the result is [ok] with both lists empty. *)
Theorem validate_params_result :
  forall (spec : option Endpoint) (params : gmap string value),
    (ok (validate_params spec params) = true <->
     missing_required (validate_params spec params) = []) /\
    (spec = None ->
     validate_params spec params
     = {| ok := true; missing_required := []; unknown_params := [] |}) /\
    (forall s, spec = Some s ->
       StronglySorted (fun a b => String.leb a b = true)
         (unknown_params (validate_params spec params)) /\
       List.NoDup (unknown_params (validate_params spec params)) /\
       (forall k,
          In k (unknown_params (validate_params spec params)) <->
          declared_names s <> [] /\ is_Some (params !! k) /\
          ~ In k (declared_names s)) /\
       (declared_names s = [] ->
        unknown_params (validate_params spec params) = [])).
Proof.
  intros spec params. split; [|split].
  - destruct spec as [s|]; [|cbn; tauto].
    cbn [validate_params ok missing_required].
    destruct (sort_by String.leb _); split; congruence.
  - now intros ->.
  - intros s ->.
    destruct (sorted_filter_elements (dom params)
                (fun k => negb (bool_decide
                                  ((list_to_set (declared_names s) : gset string) = ∅))
                          && negb (bool_decide
                                     (k ∈ (list_to_set (declared_names s) : gset string)))))
      as [Hs Hn].
    split; [exact Hs|]. split; [exact Hn|].
    split; [intros k; apply unknown_params_spec|].
    intros Hnil.
    destruct (unknown_params (validate_params (Some s) params)) as [|k l] eqn:E;
      [reflexivity|].
    assert (Hk : In k (unknown_params (validate_params (Some s) params)))
      by (rewrite E; now left).
    apply unknown_params_spec in Hk. tauto.
Qed.

(** The spec and the call of the documentation's validation example. *)
Definition example_spec : Endpoint :=
  {| title := Some "基础信息"; description := None; aliases := None;
     input := Some {| required := Some ["ts_code"];
                      properties := Some [("ts_code", JObj [("type", JStr "string")]);
                                          ("start_date", JObj [("type", JStr "string")])] |};
     output := None |}.

Definition example_params : gmap string value :=
  <["ts_code" := JStr "x"]> {[ "bogus" := JStr "y" ]}.

Lemma validate_params_result_witness :
  In "bogus" (unknown_params (validate_params (Some example_spec) example_params)) /\
  ok (validate_params (Some example_spec) example_params) = true.
Proof.
  destruct (validate_params_result (Some example_spec) example_params)
    as (Hok & _ & Hs).
  destruct (Hs example_spec eq_refl) as (_ & _ & Hk & _).
  split.
  - apply Hk. split; [discriminate|]. split.
    + exists (JStr "y"). reflexivity.
    + intros [H|[H|[]]]; discriminate.
  - apply Hok. reflexivity.
Defined.

Lemma is_missing_spec (params : gmap string value) (k : string) :
  is_missing params k = true <->
  params !! k = None \/ params !! k = Some JNull \/
  params !! k = Some (JStr "").
Proof.
  unfold is_missing.
  destruct (params !! k) as [v|] eqn:Hk.
  - assert (Hd : bool_decide (k ∈ dom params) = true).
    { apply bool_decide_eq_true, elem_of_dom. now exists v. }
    rewrite Hd. cbn.
    destruct v as [| | | |s| |]; cbn; try (split; [discriminate|]);
      try (intros [H|[H|H]]; discriminate).
    + tauto.
    + destruct (String.eqb_spec s ""); [subst; tauto|].
      split; [discriminate|]. intros [H|[H|H]]; congruence.
  - assert (Hd : bool_decide (k ∈ dom params) = false).
    { apply bool_decide_eq_false. rewrite elem_of_dom, Hk.
      now intros [v Hv]. }
    rewrite Hd. cbn. tauto.
Qed.

(** C10. A required name is reported missing exactly when the call does not
    supply it or supplies [None] or the empty string; any other value, such
    as 0, [False] or an empty list, counts as supplied. *)
Theorem missing_required_only_absent_null_or_empty :
  forall (s : Endpoint) (params : gmap string value) (k : string),
    (In k (missing_required (validate_params (Some s) params)) <->
     In k (required_names s) /\
     (params !! k = None \/ params !! k = Some JNull \/
      params !! k = Some (JStr ""))) /\
    (forall v, params !! k = Some v -> v <> JNull -> v <> JStr "" ->
               ~ In k (missing_required (validate_params (Some s) params))).
Proof.
  intros s params k.
  assert (H : In k (missing_required (validate_params (Some s) params)) <->
              In k (required_names s) /\
              (params !! k = None \/ params !! k = Some JNull \/
               params !! k = Some (JStr ""))).
  { rewrite missing_required_spec, is_missing_spec. reflexivity. }
  split; [exact H|].
  intros v Hv Hnull Hempty Hin. apply H in Hin.
  destruct Hin as [_ [Hk|[Hk|Hk]]]; congruence.
Qed.

Lemma missing_required_only_absent_null_or_empty_witness :
  ~ In "ts_code"
      (missing_required
         (validate_params (Some example_spec)
            (<["ts_code" := JInt 0]> (∅ : gmap string value)))) /\
  In "ts_code"
     (missing_required
        (validate_params (Some example_spec)
           (<["ts_code" := JStr ""]> (∅ : gmap string value)))).
Proof.
  split.
  - apply (proj2 (missing_required_only_absent_null_or_empty example_spec
                    (<["ts_code" := JInt 0]> ∅) "ts_code") (JInt 0));
      [reflexivity|discriminate|discriminate].
  - apply (proj1 (missing_required_only_absent_null_or_empty example_spec
                    (<["ts_code" := JStr ""]> ∅) "ts_code")).
    split; [now left|]. right. right. reflexivity.
Defined.





(** *** Search: the loop as a filter and a score *)

Definition matches (kw : string) (entry : string * Endpoint) : bool :=
  contains kw (_normalize (haystack (fst entry) (snd entry))).

Definition bonus (hit : bool) (points : Z) : Z := if hit then points else 0.

Definition score_of (kw : string) (entry : string * Endpoint) : Z :=
  1 + bonus (contains kw (_normalize (fst entry))) 10
    + bonus (contains kw (_normalize (default "" (title (snd entry))))) 5
    + bonus (contains kw (_normalize (default "" (description (snd entry))))) 3.

Definition matching_scored (kw : string) (items : list (string * Endpoint))
  : list (Z * Endpoint) :=
  map (fun entry => (score_of kw entry, snd entry))
      (List.filter (matches kw) items).


Lemma score_entry_spec (kw : string) (entry : string * Endpoint) :
  score_entry kw entry =
  if matches kw entry then Some (score_of kw entry, snd entry) else None.
Proof.
  destruct entry as [api_name spec]. unfold score_entry, matches, score_of.
  cbn [fst snd].
  destruct (contains kw (_normalize (haystack api_name spec)));
    [|reflexivity].
  cbn [negb].
  destruct (contains kw (_normalize api_name)),
    (contains kw (_normalize (default "" (title spec)))),
    (contains kw (_normalize (default "" (description spec))));
    reflexivity.
Qed.

Lemma scored_spec (kw : string) (items : list (string * Endpoint)) :
  scored kw items = matching_scored kw items.
Proof.
  unfold matching_scored.
  induction items as [|entry items IH]; [reflexivity|].
  cbn [scored List.filter]. rewrite score_entry_spec.
  destruct (matches kw entry); cbn [map]; now rewrite IH.
Qed.










(** The documentation's ranking example: the endpoint named by the keyword
    comes before one that only mentions it in its description, whatever
    their order in the catalog. *)
Definition daily_spec : Endpoint :=
  {| title := Some "日线行情";
     description := Some "codes come from stock_basic";
     aliases := None; input := None; output := None |}.

Definition example_store : SpecStore :=
  {| apis := [("daily", daily_spec); ("stock_basic", example_spec)];
     meta := [] |}.


Lemma search_example :
  search example_store "Stock_Basic " 10 = [example_spec; daily_spec] /\
  search example_store "stock_basic" 0 = [example_spec] /\
  search example_store "no such thing" 10 = [].
Proof. repeat split; reflexivity. Qed.


End SpecsFacts.

(** ** The scraper's heuristics *)

Module ScrapeFacts.
Import Py Scrape.

Lemma mem_str_In (s : string) (l : list string) :
  mem_str s l = true <-> In s l.
Proof.
  unfold mem_str. rewrite existsb_exists. split.
  - intros (x & Hx & Heq). apply String.eqb_eq in Heq. now subst.
  - intros H. exists s. split; [exact H|apply String.eqb_refl].
Qed.

Lemma mem_str_not_In (s : string) (l : list string) :
  ~ In s l -> mem_str s l = false.
Proof.
  intros H. destruct (mem_str s l) eqn:E; [|reflexivity].
  now apply mem_str_In in E.
Qed.

Lemma prefix_app (a b : string) :
  forall h, String.prefix (a ++ b) h = true -> String.prefix a h = true.
Proof.
  induction a as [|c a IH]; intros h H; [now destruct h|].
  destruct h as [|d h]; [discriminate|].
  change (String c a ++ b) with (String c (a ++ b)) in H. cbn in *.
  destruct (ascii_dec c d); [now apply IH|discriminate].
Qed.

Lemma contains_app (a b : string) :
  forall h, contains (a ++ b) h = true -> contains a h = true.
Proof.
  induction h as [|d h IH]; cbn [contains]; intros H;
    apply orb_true_iff in H; apply orb_true_iff.
  - destruct H as [H|H]; [left; now apply prefix_app with b|discriminate].
  - destruct H as [H|H]; [left; now apply prefix_app with b|right; now apply IH].
Qed.

(** The tokens with a type of their own. *)
Definition exact_tokens : list string :=
  ["str"; "string"; "text"; "varchar"; "int"; "integer"; "long";
   "float"; "double"; "number"; "decimal"; "bool"; "boolean"].

(** On the documentation's date example the token holds neither "date" nor
    "time": the result carries the token, not a format. *)
Lemma coerce_type_date_cell :
  _coerce_type (Some "YYYYMMDD格式的日期")
  = [("type", "string"); ("ts_type", "yyyymmdd格式的日期")] /\
  _coerce_type (Some "YYYYMMDD格式的日期")
  <> [("type", "string"); ("format", "date")].
Proof. split; [reflexivity|discriminate]. Qed.

(** C5, amended.  The token is trimmed and lower-cased; the exact tokens
    give their type, an empty token the bare string type, a token holding
    "date" or "time" a string with a format, any other token a string
    carrying the token as [ts_type].  ["字符串"] and ["YYYYMMDD格式的日期"]
    hold neither "date" nor "time" and are of the last kind. *)
Theorem coerce_type_mapping :
  forall (type_text : string),
    let t := lower (strip type_text) in
    let r := _coerce_type (Some type_text) in
    (t = "" -> r = [("type", "string")]) /\
    (In t ["str"; "string"; "text"; "varchar"] -> r = [("type", "string")]) /\
    (In t ["int"; "integer"; "long"] -> r = [("type", "integer")]) /\
    (In t ["float"; "double"; "number"; "decimal"] -> r = [("type", "number")]) /\
    (In t ["bool"; "boolean"] -> r = [("type", "boolean")]) /\
    (t <> "" -> ~ In t exact_tokens ->
     contains "date" t = true \/ contains "time" t = true ->
     r = [("type", "string");
          ("format", if contains "time" t then "date-time" else "date")]) /\
    (t <> "" -> ~ In t exact_tokens ->
     contains "date" t = false -> contains "time" t = false ->
     r = [("type", "string"); ("ts_type", t)]) /\
    _coerce_type None = [("type", "string")] /\
    _coerce_type (Some "字符串")
    = [("type", "string"); ("ts_type", "字符串")] /\
    _coerce_type (Some "YYYYMMDD格式的日期")
    = [("type", "string"); ("ts_type", "yyyymmdd格式的日期")] /\
    _coerce_type (Some "Integer") = [("type", "integer")] /\
    _coerce_type (Some "JSON") = [("type", "string"); ("ts_type", "json")].
Proof.
  intros type_text t r. subst r. unfold _coerce_type. cbn [default from_option id].
  fold t.
  assert (Hexact : forall l, In t l -> (forall x, In x l -> x <> "") ->
                             String.eqb t "" = false).
  { intros l Hin Hne. apply String.eqb_neq. now apply Hne. }
  repeat split.
  - intros ->. reflexivity.
  - intros H. rewrite (Hexact _ H) by (intros x [<-|[<-|[<-|[<-|[]]]]]; discriminate).
    apply mem_str_In in H. now rewrite H.
  - intros H. rewrite (Hexact _ H) by (intros x [<-|[<-|[<-|[]]]]; discriminate).
    rewrite mem_str_not_In
      by (intros [E|[E|[E|[E|[]]]]]; rewrite <- E in H;
          destruct H as [H|[H|[H|[]]]]; discriminate).
    apply mem_str_In in H. now rewrite H.
  - intros H.
    rewrite (Hexact _ H) by (intros x [<-|[<-|[<-|[<-|[]]]]]; discriminate).
    rewrite mem_str_not_In
      by (intros [E|[E|[E|[E|[]]]]]; rewrite <- E in H;
          destruct H as [H|[H|[H|[H|[]]]]]; discriminate).
    rewrite mem_str_not_In
      by (intros [E|[E|[E|[]]]]; rewrite <- E in H;
          destruct H as [H|[H|[H|[H|[]]]]]; discriminate).
    apply mem_str_In in H. now rewrite H.
  - intros H.
    rewrite (Hexact _ H) by (intros x [<-|[<-|[]]]; discriminate).
    rewrite mem_str_not_In
      by (intros [E|[E|[E|[E|[]]]]]; rewrite <- E in H;
          destruct H as [H|[H|[]]]; discriminate).
    rewrite mem_str_not_In
      by (intros [E|[E|[E|[]]]]; rewrite <- E in H;
          destruct H as [H|[H|[]]]; discriminate).
    rewrite mem_str_not_In
      by (intros [E|[E|[E|[E|[]]]]]; rewrite <- E in H;
          destruct H as [H|[H|[]]]; discriminate).
    apply mem_str_In in H. now rewrite H.
  - intros Hne Hnot Hdt. apply String.eqb_neq in Hne. rewrite Hne.
    rewrite !mem_str_not_In
      by (intros H; apply Hnot; unfold exact_tokens; cbn in *; tauto).
    destruct Hdt as [-> | ->]; [reflexivity|].
    now rewrite !orb_true_r.
  - intros Hne Hnot Hd Ht. apply String.eqb_neq in Hne. rewrite Hne.
    rewrite !mem_str_not_In
      by (intros H; apply Hnot; unfold exact_tokens; cbn in *; tauto).
    rewrite Hd, Ht.
    destruct (contains "datetime" t) eqn:E; [|reflexivity].
    apply (contains_app "date" "time") in E. congruence.
Qed.

Lemma coerce_type_mapping_witness :
  _coerce_type (Some " Trade_Date ")
  = [("type", "string"); ("format", "date")] /\
  _coerce_type (Some "VARCHAR") = [("type", "string")].
Proof.
  pose proof (coerce_type_mapping " Trade_Date ") as H1.
  pose proof (coerce_type_mapping "VARCHAR") as H2.
  cbv zeta in H1, H2.
  destruct H1 as (_ & _ & _ & _ & _ & Hdate & _).
  destruct H2 as (_ & Hstr & _).
  split.
  - apply Hdate.
    + discriminate.
    + vm_compute. intuition discriminate.
    + left. reflexivity.
  - apply Hstr. vm_compute. tauto.
Defined.

(** C6: the patterns as written never see a digit.  A phrase followed by a
    number and a unit, in either order, gives no row limit; only a text
    that spells a backslash and the letter d is matched, and [int] rejects
    what was captured. *)
Theorem extract_max_rows_misses_numbers :
  _extract_max_rows (Some "限量5000条") = Ok None /\
  _extract_max_rows (Some "单次最大 6000 行，每次返回 300 条") = Ok None /\
  _extract_max_rows (Some "5000条每次") = Ok None /\
  findall pattern_phrase_first "限量\d\条" = ["\d"] /\
  _extract_max_rows (Some "限量\d\条") = Raise ValueError.
Proof. repeat split; vm_compute; reflexivity. Qed.

(** *** No match without a backslash *)

Lemma strip_prefix_incl (lit : list string) :
  forall s rest, strip_prefix lit s = Some rest -> incl rest s.
Proof.
  induction lit as [|c lit IH]; intros s rest H; cbn in H.
  - injection H as <-. apply incl_refl.
  - destruct s as [|c' s]; [discriminate|].
    destruct (String.eqb c c'); [|discriminate].
    apply incl_tl. now apply IH.
Qed.

Lemma skipn_incl {A : Type} (k : nat) (s : list A) : incl (skipn k s) s.
Proof.
  intros x Hx. rewrite <- (firstn_skipn k s). apply in_or_app. now right.
Qed.

(** What is left after a match is a part of the text. *)
Lemma run_incl (r : regex) :
  forall cap s m, In m (run r cap s) -> incl (snd m) s.
Proof.
  induction r as [|p|lit|r1 IH1 r2 IH2|r1 IH1 r2 IH2|p lo hi|r IH];
    intros cap s m Hm; cbn [run] in Hm.
  - destruct Hm.
  - destruct s as [|c rest]; [destruct Hm|].
    destruct (charset_mem p c); [|destruct Hm].
    destruct Hm as [<-|[]]. apply incl_tl, incl_refl.
  - destruct (strip_prefix lit s) as [rest|] eqn:E; [|destruct Hm].
    destruct Hm as [<-|[]]. now apply strip_prefix_incl with lit.
  - apply in_flat_map in Hm. destruct Hm as (m1 & H1 & H2).
    eapply incl_tran; [exact (IH2 _ _ _ H2)|exact (IH1 _ _ _ H1)].
  - apply in_app_or in Hm. destruct Hm as [H|H]; eauto.
  - apply in_map_iff in Hm. destruct Hm as (rest & <- & H).
    unfold rep_rests in H. apply in_map_iff in H.
    destruct H as (k & <- & _). apply skipn_incl.
  - apply in_map_iff in Hm. destruct Hm as (m1 & <- & H1).
    exact (IH _ _ _ H1).
Qed.

Definition no_backslash (s : list string) : Prop := ~ In backslash s.

Lemma run_backslash_nil (cap : option string) (s : list string) :
  no_backslash s -> run (Chr (One backslash)) cap s = [].
Proof.
  intros H. destruct s as [|c rest]; [reflexivity|]. cbn.
  destruct (String.eqb_spec c backslash) as [->|_]; [|reflexivity].
  exfalso. apply H. now left.
Qed.

Lemma flat_map_nil {A B : Type} (f : A -> list B) (l : list A) :
  (forall x, In x l -> f x = []) -> flat_map f l = [].
Proof.
  induction l as [|x l IH]; intros H; [reflexivity|]. cbn.
  rewrite (H x) by now left. apply IH. intros y Hy. apply H. now right.
Qed.

Lemma run_cat_nil (r1 r2 : regex) (cap : option string) (s : list string) :
  (forall m, In m (run r1 cap s) -> run r2 (fst m) (snd m) = []) ->
  run (Cat r1 r2) cap s = [].
Proof. intros H. cbn [run]. now apply flat_map_nil. Qed.

Lemma run_group_nil (r : regex) (cap : option string) (s : list string) :
  run r cap s = [] -> run (Group r) cap s = [].
Proof. intros H. cbn [run]. now rewrite H. Qed.

(** A group that starts with a backslash has no match in a text without
    one. *)
Lemma run_backslash_group_nil (digits after : regex) (cap : option string)
    (s : list string) :
  no_backslash s ->
  run (Cat (Group (Cat (Chr (One backslash)) digits)) after) cap s = [].
Proof.
  intros H. apply run_cat_nil. intros m Hm.
  rewrite run_group_nil in Hm; [destruct Hm|].
  apply run_cat_nil. intros m' Hm'.
  rewrite run_backslash_nil in Hm' by exact H. destruct Hm'.
Qed.

Lemma findall_from_nil (r : regex) :
  (forall s, no_backslash s -> run r None s = []) ->
  forall s skip, no_backslash s -> findall_from r skip s = [].
Proof.
  intros Hr. induction s as [|c rest IH]; intros skip H; [reflexivity|].
  assert (Hrest : no_backslash rest) by (intros Hin; apply H; now right).
  cbn [findall_from]. destruct skip as [|k]; [|now apply IH].
  rewrite (Hr _ H). now apply IH.
Qed.

Lemma pattern_phrase_first_nil (s : list string) :
  no_backslash s -> run pattern_phrase_first None s = [].
Proof.
  intros H. unfold pattern_phrase_first.
  apply run_cat_nil. intros m1 H1. apply run_cat_nil. intros m2 H2.
  apply run_backslash_group_nil.
  intros Hin. apply H.
  apply (run_incl _ _ _ _ H1). exact (run_incl _ _ _ _ H2 _ Hin).
Qed.

Lemma pattern_number_first_nil (s : list string) :
  no_backslash s -> run pattern_number_first None s = [].
Proof. intros H. now apply run_backslash_group_nil. Qed.

(** No text without a backslash yields a row limit, whatever numbers and
    phrases it holds. *)
Lemma extract_max_rows_without_backslash (text : string) :
  no_backslash (chars text) -> _extract_max_rows (Some text) = Ok None.
Proof.
  intros H. unfold _extract_max_rows.
  destruct (String.eqb text ""); [reflexivity|].
  unfold patterns, findall. cbn [flat_map].
  rewrite (findall_from_nil _ pattern_phrase_first_nil _ _ H).
  rewrite (findall_from_nil _ pattern_number_first_nil _ _ H).
  reflexivity.
Qed.

End ScrapeFacts.

(** ** The logged-in heuristic *)

Module CaptureFacts.
Import Py Capture.

(** A read that raised, or that found nothing that counts as a signal. *)
Definition no_storage_signal (page : Page) : Prop :=
  match local_storage_keys page with
  | Ok keys => existsb storage_key_hit keys = false
  | Raise _ => True
  end.

Definition no_cookie_signal (page : Page) : Prop :=
  match cookie_names page with
  | Ok cookies => existsb cookie_hit cookies = false
  | Raise _ => True
  end.

(** When the URL cannot be read the heuristic answers true, even with
    nothing in storage or cookies, and even if those reads raise too. *)
Lemma looks_logged_in_url_error :
  _looks_logged_in {| url := Raise Error;
                      local_storage_keys := Ok [];
                      cookie_names := Ok [] |} = true /\
  _looks_logged_in {| url := Raise Error;
                      local_storage_keys := Raise Error;
                      cookie_names := Raise Error |} = true.
Proof. split; reflexivity. Qed.

(** C9, amended.  The heuristic never propagates an error.  On a page whose
    URL is read and contains "login", an error while reading local storage
    or the cookies counts as no signal there, and with no signal elsewhere
    the answer is false.  An error while reading the URL makes the URL
    empty, which does not contain "login": the answer is true. *)
Theorem looks_logged_in_errors :
  forall (page : Page),
    (forall u,
       url page = Ok (Some u) -> contains "login" u = true ->
       no_storage_signal page -> no_cookie_signal page ->
       _looks_logged_in page = false) /\
    (forall e, url page = Raise e -> _looks_logged_in page = true).
Proof.
  intros page. split.
  - intros u Hu Hlogin Hs Hc. unfold _looks_logged_in.
    rewrite Hu. cbn [mbind result_bind try_except from_option id].
    rewrite Hlogin. cbn [negb].
    unfold no_storage_signal in Hs. unfold no_cookie_signal in Hc.
    destruct (local_storage_keys page) as [keys|e];
      cbn [mbind result_bind try_except]; [rewrite Hs|];
      (destruct (cookie_names page) as [cookies|e'];
       cbn [mbind result_bind try_except]; [now rewrite Hc|reflexivity]).
  - intros e He. unfold _looks_logged_in. rewrite He. reflexivity.
Qed.

Lemma looks_logged_in_errors_witness :
  _looks_logged_in
    {| url := Ok (Some "https://tushare.pro/weborder/#/login");
       local_storage_keys := Raise Error;
       cookie_names := Ok [Some "lang"; None] |} = false /\
  _looks_logged_in
    {| url := Raise Error;
       local_storage_keys := Ok ["theme"];
       cookie_names := Raise Error |} = true.
Proof.
  split.
  - apply (proj1 (looks_logged_in_errors _)
             "https://tushare.pro/weborder/#/login"); reflexivity || exact I.
  - apply (proj2 (looks_logged_in_errors _) Error). reflexivity.
Defined.

End CaptureFacts.

(** ** Dicts *)

Module DictFacts.
Import Py Specs.

Lemma assoc_dict_set_eq {A : Type} (k : string) (v : A)
    (items : list (string * A)) :
  assoc k (dict_set k v items) = Some v.
Proof.
  induction items as [|[k' v'] items IH]; cbn [dict_set assoc].
  - now rewrite String.eqb_refl.
  - destruct (String.eqb k k') eqn:E; cbn [assoc]; rewrite ?String.eqb_refl;
      [reflexivity|]. now rewrite E.
Qed.

Lemma assoc_dict_set_ne {A : Type} (k k0 : string) (v : A)
    (items : list (string * A)) :
  k0 <> k -> assoc k0 (dict_set k v items) = assoc k0 items.
Proof.
  intros Hne. apply String.eqb_neq in Hne.
  induction items as [|[k' v'] items IH]; cbn [dict_set assoc].
  - now rewrite Hne.
  - destruct (String.eqb_spec k k') as [<-|Hk]; cbn [assoc].
    + now rewrite Hne.
    + now rewrite IH.
Qed.

Lemma dict_set_keys {A : Type} (k k0 : string) (v : A)
    (items : list (string * A)) :
  In k0 (map fst (dict_set k v items)) <-> k0 = k \/ In k0 (map fst items).
Proof.
  induction items as [|[k' v'] items IH]; cbn [dict_set map fst In].
  - intuition.
  - destruct (String.eqb_spec k k') as [<-|Hk]; cbn [map fst In].
    + intuition.
    + rewrite IH. intuition.
Qed.

Lemma dict_set_NoDup {A : Type} (k : string) (v : A)
    (items : list (string * A)) :
  List.NoDup (map fst items) -> List.NoDup (map fst (dict_set k v items)).
Proof.
  induction items as [|[k' v'] items IH]; cbn [dict_set map fst]; intros H.
  - constructor; [intros []|constructor].
  - destruct (String.eqb_spec k k') as [<-|Hk]; cbn [map fst]; [exact H|].
    inversion H as [|? ? Hnotin Hnd]; subst. constructor; [|now apply IH].
    rewrite dict_set_keys. intros [->|Hin]; [now apply Hk|now apply Hnotin].
Qed.

Lemma dict_set_values {A : Type} (P : A -> Prop) (k : string) (v : A)
    (items : list (string * A)) :
  P v -> Forall (fun kv => P (snd kv)) items ->
  Forall (fun kv => P (snd kv)) (dict_set k v items).
Proof.
  intros Hv. induction 1 as [|[k' v'] items Hx Hrest IH]; cbn [dict_set].
  - constructor; [exact Hv|constructor].
  - destruct (String.eqb k k'); constructor; assumption.
Qed.

Lemma assoc_In {A : Type} (k : string) (v : A) (items : list (string * A)) :
  assoc k items = Some v -> In (k, v) items.
Proof.
  induction items as [|[k' v'] items IH]; cbn [assoc]; [discriminate|].
  destruct (String.eqb_spec k k') as [<-|Hk].
  - intros H. injection H as ->. now left.
  - intros H. right. now apply IH.
Qed.

Lemma assoc_is_Some {A : Type} (k : string) (items : list (string * A)) :
  is_Some (assoc k items) <-> In k (map fst items).
Proof.
  induction items as [|[k' v'] items IH]; cbn [assoc map fst In].
  - split; [intros [? H]; discriminate|intros []].
  - destruct (String.eqb_spec k k') as [<-|Hk].
    + split; [now left|now eexists].
    + rewrite IH. split; [now right|]. intros [Heq|H]; [congruence|exact H].
Qed.

End DictFacts.

(** ** config.py: which entry of the limits file is used *)

Module ConfigCases.
Import Py Config SortFacts ConfigFacts.

(** Whether a keyed tier qualifies for [points]. *)
Definition qualifies (points : Z) (kt : Z * value) : bool := fst kt <=? points.

Definition has_key (m : Z) (kt : Z * value) : bool := fst kt =? m.

Lemma resolve_with_keyed (fs : gmap string (result value))
    (max_rows_env min_interval_env points_env : option string)
    (path : string) (items : list (string * value)) (tiers : list value)
    (keyed : list (Z * value)) (points dmr : Z) (dmi : float) :
  _parse_int max_rows_env = None \/ _parse_float min_interval_env = None ->
  path <> "" ->
  fs !! path = Some (Ok (JObj items)) ->
  assoc "tiers" items = Some (JArr tiers) ->
  _parse_int points_env = Some points ->
  sort_keys tiers = Ok keyed ->
  resolve_rate_limits fs max_rows_env min_interval_env points_env
    (Some path) dmr dmi =
  match chosen (select_tier points None
                  (map snd (sort_by key_leb keyed))) with
  | Some selected => config_of selected path dmr dmi
  | None =>
      match assoc "default" items with
      | Some dflt =>
          if truthy dflt then config_of dflt path dmr dmi
          else Ok (env_or_default (_parse_int max_rows_env)
                     (_parse_float min_interval_env) dmr dmi)
      | None => Ok (env_or_default (_parse_int max_rows_env)
                      (_parse_float min_interval_env) dmr dmi)
      end
  end.
Proof.
  intros Henv Hpath Hfs Htiers Hpoints Hk.
  assert (Hload : _load_limits fs (Some path) = Ok (Some (JObj items))).
  { unfold _load_limits. apply String.eqb_neq in Hpath. rewrite Hpath, Hfs.
    reflexivity. }
  assert (Htruthy : truthy (JObj items) = true).
  { destruct items; [discriminate|reflexivity]. }
  assert (Hsorted : sorted_tiers (or_else (JArr tiers) (JArr [])) =
                    Ok (map snd (sort_by key_leb keyed))).
  { assert (Hor : or_else (JArr tiers) (JArr []) = JArr tiers)
      by (unfold or_else; now destruct tiers).
    rewrite Hor. unfold sorted_tiers. cbn [iterate mbind result_bind].
    rewrite Hk. reflexivity. }
  assert (Hdflt :
    (dflt ← get (JObj items) "default";
     let dflt := or_else dflt (JObj []) in
     if truthy dflt then config_of dflt path dmr dmi
     else Ok (env_or_default (_parse_int max_rows_env)
                (_parse_float min_interval_env) dmr dmi)) =
    match assoc "default" items with
    | Some dflt =>
        if truthy dflt then config_of dflt path dmr dmi
        else Ok (env_or_default (_parse_int max_rows_env)
                   (_parse_float min_interval_env) dmr dmi)
    | None => Ok (env_or_default (_parse_int max_rows_env)
                    (_parse_float min_interval_env) dmr dmi)
    end).
  { cbn [get mbind result_bind]. destruct (assoc "default" items) as [d|];
      cbn [from_option id]; unfold or_else.
    - destruct (truthy d) eqn:Hd; [now rewrite Hd|reflexivity].
    - reflexivity. }
  rewrite <- Hdflt.
  unfold resolve_rate_limits. rewrite Hload, Hpoints.
  cbn [mbind result_bind]. rewrite Htruthy.
  cbn [get]. rewrite Htiers. cbn [from_option id mbind result_bind].
  rewrite Hsorted. cbn [mbind result_bind].
  destruct Henv as [-> | Hmi].
  - reflexivity.
  - rewrite Hmi. destruct (_parse_int max_rows_env); reflexivity.
Qed.

(** The loop ends on the last tier that qualifies. *)
Lemma select_tier_last (points : Z) (keyed : list (Z * value)) :
  Forall (fun kt => tier_min_points (snd kt) = Ok (fst kt)) keyed ->
  forall selected,
    select_tier points selected (map snd keyed) =
    match last (List.filter (qualifies points) keyed) with
    | Some kt => Some (snd kt)
    | None => selected
    end.
Proof.
  induction 1 as [|[k t] keyed Hkt _ IH]; intros selected; [reflexivity|].
  cbn [map snd select_tier List.filter]. simpl in Hkt. rewrite Hkt.
  unfold qualifies at 1. cbn [fst].
  destruct (k <=? points).
  - rewrite IH, last_cons.
    now destruct (last (List.filter (qualifies points) keyed)).
  - apply IH.
Qed.

Lemma filter_filter_andb {A : Type} (p q : A -> bool) (l : list A) :
  List.filter p (List.filter q l) = List.filter (fun x => p x && q x) l.
Proof.
  induction l as [|x l IH]; [reflexivity|]. cbn [List.filter].
  destruct (q x); cbn [List.filter]; rewrite ?andb_true_r, ?andb_false_r;
    [destruct (p x)|]; now rewrite IH.
Qed.

Lemma last_filter {A : Type} (p : A -> bool) (l : list A) (x : A) :
  last l = Some x -> p x = true -> last (List.filter p l) = Some x.
Proof.
  intros Hl Hp. apply last_Some in Hl as [l' ->].
  rewrite List.filter_app. cbn [List.filter]. rewrite Hp. apply last_snoc.
Qed.

Lemma sorted_last_greatest (l : list (Z * value)) (x : Z * value) :
  StronglySorted (le key_leb) l -> last l = Some x ->
  Forall (fun y => fst y <= fst x) l.
Proof.
  induction 1 as [|y l Hs IH Hy]; intros Hl; [constructor|].
  rewrite last_cons in Hl. destruct (last l) as [z|] eqn:Hz.
  - injection Hl as ->. specialize (IH eq_refl). constructor; [|exact IH].
    apply last_Some in Hz as [l' ->].
    rewrite List.Forall_forall in Hy. specialize (Hy x).
    unfold le, key_leb in Hy.
    assert (Hin : In x (l' ++ [x])) by (apply in_or_app; right; now left).
    specialize (Hy Hin). lia.
  - injection Hl as ->. apply last_None in Hz. subst l.
    constructor; [lia|constructor].
Qed.

Lemma sorted_filter {A : Type} (R : A -> A -> Prop) (p : A -> bool)
    (l : list A) :
  StronglySorted R l -> StronglySorted R (List.filter p l).
Proof.
  induction 1 as [|x l Hs IH Hx]; [constructor|]. cbn [List.filter].
  destruct (p x); [|exact IH]. constructor; [exact IH|].
  rewrite List.Forall_forall in *. intros y Hy. apply Hx.
  now apply filter_In in Hy.
Qed.

(** The qualifying tier that the sorted list ends on: of the greatest
    qualifying key, and among those the last in the file's order. *)
Lemma last_qualifying_sorted (points m : Z) (t : value)
    (kb ka : list (Z * value)) :
  m <= points ->
  Forall (fun kt => fst kt <= points -> fst kt <= m) kb ->
  Forall (fun kt => fst kt <= points -> fst kt < m) ka ->
  last (List.filter (qualifies points) (sort_by key_leb (kb ++ (m, t) :: ka)))
  = Some (m, t).
Proof.
  intros Hm Hb Ha.
  set (keyed := (kb ++ (m, t) :: ka)%list).
  set (F := List.filter (qualifies points) (sort_by key_leb keyed)).
  assert (HinF : In (m, t) F).
  { apply filter_In. split.
    - apply sort_by_In. apply in_or_app. right. now left.
    - unfold qualifies. cbn. lia. }
  destruct (last F) as [x|] eqn:Hlast;
    [|apply last_None in Hlast; rewrite Hlast in HinF; destruct HinF].
  assert (HxF : In x F).
  { apply last_Some in Hlast as [l' ->]. apply in_or_app. right. now left. }
  apply filter_In in HxF as [Hxs Hxq]. apply sort_by_In in Hxs.
  unfold qualifies in Hxq.
  assert (Hge : m <= fst x).
  { assert (Hs : StronglySorted (le key_leb) F).
    { apply sorted_filter.
      apply (sort_by_sorted key_leb key_leb_total key_leb_trans). }
    pose proof (sorted_last_greatest F x Hs Hlast) as Hall.
    rewrite List.Forall_forall in Hall. exact (Hall _ HinF). }
  assert (Hle : fst x <= m).
  { unfold keyed in Hxs. apply in_app_or in Hxs as [Hin|[<-|Hin]].
    - rewrite List.Forall_forall in Hb. apply (Hb _ Hin). lia.
    - cbn. lia.
    - rewrite List.Forall_forall in Ha. specialize (Ha _ Hin). lia. }
  assert (Hkey : has_key m x = true) by (unfold has_key; lia).
  pose proof (last_filter (has_key m) F x Hlast Hkey) as Hl.
  unfold F in Hl. rewrite filter_filter_andb in Hl.
  rewrite sort_by_stable in Hl
    by (unfold has_key, qualifies, key_leb; intros; lia).
  unfold keyed in Hl. rewrite List.filter_app in Hl. cbn [List.filter] in Hl.
  replace (has_key m (m, t) && qualifies points (m, t)) with true in Hl
    by (unfold has_key, qualifies; cbn; lia).
  replace (List.filter (fun x => has_key m x && qualifies points x) ka)
    with (@nil (Z * value)) in Hl.
  - rewrite last_snoc in Hl. now injection Hl as <-.
  - symmetry. clear -Ha. induction Ha as [|y ka Hy _ IH]; [reflexivity|].
    cbn [List.filter]. rewrite <- IH.
    replace (has_key m y && qualifies points y) with false; [reflexivity|].
    unfold has_key, qualifies. lia.
Qed.


Lemma keyed_split (before after : list value) (tier : value)
    (keyed : list (Z * value)) :
  map snd keyed = (before ++ tier :: after)%list ->
  exists kb k ka,
    keyed = (kb ++ (k, tier) :: ka)%list /\
    map snd kb = before /\ map snd ka = after.
Proof.
  intros H. apply map_eq_app in H as (kb & rest & -> & Hb & Hrest).
  apply map_eq_cons in Hrest as ([k t] & ka & -> & Ht & Ha).
  cbn in Ht. subst t. now exists kb, k, ka.
Qed.

Lemma keyed_bound (P : Z -> Prop) (tiers : list value)
    (keyed : list (Z * value)) :
  map snd keyed = tiers ->
  Forall (fun kt => tier_min_points (snd kt) = Ok (fst kt)) keyed ->
  Forall (fun t => exists k, tier_has_min_points t k /\ P k) tiers ->
  Forall (fun kt => P (fst kt)) keyed.
Proof.
  intros <- Hc Hp. rewrite List.Forall_forall in *. intros kt Hin.
  destruct (Hp (snd kt)) as (k & Hk & HP); [now apply in_map|].
  apply tier_has_min_points_spec in Hk as [Hk _].
  rewrite (Hc kt Hin) in Hk. now injection Hk as ->.
Qed.

Lemma resolve_last_of_greatest :
  forall (fs : gmap string (result value))
    (max_rows_env min_interval_env points_env : option string)
    (path : string) (items : list (string * value))
    (before after : list value) (tier : value)
    (m points dmr : Z) (dmi : float),
    (_parse_int max_rows_env = None \/ _parse_float min_interval_env = None) ->
    path <> "" ->
    fs !! path = Some (Ok (JObj items)) ->
    assoc "tiers" items = Some (JArr (before ++ tier :: after)) ->
    _parse_int points_env = Some points ->
    tier_has_min_points tier m ->
    m <= points ->
    Forall (fun t => exists k,
              tier_has_min_points t k /\ (k <= points -> k <= m)) before ->
    Forall (fun t => exists k,
              tier_has_min_points t k /\ (k <= points -> k < m)) after ->
    resolve_rate_limits fs max_rows_env min_interval_env points_env
      (Some path) dmr dmi
    = config_of tier path dmr dmi.
Proof.
  intros fs mre mie pe path items before after tier m points dmr dmi
    Henv Hpath Hfs Htiers Hpoints Htier Hm Hb Ha.
  destruct (sort_keys_ok (before ++ tier :: after)) as (keyed & Hk & Hs & Hc).
  { apply Forall_app. split; [|constructor].
    - eapply List.Forall_impl; [|exact Hb]. intros t (k & Hk & _).
      exists k. now apply tier_has_min_points_spec.
    - exists m. now apply tier_has_min_points_spec.
    - eapply List.Forall_impl; [|exact Ha]. intros t (k & Hk & _).
      exists k. now apply tier_has_min_points_spec. }
  rewrite (resolve_with_keyed fs mre mie pe path items _ keyed points dmr dmi
             Henv Hpath Hfs Htiers Hpoints Hk).
  destruct (keyed_split _ _ _ _ Hs) as (kb & k & ka & -> & Hkb & Hka).
  apply Forall_app in Hc as [Hcb Hc]. inversion Hc as [|? ? Hct Hca]; subst.
  cbn in Hct. destruct (tier_has_min_points_spec _ _ Htier) as [Hmt Htruthy].
  rewrite Hmt in Hct. injection Hct as <-.
  rewrite select_tier_last.
  2:{ rewrite List.Forall_forall. intros kt Hin. apply sort_by_In in Hin.
      apply in_app_or in Hin as [Hin|[<-|Hin]].
      - rewrite List.Forall_forall in Hcb. now apply Hcb.
      - exact Hmt.
      - rewrite List.Forall_forall in Hca. now apply Hca. }
  rewrite (last_qualifying_sorted points m tier kb ka Hm).
  - cbn [snd chosen]. now rewrite Htruthy.
  - apply (keyed_bound (fun k => k <= points -> k <= m) (map snd kb));
      [reflexivity|exact Hcb|exact Hb].
  - apply (keyed_bound (fun k => k <= points -> k < m) (map snd ka));
      [reflexivity|exact Hca|exact Ha].
Qed.

(** X1. Among the tiers of the greatest [min_points] not above the points,
    the one listed last in the file is used. *)
Theorem resolve_rate_limits_tie_goes_to_last_listed :
  forall (fs : gmap string (result value))
    (max_rows_env min_interval_env points_env : option string)
    (path : string) (items : list (string * value))
    (before after : list value) (tier : value)
    (m points dmr : Z) (dmi : float),
    (_parse_int max_rows_env = None \/ _parse_float min_interval_env = None) ->
    path <> "" ->
    fs !! path = Some (Ok (JObj items)) ->
    assoc "tiers" items = Some (JArr (before ++ tier :: after)) ->
    _parse_int points_env = Some points ->
    tier_has_min_points tier m ->
    m <= points ->
    Forall (fun t => exists k,
              tier_has_min_points t k /\ (k <= points -> k <= m)) before ->
    Forall (fun t => exists k,
              tier_has_min_points t k /\ (k <= points -> k < m)) after ->
    resolve_rate_limits fs max_rows_env min_interval_env points_env
      (Some path) dmr dmi
    = config_of tier path dmr dmi.
Proof. exact resolve_last_of_greatest. Qed.

(** Two tiers of 2000 points, listed one after the other. *)
Definition tied_tiers : list value :=
  [ JObj [("min_points", JInt 0); ("max_rows", JInt 100)];
    JObj [("min_points", JInt 2000); ("max_rows", JInt 1000)];
    JObj [("min_points", JInt 2000); ("max_rows", JInt 3000)];
    JObj [("min_points", JInt 5000); ("max_rows", JInt 5000)] ].

Lemma resolve_rate_limits_tie_goes_to_last_listed_witness :
  resolve_rate_limits
    {[ "limits.json" := Ok (JObj [("tiers", JArr tied_tiers)]) ]}
    None None (Some "3000") (Some "limits.json") 500 (FFinite (35 # 100))
  = Ok {| max_rows := Some 3000; min_interval_seconds := FFinite (35 # 100);
          source := "limits:limits.json" |}.
Proof.
  apply (resolve_rate_limits_tie_goes_to_last_listed
           {[ "limits.json" := Ok (JObj [("tiers", JArr tied_tiers)]) ]}
           None None (Some "3000") "limits.json"
           [("tiers", JArr tied_tiers)]
           [ JObj [("min_points", JInt 0); ("max_rows", JInt 100)];
             JObj [("min_points", JInt 2000); ("max_rows", JInt 1000)] ]
           [ JObj [("min_points", JInt 5000); ("max_rows", JInt 5000)] ]
           (JObj [("min_points", JInt 2000); ("max_rows", JInt 3000)])
           2000 3000 500 (FFinite (35 # 100))).
  - left. reflexivity.
  - discriminate.
  - reflexivity.
  - reflexivity.
  - reflexivity.
  - eexists _, _. repeat split; reflexivity.
  - lia.
  - repeat constructor.
    + exists 0. split; [eexists _, _; repeat split; reflexivity|lia].
    + exists 2000. split; [eexists _, _; repeat split; reflexivity|lia].
  - repeat constructor.
    exists 5000. split; [eexists _, _; repeat split; reflexivity|lia].
Defined.

Lemma resolve_none_qualifying :
  forall (fs : gmap string (result value))
    (max_rows_env min_interval_env points_env : option string)
    (path : string) (items : list (string * value)) (tiers : list value)
    (points dmr : Z) (dmi : float),
    (_parse_int max_rows_env = None \/ _parse_float min_interval_env = None) ->
    path <> "" ->
    fs !! path = Some (Ok (JObj items)) ->
    assoc "tiers" items = Some (JArr tiers) ->
    _parse_int points_env = Some points ->
    Forall (fun t => exists k, tier_has_min_points t k /\ points < k) tiers ->
    resolve_rate_limits fs max_rows_env min_interval_env points_env
      (Some path) dmr dmi
    = match assoc "default" items with
      | Some dflt =>
          if truthy dflt then config_of dflt path dmr dmi
          else Ok (env_or_default (_parse_int max_rows_env)
                     (_parse_float min_interval_env) dmr dmi)
      | None => Ok (env_or_default (_parse_int max_rows_env)
                      (_parse_float min_interval_env) dmr dmi)
      end.
Proof.
  intros fs mre mie pe path items tiers points dmr dmi
    Henv Hpath Hfs Htiers Hpoints Hall.
  destruct (sort_keys_ok tiers) as (keyed & Hk & Hs & Hc).
  { eapply List.Forall_impl; [|exact Hall]. intros t (k & Hk & _).
    exists k. now apply tier_has_min_points_spec. }
  rewrite (resolve_with_keyed fs mre mie pe path items _ keyed points dmr dmi
             Henv Hpath Hfs Htiers Hpoints Hk).
  pose proof (keyed_bound (fun k => points < k) tiers keyed Hs Hc Hall) as Hgt.
  rewrite select_tier_last.
  2:{ rewrite List.Forall_forall in *. intros kt Hin.
      apply sort_by_In in Hin. now apply Hc. }
  replace (List.filter (qualifies points) (sort_by key_leb keyed))
    with (@nil (Z * value)); [reflexivity|].
  symmetry. rewrite <- (List.filter_false (sort_by key_leb keyed)).
  apply List.filter_ext_in. intros kt Hin. apply sort_by_In in Hin.
  rewrite List.Forall_forall in Hgt. specialize (Hgt kt Hin).
  unfold qualifies. lia.
Qed.

(** X2. When every tier asks for more points than the caller has, the
    file's [default] object is used if it is a non-empty object, and the
    environment and the built-in defaults otherwise. *)
Theorem resolve_rate_limits_no_tier_qualifies :
  forall (fs : gmap string (result value))
    (max_rows_env min_interval_env points_env : option string)
    (path : string) (items : list (string * value)) (tiers : list value)
    (points dmr : Z) (dmi : float),
    (_parse_int max_rows_env = None \/ _parse_float min_interval_env = None) ->
    path <> "" ->
    fs !! path = Some (Ok (JObj items)) ->
    assoc "tiers" items = Some (JArr tiers) ->
    _parse_int points_env = Some points ->
    Forall (fun t => exists k, tier_has_min_points t k /\ points < k) tiers ->
    resolve_rate_limits fs max_rows_env min_interval_env points_env
      (Some path) dmr dmi
    = match assoc "default" items with
      | Some dflt =>
          if truthy dflt then config_of dflt path dmr dmi
          else Ok (env_or_default (_parse_int max_rows_env)
                     (_parse_float min_interval_env) dmr dmi)
      | None => Ok (env_or_default (_parse_int max_rows_env)
                      (_parse_float min_interval_env) dmr dmi)
      end.
Proof. exact resolve_none_qualifying. Qed.

Lemma resolve_rate_limits_no_tier_qualifies_witness :
  resolve_rate_limits
    {[ "limits.json" :=
         Ok (JObj [("tiers", JArr tied_tiers);
                   ("default", JObj [("max_rows", JNull)])]) ]}
    (Some "200") None (Some "-5") (Some "limits.json") 500 (FFinite (35 # 100))
  = Ok {| max_rows := None; min_interval_seconds := FFinite (35 # 100);
          source := "limits:limits.json" |}.
Proof.
  apply (resolve_rate_limits_no_tier_qualifies
           {[ "limits.json" :=
                Ok (JObj [("tiers", JArr tied_tiers);
                          ("default", JObj [("max_rows", JNull)])]) ]}
           (Some "200") None (Some "-5") "limits.json"
           [("tiers", JArr tied_tiers);
            ("default", JObj [("max_rows", JNull)])]
           tied_tiers (-5) 500 (FFinite (35 # 100))).
  - right. reflexivity.
  - discriminate.
  - reflexivity.
  - reflexivity.
  - reflexivity.
  - repeat constructor.
    + exists 0. split; [eexists _, _; repeat split; reflexivity|lia].
    + exists 2000. split; [eexists _, _; repeat split; reflexivity|lia].
    + exists 2000. split; [eexists _, _; repeat split; reflexivity|lia].
    + exists 5000. split; [eexists _, _; repeat split; reflexivity|lia].
Defined.


(** The resolver past its first return. *)
Lemma resolve_not_explicit (fs : gmap string (result value))
    (max_rows_env min_interval_env points_env limits_path : option string)
    (dmr : Z) (dmi : float) :
  _parse_int max_rows_env = None \/ _parse_float min_interval_env = None ->
  resolve_rate_limits fs max_rows_env min_interval_env points_env
    limits_path dmr dmi
  = (limits ← _load_limits fs limits_path;
     let fallback :=
       Ok (env_or_default (_parse_int max_rows_env)
             (_parse_float min_interval_env) dmr dmi) in
     match limits, _parse_int points_env with
     | Some limits, Some points =>
         if truthy limits then
           let path := default "None" limits_path in
           tiers ← get limits "tiers";
           tiers ← sorted_tiers (or_else tiers (JArr []));
           match chosen (select_tier points None tiers) with
           | Some selected => config_of selected path dmr dmi
           | None =>
               dflt ← get limits "default";
               let dflt := or_else dflt (JObj []) in
               if truthy dflt then config_of dflt path dmr dmi
               else fallback
           end
         else fallback
     | _, _ => fallback
     end).
Proof.
  unfold resolve_rate_limits. intros [-> | ->]; [reflexivity|].
  destruct (_parse_int max_rows_env); reflexivity.
Qed.

Lemma load_limits_some (fs : gmap string (result value))
    (limits_path : option string) (limits : value) :
  _load_limits fs limits_path = Ok (Some limits) ->
  exists p, limits_path = Some p /\ p <> "" /\ fs !! p = Some (Ok limits).
Proof.
  unfold _load_limits. destruct limits_path as [p|]; [|discriminate].
  destruct (String.eqb_spec p ""); [discriminate|].
  destruct (fs !! p) as [[v|e]|] eqn:Hfs; try discriminate.
  cbn. intros H. injection H as ->. now exists p.
Qed.

Lemma config_of_source (entry : value) (path : string) (dmr : Z) (dmi : float)
    (cfg : RateLimitConfig) :
  config_of entry path dmr dmi = Ok cfg -> source cfg = "limits:" ++ path.
Proof.
  unfold config_of.
  destruct (get_default entry "max_rows" (JInt dmr)) as [v|]; [|discriminate].
  cbn [mbind result_bind].
  destruct (none_or_int v) as [mr|]; [|discriminate].
  cbn [mbind result_bind].
  destruct (get_default entry "min_interval_seconds" (JFloat dmi)) as [w|];
    [|discriminate].
  cbn [mbind result_bind].
  destruct (float_of w) as [f|]; [|discriminate].
  cbn [mbind result_bind]. intros H. now injection H as <-.
Qed.

Lemma env_or_default_rows (mr : option Z) (mi : option float) (dmr : Z)
    (dmi : float) :
  max_rows (env_or_default mr mi dmr dmi) = Some (default dmr mr) /\
  source (env_or_default mr mi dmr dmi)
  = match mr, mi with None, None => "default" | _, _ => "env:partial" end.
Proof. destruct mr, mi; split; reflexivity. Qed.

Lemma resolve_rest (fs : gmap string (result value))
    (max_rows_env min_interval_env points_env limits_path : option string)
    (dmr : Z) (dmi : float) (cfg : RateLimitConfig) :
  _parse_int max_rows_env = None \/ _parse_float min_interval_env = None ->
  resolve_rate_limits fs max_rows_env min_interval_env points_env
    limits_path dmr dmi = Ok cfg ->
  (exists p limits points,
     limits_path = Some p /\ p <> "" /\ fs !! p = Some (Ok limits) /\
     _parse_int points_env = Some points /\ source cfg = "limits:" ++ p) \/
  cfg = env_or_default (_parse_int max_rows_env)
          (_parse_float min_interval_env) dmr dmi.
Proof.
  intros Henv. rewrite resolve_not_explicit by exact Henv.
  destruct (_load_limits fs limits_path) as [[limits|]|] eqn:Hload;
    cbn [mbind result_bind]; [| |discriminate].
  2:{ intros H. right. now injection H as <-. }
  destruct (_parse_int points_env) as [points|];
    [|intros H; right; now injection H as <-].
  destruct (truthy limits); [|intros H; right; now injection H as <-].
  apply load_limits_some in Hload as (p & -> & Hp & Hfs).
  cbn [from_option id].
  assert (Hcfg : forall entry, config_of entry p dmr dmi = Ok cfg ->
    exists p0 limits0 points0,
      Some p = Some p0 /\ p0 <> "" /\ fs !! p0 = Some (Ok limits0) /\
      Some points = Some points0 /\ source cfg = "limits:" ++ p0).
  { intros entry H. exists p, limits, points.
    repeat split; try assumption. exact (config_of_source _ _ _ _ _ H). }
  destruct (get limits "tiers") as [tiers|]; [|discriminate].
  cbn [mbind result_bind].
  destruct (sorted_tiers (or_else tiers (JArr []))) as [sorted|];
    [|discriminate].
  cbn [mbind result_bind].
  destruct (chosen (select_tier points None sorted)) as [selected|].
  - intros H. left. exact (Hcfg _ H).
  - destruct (get limits "default") as [dflt|]; [|discriminate].
    cbn [mbind result_bind].
    destruct (truthy (or_else dflt (JObj []))).
    + intros H. left. exact (Hcfg _ H).
    + intros H. right. now injection H as <-.
Qed.

(** X3. What a returned source tag tells.  "env:explicit": both environment
    values parsed and are the result.  "limits:<path>": the file at that
    path was read and the points parsed.  Otherwise the result is made of
    the environment and the built-in defaults, tagged "env:partial" when one
    environment value parsed and "default" when none did.  A result without
    a row cap can only come from the limits file. *)
Theorem resolve_rate_limits_source_tag :
  forall (fs : gmap string (result value))
    (max_rows_env min_interval_env points_env limits_path : option string)
    (dmr : Z) (dmi : float) (cfg : RateLimitConfig),
    resolve_rate_limits fs max_rows_env min_interval_env points_env
      limits_path dmr dmi = Ok cfg ->
    ((exists mr mi,
        _parse_int max_rows_env = Some mr /\
        _parse_float min_interval_env = Some mi /\
        cfg = {| max_rows := Some mr; min_interval_seconds := mi;
                 source := "env:explicit" |}) \/
     (exists p limits points,
        limits_path = Some p /\ p <> "" /\ fs !! p = Some (Ok limits) /\
        _parse_int points_env = Some points /\
        source cfg = "limits:" ++ p) \/
     ((_parse_int max_rows_env = None \/
       _parse_float min_interval_env = None) /\
      cfg = env_or_default (_parse_int max_rows_env)
              (_parse_float min_interval_env) dmr dmi /\
      source cfg
      = match _parse_int max_rows_env, _parse_float min_interval_env with
        | None, None => "default"
        | _, _ => "env:partial"
        end)) /\
    (max_rows cfg = None -> exists p, source cfg = "limits:" ++ p).
Proof.
  intros fs mre mie pe lp dmr dmi cfg H.
  assert (Hcases :
    (exists mr mi,
        _parse_int mre = Some mr /\ _parse_float mie = Some mi /\
        cfg = {| max_rows := Some mr; min_interval_seconds := mi;
                 source := "env:explicit" |}) \/
    (exists p limits points,
        lp = Some p /\ p <> "" /\ fs !! p = Some (Ok limits) /\
        _parse_int pe = Some points /\ source cfg = "limits:" ++ p) \/
    ((_parse_int mre = None \/ _parse_float mie = None) /\
     cfg = env_or_default (_parse_int mre) (_parse_float mie) dmr dmi)).
  { destruct (_parse_int mre) as [mr|] eqn:Hmr;
      [destruct (_parse_float mie) as [mi|] eqn:Hmi|].
    - left. exists mr, mi. unfold resolve_rate_limits in H.
      rewrite Hmr, Hmi in H. now injection H as <-.
    - right. rewrite <- Hmr, <- Hmi.
      destruct (resolve_rest fs mre mie pe lp dmr dmi cfg (or_intror Hmi) H)
        as [Hl|He]; [left; exact Hl|right; split; [now right|exact He]].
    - right. rewrite <- Hmr.
      destruct (resolve_rest fs mre mie pe lp dmr dmi cfg (or_introl Hmr) H)
        as [Hl|He]; [left; exact Hl|right; split; [now left|exact He]]. }
  split.
  - destruct Hcases as [Hx|[Hl|[Hn He]]]; [now left|right; now left|].
    right. right. split; [exact Hn|]. split; [exact He|].
    rewrite He. apply env_or_default_rows.
  - intros Hrows. destruct Hcases as [(mr & mi & _ & _ & ->)|[Hl|[_ He]]].
    + discriminate.
    + destruct Hl as (p & _ & _ & _ & _ & _ & _ & Hs). now exists p.
    + rewrite He in Hrows.
      destruct (env_or_default_rows (_parse_int mre) (_parse_float mie) dmr dmi)
        as [Hr _].
      rewrite Hr in Hrows. discriminate.
Qed.

Lemma resolve_rate_limits_source_tag_witness :
  exists p,
    source {| max_rows := None; min_interval_seconds := FFinite (35 # 100);
              source := "limits:limits.json" |} = "limits:" ++ p.
Proof.
  refine (proj2 (resolve_rate_limits_source_tag
                   {[ "limits.json" :=
                        Ok (JObj [("tiers", JArr tied_tiers);
                                  ("default", JObj [("max_rows", JNull)])]) ]}
                   (Some "200") None (Some "-5") (Some "limits.json")
                   500 (FFinite (35 # 100))
                   {| max_rows := None;
                      min_interval_seconds := FFinite (35 # 100);
                      source := "limits:limits.json" |} _) _).
  - vm_compute. reflexivity.
  - reflexivity.
Defined.

(** Either no tier qualifies, or one of them has the greatest [min_points]
    among those that do. *)
Lemma greatest_qualifying (points : Z) (tiers : list value) :
  Forall (fun t => exists k, tier_has_min_points t k) tiers ->
  Forall (fun t => exists k, tier_has_min_points t k /\ points < k) tiers \/
  exists t m,
    In t tiers /\ tier_has_min_points t m /\ m <= points /\
    Forall (fun t' => exists k,
              tier_has_min_points t' k /\ (k <= points -> k <= m)) tiers.
Proof.
  induction 1 as [|t tiers [k Hk] _ IH]; [left; constructor|].
  destruct IH as [Hnone|(t0 & m & Hin & Hm & Hle & Hmax)].
  - destruct (Z_le_gt_dec k points) as [Hq|Hq].
    + right. exists t, k. repeat split; [now left|exact Hk|exact Hq|].
      constructor; [exists k; split; [exact Hk|lia]|].
      eapply List.Forall_impl; [|exact Hnone].
      intros t' (k' & Hk' & Hgt). exists k'. split; [exact Hk'|lia].
    + left. constructor; [|exact Hnone]. exists k. split; [exact Hk|lia].
  - destruct (Z_le_gt_dec k points) as [Hq|Hq];
      [destruct (Z_le_gt_dec k m) as [Hkm|Hkm]|].
    + right. exists t0, m. repeat split; [now right|exact Hm|exact Hle|].
      constructor; [|exact Hmax]. exists k. split; [exact Hk|lia].
    + right. exists t, k. repeat split; [now left|exact Hk|exact Hq|].
      constructor; [exists k; split; [exact Hk|lia]|].
      eapply List.Forall_impl; [|exact Hmax].
      intros t' (k' & Hk' & Hb). exists k'. split; [exact Hk'|lia].
    + right. exists t0, m. repeat split; [now right|exact Hm|exact Hle|].
      constructor; [|exact Hmax]. exists k. split; [exact Hk|lia].
Qed.

(** With pairwise different [min_points], the tier of the greatest
    qualifying one is used wherever it stands in the file. *)
Lemma resolve_greatest_distinct (fs : gmap string (result value))
    (max_rows_env min_interval_env points_env : option string)
    (path : string) (items : list (string * value)) (tiers : list value)
    (t : value) (m points dmr : Z) (dmi : float) :
  _parse_int max_rows_env = None \/ _parse_float min_interval_env = None ->
  path <> "" ->
  fs !! path = Some (Ok (JObj items)) ->
  assoc "tiers" items = Some (JArr tiers) ->
  _parse_int points_env = Some points ->
  List.NoDup (map tier_min_points tiers) ->
  In t tiers -> tier_has_min_points t m -> m <= points ->
  Forall (fun t' => exists k,
            tier_has_min_points t' k /\ (k <= points -> k <= m)) tiers ->
  resolve_rate_limits fs max_rows_env min_interval_env points_env
    (Some path) dmr dmi
  = config_of t path dmr dmi.
Proof.
  intros Henv Hpath Hfs Htiers Hpoints Hnd Hin Hm Hle Hmax.
  apply in_split in Hin as (before & after & ->).
  apply Forall_app in Hmax as [Hb Ha]. inversion Ha as [|? ? _ Ha']; subst.
  apply (resolve_last_of_greatest fs max_rows_env min_interval_env points_env
           path items before after t m points dmr dmi); try assumption.
  rewrite map_app in Hnd. cbn [map] in Hnd. apply NoDup_remove_2 in Hnd.
  rewrite List.Forall_forall in *. intros t' Hin.
  destruct (Ha' t' Hin) as (k & Hk & Hkm). exists k. split; [exact Hk|].
  intros Hq. specialize (Hkm Hq).
  destruct (Z.eq_dec k m) as [->|Hne]; [|lia].
  exfalso. apply Hnd. apply in_or_app. right.
  rewrite (proj1 (tier_has_min_points_spec _ _ Hm)),
    <- (proj1 (tier_has_min_points_spec _ _ Hk)).
  now apply in_map.
Qed.

(** X4. When the tiers' [min_points] are pairwise different, the order in
    which the file lists the tiers does not change the result. *)
Theorem resolve_rate_limits_tier_order_irrelevant :
  forall (fs fs' : gmap string (result value))
    (max_rows_env min_interval_env points_env : option string)
    (path : string) (items items' : list (string * value))
    (tiers tiers' : list value) (points dmr : Z) (dmi : float),
    (_parse_int max_rows_env = None \/ _parse_float min_interval_env = None) ->
    path <> "" ->
    fs !! path = Some (Ok (JObj items)) ->
    fs' !! path = Some (Ok (JObj items')) ->
    assoc "tiers" items = Some (JArr tiers) ->
    assoc "tiers" items' = Some (JArr tiers') ->
    assoc "default" items = assoc "default" items' ->
    _parse_int points_env = Some points ->
    Permutation tiers tiers' ->
    Forall (fun t => exists k, tier_has_min_points t k) tiers ->
    List.NoDup (map tier_min_points tiers) ->
    resolve_rate_limits fs max_rows_env min_interval_env points_env
      (Some path) dmr dmi
    = resolve_rate_limits fs' max_rows_env min_interval_env points_env
        (Some path) dmr dmi.
Proof.
  intros fs fs' mre mie pe path items items' tiers tiers' points dmr dmi
    Henv Hpath Hfs Hfs' Htiers Htiers' Hdflt Hpoints Hperm Hwf Hnd.
  destruct (greatest_qualifying points tiers Hwf)
    as [Hnone|(t & m & Hin & Hm & Hle & Hmax)].
  - rewrite (resolve_none_qualifying fs mre mie pe path items tiers
               points dmr dmi) by assumption.
    rewrite (resolve_none_qualifying fs' mre mie pe path items' tiers'
               points dmr dmi); try assumption.
    + now rewrite Hdflt.
    + exact (Permutation_Forall Hperm Hnone).
  - rewrite (resolve_greatest_distinct fs mre mie pe path items tiers t m
               points dmr dmi) by assumption.
    symmetry.
    apply (resolve_greatest_distinct fs' mre mie pe path items' tiers' t m
             points dmr dmi); try assumption.
    + eapply Permutation_NoDup; [|exact Hnd]. now apply Permutation_map.
    + exact (Permutation_in _ Hperm Hin).
    + exact (Permutation_Forall Hperm Hmax).
Qed.

Lemma resolve_rate_limits_tier_order_irrelevant_witness :
  resolve_rate_limits {[ "limits.json" := Ok example_limits ]}
    None None (Some "3000") (Some "limits.json") 500 (FFinite (35 # 100))
  = resolve_rate_limits
      {[ "limits.json" := Ok (JObj [("tiers", JArr (rev example_tiers))]) ]}
      None None (Some "3000") (Some "limits.json") 500 (FFinite (35 # 100)).
Proof.
  apply (resolve_rate_limits_tier_order_irrelevant
           {[ "limits.json" := Ok example_limits ]}
           {[ "limits.json" :=
                Ok (JObj [("tiers", JArr (rev example_tiers))]) ]}
           None None (Some "3000") "limits.json"
           [("tiers", JArr example_tiers)]
           [("tiers", JArr (rev example_tiers))]
           example_tiers (rev example_tiers) 3000 500 (FFinite (35 # 100))).
  - left. reflexivity.
  - discriminate.
  - reflexivity.
  - reflexivity.
  - reflexivity.
  - reflexivity.
  - reflexivity.
  - reflexivity.
  - apply Permutation_rev.
  - repeat constructor.
    + exists 0. eexists _, _. repeat split; reflexivity.
    + exists 2000. eexists _, _. repeat split; reflexivity.
    + exists 5000. eexists _, _. repeat split; reflexivity.
  - repeat constructor; cbn; intros H;
      repeat (destruct H as [H|H]; [discriminate|]); exact H.
Defined.

(** X5. A limits file is consulted only for a caller whose points parse:
    without them, or when the file holds an empty object, whatever else the
    file says the result is made of the environment and the built-in
    defaults. *)
Theorem resolve_rate_limits_file_needs_points :
  forall (fs : gmap string (result value))
    (max_rows_env min_interval_env points_env : option string)
    (path : string) (limits : value) (dmr : Z) (dmi : float),
    (_parse_int max_rows_env = None \/ _parse_float min_interval_env = None) ->
    fs !! path = Some (Ok limits) ->
    (_parse_int points_env = None \/ truthy limits = false) ->
    resolve_rate_limits fs max_rows_env min_interval_env points_env
      (Some path) dmr dmi
    = Ok (env_or_default (_parse_int max_rows_env)
            (_parse_float min_interval_env) dmr dmi).
Proof.
  intros fs mre mie pe path limits dmr dmi Henv Hfs Hskip.
  rewrite resolve_not_explicit by exact Henv.
  unfold _load_limits. rewrite Hfs.
  destruct (String.eqb path "");
    cbn [mbind result_bind]; [reflexivity|].
  destruct Hskip as [-> | Hfalsy]; [reflexivity|].
  rewrite Hfalsy. now destruct (_parse_int pe).
Qed.

Lemma resolve_rate_limits_file_needs_points_witness :
  resolve_rate_limits {[ "limits.json" := Ok example_limits ]}
    (Some "200") None (Some "many") (Some "limits.json")
    500 (FFinite (35 # 100))
  = Ok {| max_rows := Some 200; min_interval_seconds := FFinite (35 # 100);
          source := "env:partial" |}.
Proof.
  apply (resolve_rate_limits_file_needs_points
           {[ "limits.json" := Ok example_limits ]}
           (Some "200") None (Some "many") "limits.json" example_limits
           500 (FFinite (35 # 100))).
  - right. reflexivity.
  - reflexivity.
  - left. reflexivity.
Defined.

(** *** A tier whose [min_points] cannot be read *)

Lemma sort_keys_raises (tiers : list value) (tier : value) (e : exn) :
  In tier tiers -> tier_min_points tier = Raise e ->
  exists e', sort_keys tiers = Raise e'.
Proof.
  induction tiers as [|t tiers IH]; intros Hin He; [destruct Hin|].
  cbn [sort_keys]. destruct Hin as [->|Hin].
  - rewrite He. now exists e.
  - destruct (tier_min_points t) as [k|e1]; [|now exists e1].
    cbn [mbind result_bind]. destruct (IH Hin He) as [e' ->]. now exists e'.
Qed.

(** C1. The selection of the greatest qualifying tier does not hold for
    every limits file: a tier whose [min_points] [int] rejects makes the
    resolver raise, at the key function of [sorted], although the loop that
    follows would have skipped such a tier and gone on with the others. *)
Theorem resolve_rate_limits_unparsable_tier_raises :
  forall (fs : gmap string (result value))
    (max_rows_env min_interval_env points_env : option string)
    (path : string) (items : list (string * value)) (tiers : list value)
    (tier : value) (e : exn) (points dmr : Z) (dmi : float),
    (_parse_int max_rows_env = None \/ _parse_float min_interval_env = None) ->
    path <> "" ->
    fs !! path = Some (Ok (JObj items)) ->
    assoc "tiers" items = Some (JArr tiers) ->
    _parse_int points_env = Some points ->
    In tier tiers ->
    tier_min_points tier = Raise e ->
    (exists e',
       resolve_rate_limits fs max_rows_env min_interval_env points_env
         (Some path) dmr dmi = Raise e') /\
    (forall selected rest,
       select_tier points selected (tier :: rest)
       = select_tier points selected rest).
Proof.
  intros fs mre mie pe path items tiers tier e points dmr dmi
    Henv Hpath Hfs Htiers Hpoints Hin He.
  split.
  - destruct (sort_keys_raises tiers tier e Hin He) as [e' Hsort].
    exists e'. rewrite resolve_not_explicit by exact Henv.
    unfold _load_limits. apply String.eqb_neq in Hpath.
    rewrite Hpath, Hfs, Hpoints. cbn [mbind result_bind].
    assert (Htruthy : truthy (JObj items) = true)
      by (destruct items; [discriminate|reflexivity]).
    rewrite Htruthy. cbn [get]. rewrite Htiers.
    cbn [from_option id mbind result_bind].
    assert (Hor : or_else (JArr tiers) (JArr []) = JArr tiers)
      by (unfold or_else; now destruct tiers).
    rewrite Hor. unfold sorted_tiers. cbn [iterate mbind result_bind].
    now rewrite Hsort.
  - intros selected rest. cbn [select_tier]. now rewrite He.
Qed.

(** The example table with a tier for "gold" members. *)
Definition gold_tiers : list value :=
  [ JObj [("min_points", JInt 0); ("max_rows", JInt 100);
          ("min_interval_seconds", JFloat (FFinite 1))];
    JObj [("min_points", JStr "gold"); ("max_rows", JInt 9000)];
    JObj [("min_points", JInt 2000); ("max_rows", JInt 1000);
          ("min_interval_seconds", JFloat (FFinite (3 # 10)))] ].

Lemma resolve_rate_limits_unparsable_tier_raises_witness :
  (exists e',
     resolve_rate_limits
       {[ "limits.json" := Ok (JObj [("tiers", JArr gold_tiers)]) ]}
       None None (Some "3000") (Some "limits.json") 500 (FFinite (35 # 100))
     = Raise e') /\
  select_tier 3000 None gold_tiers
  = Some (JObj [("min_points", JInt 2000); ("max_rows", JInt 1000);
                ("min_interval_seconds", JFloat (FFinite (3 # 10)))]).
Proof.
  split.
  - apply (resolve_rate_limits_unparsable_tier_raises
             {[ "limits.json" := Ok (JObj [("tiers", JArr gold_tiers)]) ]}
             None None (Some "3000") "limits.json"
             [("tiers", JArr gold_tiers)] gold_tiers
             (JObj [("min_points", JStr "gold"); ("max_rows", JInt 9000)])
             ValueError 3000 500 (FFinite (35 # 100))).
    + left. reflexivity.
    + discriminate.
    + reflexivity.
    + reflexivity.
    + reflexivity.
    + right. left. reflexivity.
    + reflexivity.
  - reflexivity.
Defined.

End ConfigCases.

(** ** specs.py: normal forms, search, loading and validation *)

Module SpecsLaws.
Import Py Specs SortFacts SpecsFacts DictFacts.

(** *** [_normalize] *)

Lemma lower_char_space (c : ascii) : is_space (lower_char c) = is_space c.
Proof.
  destruct c as [[] [] [] [] [] [] [] []]; vm_compute; reflexivity.
Qed.

Lemma lower_char_idem (c : ascii) : lower_char (lower_char c) = lower_char c.
Proof.
  destruct c as [[] [] [] [] [] [] [] []]; vm_compute; reflexivity.
Qed.

Lemma lower_idem (s : string) : lower (lower s) = lower s.
Proof.
  induction s as [|c s IH]; [reflexivity|]. cbn [lower].
  now rewrite lower_char_idem, IH.
Qed.

Lemma lstrip_lower (s : string) : lstrip (lower s) = lower (lstrip s).
Proof.
  induction s as [|c s IH]; [reflexivity|]. cbn [lower lstrip].
  rewrite lower_char_space. now destruct (is_space c).
Qed.

Lemma rstrip_lower (s : string) : rstrip (lower s) = lower (rstrip s).
Proof.
  induction s as [|c s IH]; [reflexivity|]. cbn [lower rstrip].
  rewrite IH, lower_char_space.
  destruct (rstrip s); [now destruct (is_space c)|reflexivity].
Qed.

Lemma collapse_lower (s : string) :
  forall in_run,
    collapse_spaces in_run (lower s) = lower (collapse_spaces in_run s).
Proof.
  induction s as [|c s IH]; intros in_run; [reflexivity|].
  cbn [lower collapse_spaces]. rewrite lower_char_space.
  destruct (is_space c); [destruct in_run|]; cbn [lower]; now rewrite IH.
Qed.

(** The head of a text is not white space. *)
Definition no_lead (s : string) : bool :=
  match s with
  | String c _ => negb (is_space c)
  | EmptyString => true
  end.

Lemma lstrip_no_lead (s : string) : no_lead (lstrip s) = true.
Proof.
  induction s as [|c s IH]; [reflexivity|]. cbn [lstrip].
  destruct (is_space c) eqn:Hc; [exact IH|]. cbn. now rewrite Hc.
Qed.

Lemma no_lead_lstrip (s : string) : no_lead s = true -> lstrip s = s.
Proof.
  destruct s as [|c s]; [reflexivity|]. cbn.
  now destruct (is_space c).
Qed.

Lemma rstrip_no_lead (s : string) :
  no_lead s = true -> no_lead (rstrip s) = true.
Proof.
  destruct s as [|c s]; [reflexivity|]. cbn [no_lead rstrip].
  intros Hc. destruct (rstrip s); [|exact Hc].
  destruct (is_space c) eqn:E; [discriminate|]. cbn. now rewrite E.
Qed.

Lemma rstrip_idem (s : string) : rstrip (rstrip s) = rstrip s.
Proof.
  induction s as [|c s IH]; [reflexivity|]. cbn [rstrip].
  destruct (rstrip s) as [|d r] eqn:Hr.
  - destruct (is_space c) eqn:Hc; [reflexivity|]. cbn. now rewrite Hc.
  - cbn [rstrip] in *. now rewrite IH.
Qed.

Lemma strip_idem (s : string) : strip (strip s) = strip s.
Proof.
  unfold strip.
  rewrite (no_lead_lstrip (rstrip (lstrip s)))
    by apply rstrip_no_lead, lstrip_no_lead.
  apply rstrip_idem.
Qed.

(** A text in which white space is only single blanks; [in_run] tells that
    a blank stands before it. *)
Fixpoint single_blanks (in_run : bool) (s : string) : bool :=
  match s with
  | EmptyString => true
  | String c rest =>
      if is_space c
      then Ascii.eqb c " " && negb in_run && single_blanks true rest
      else single_blanks false rest
  end.

Lemma collapse_single_blanks (s : string) :
  forall in_run, single_blanks in_run (collapse_spaces in_run s) = true.
Proof.
  induction s as [|c s IH]; intros in_run; [reflexivity|].
  cbn [collapse_spaces]. destruct (is_space c) eqn:Hc.
  - destruct in_run; [apply IH|]. cbn. apply IH.
  - cbn [single_blanks]. rewrite Hc. apply IH.
Qed.

Lemma single_blanks_collapse (s : string) :
  forall in_run,
    single_blanks in_run s = true -> collapse_spaces in_run s = s.
Proof.
  induction s as [|c s IH]; intros in_run H; [reflexivity|].
  cbn [single_blanks collapse_spaces] in *. destruct (is_space c).
  - apply andb_true_iff in H as [H Hs]. apply andb_true_iff in H as [Hc Hb].
    apply Ascii.eqb_eq in Hc. subst c. destruct in_run; [discriminate|].
    now rewrite IH.
  - now rewrite IH.
Qed.

Lemma single_blanks_weaken (s : string) :
  single_blanks true s = true -> single_blanks false s = true.
Proof.
  destruct s as [|c s]; [reflexivity|]. cbn.
  destruct (is_space c); [|trivial]. rewrite andb_false_r. discriminate.
Qed.

Lemma single_blanks_lstrip (s : string) :
  forall in_run,
    single_blanks in_run s = true -> single_blanks false (lstrip s) = true.
Proof.
  induction s as [|c s IH]; intros in_run H; [reflexivity|].
  cbn [lstrip]. cbn [single_blanks] in H. destruct (is_space c) eqn:Hc.
  - apply andb_true_iff in H as [_ Hs]. exact (IH true Hs).
  - cbn [single_blanks]. now rewrite Hc.
Qed.

Lemma single_blanks_rstrip (s : string) :
  forall in_run,
    single_blanks in_run s = true -> single_blanks in_run (rstrip s) = true.
Proof.
  induction s as [|c s IH]; intros in_run H; [reflexivity|].
  cbn [rstrip]. cbn [single_blanks] in H. destruct (is_space c) eqn:Hc.
  - apply andb_true_iff in H as [H Hs]. specialize (IH true Hs).
    destruct (rstrip s) as [|d r]; [reflexivity|].
    cbn [single_blanks] in *. now rewrite Hc, H, IH.
  - specialize (IH false H).
    destruct (rstrip s) as [|d r]; cbn [single_blanks] in *;
      now rewrite Hc.
Qed.

Lemma normalize_twice (text : string) :
  _normalize (_normalize text) = _normalize text.
Proof.
  unfold _normalize.
  rewrite collapse_lower. unfold strip at 1.
  rewrite lstrip_lower, rstrip_lower. fold (strip (collapse_spaces false
    (strip (collapse_spaces false text)))).
  rewrite lower_idem. f_equal.
  rewrite single_blanks_collapse; [apply strip_idem|].
  unfold strip. apply single_blanks_rstrip.
  apply (single_blanks_lstrip _ false), collapse_single_blanks.
Qed.


(** X6. Normalizing is idempotent, so a keyword that is already lower-case
    with single blanks is searched as it stands: [search] gives the same
    result for a keyword and for its normal form. *)
Theorem normalize_idempotent :
  forall (text : string) (self : SpecStore) (limit : Z),
    _normalize (_normalize text) = _normalize text /\
    search self (_normalize text) limit = search self text limit.
Proof.
  intros text self limit. split; [apply normalize_twice|].
  unfold search. now rewrite normalize_twice.
Qed.

(** *** [search] *)

Lemma length_matching_scored (kw : string) (items : list (string * Endpoint)) :
  length (matching_scored kw items) = length (List.filter (matches kw) items).
Proof. unfold matching_scored. apply length_map. Qed.

Lemma In_firstn {A : Type} (n : nat) (l : list A) (x : A) :
  In x (firstn n l) -> In x l.
Proof.
  intros H. rewrite <- (firstn_skipn n l). apply in_or_app. now left.
Qed.

(** X7. For a keyword that is not blank, [search] returns as many endpoints
    as match, up to [limit], and up to one when [limit] is zero or
    negative; every endpoint returned is one of the catalog whose text
    contains the keyword. *)
Theorem search_returns_matching_endpoints :
  forall (self : SpecStore) (keyword : string) (limit : Z),
    _normalize keyword <> "" ->
    length (search self keyword limit)
    = Nat.min (Z.to_nat (Z.max 1 limit))
        (length (List.filter (matches (_normalize keyword)) (apis self))) /\
    (forall spec,
       In spec (search self keyword limit) ->
       exists api_name,
         In (api_name, spec) (apis self) /\
         contains (_normalize keyword)
           (_normalize (haystack api_name spec)) = true).
Proof.
  intros self keyword limit Hkw. apply String.eqb_neq in Hkw.
  unfold search. rewrite Hkw, scored_spec. split.
  - rewrite length_map, length_firstn.
    erewrite Permutation_length by apply sort_by_perm.
    now rewrite length_matching_scored.
  - intros spec Hin. apply in_map_iff in Hin as ([score spec'] & <- & Hin).
    apply In_firstn in Hin. apply sort_by_In in Hin.
    unfold matching_scored in Hin.
    apply in_map_iff in Hin as ([api_name spec0] & Heq & Hin).
    injection Heq as _ <-. apply filter_In in Hin as [Hin Hm].
    exists api_name. split; [exact Hin|exact Hm].
Qed.

Lemma search_returns_matching_endpoints_witness :
  length (search example_store "DAILY" 0) = 1%nat.
Proof.
  destruct (search_returns_matching_endpoints example_store "DAILY" 0)
    as [Hlen _].
  - vm_compute. discriminate.
  - rewrite Hlen. vm_compute. reflexivity.
Defined.

(** *** [load] *)

(** What [pathlib] makes of some paths. *)
Lemma path_text_examples :
  path_text "specs.json" = "specs.json" /\
  path_text "./specs.json" = "specs.json" /\
  path_text "sub//specs.json" = "sub/specs.json" /\
  path_text "/data/./specs/" = "/data/specs" /\
  path_text "//host/specs.json" = "//host/specs.json" /\
  path_text "///specs.json" = "/specs.json" /\
  path_text "../specs.json" = "../specs.json" /\
  path_text "./" = ".".
Proof. repeat split; reflexivity. Qed.

(** X8. Loading a catalog file that parses keeps its endpoints, so [get]
    finds exactly the file's entries; the metadata are the file's, with
    [loaded_at] set to the time of the call and [spec_path] to the path as
    [pathlib] writes it, whatever the file said for these two.  A file that
    exists and cannot be parsed makes [load] raise that error. *)
Theorem load_existing_catalog :
  forall (fs : gmap string (result CatalogFile)) (now p : string),
    p <> "" ->
    (forall raw,
       fs !! p = Some (Ok raw) ->
       exists store,
         load fs now (Some p) = Ok store /\
         apis store = default [] (raw_apis raw) /\
         (forall api_name,
            get store api_name = assoc api_name (default [] (raw_apis raw))) /\
         assoc "loaded_at" (meta store) = Some (JStr now) /\
         assoc "spec_path" (meta store) = Some (JStr (path_text p)) /\
         (forall k,
            k <> "loaded_at" -> k <> "spec_path" ->
            assoc k (meta store) = assoc k (default [] (raw_meta raw)))) /\
    (forall e, fs !! p = Some (Raise e) -> load fs now (Some p) = Raise e).
Proof.
  intros fs now p Hp. apply String.eqb_neq in Hp. split.
  - intros raw Hfs. eexists. unfold load. rewrite Hp, Hfs.
    cbn [mbind result_bind]. split; [reflexivity|].
    cbn [apis meta get]. repeat split.
    + rewrite assoc_dict_set_ne by discriminate. apply assoc_dict_set_eq.
    + apply assoc_dict_set_eq.
    + intros k Hl Hs. now rewrite !assoc_dict_set_ne.
  - intros e Hfs. unfold load. now rewrite Hp, Hfs.
Qed.

Definition example_catalog : CatalogFile :=
  {| raw_apis := Some [("daily", daily_spec)];
     raw_meta := Some [("version", JInt 1); ("loaded_at", JStr "then");
                       ("spec_path", JStr "elsewhere.json")] |}.

Lemma load_existing_catalog_witness :
  exists store,
    load {[ "./specs.json" := Ok example_catalog ]} "now"
      (Some "./specs.json")
    = Ok store /\
    get store "daily" = Some daily_spec /\
    meta store = [("version", JInt 1); ("loaded_at", JStr "now");
                  ("spec_path", JStr "specs.json")].
Proof.
  destruct (proj1 (load_existing_catalog
                     {[ "./specs.json" := Ok example_catalog ]}
                     "now" "./specs.json" ltac:(discriminate))
              example_catalog eq_refl)
    as (store & Hload & _ & Hget & _).
  exists store. split; [exact Hload|]. split; [now rewrite Hget|].
  vm_compute in Hload. now injection Hload as <-.
Defined.

(** *** [validate_params] *)

(** X9. The missing names are reported in ascending order, each once even
    when the spec lists a required name twice, and all of them are required
    names. *)
Theorem missing_required_sorted_unique :
  forall (s : Endpoint) (params : gmap string value),
    StronglySorted (fun a b => String.leb a b = true)
      (missing_required (validate_params (Some s) params)) /\
    List.NoDup (missing_required (validate_params (Some s) params)) /\
    incl (missing_required (validate_params (Some s) params))
         (required_names s).
Proof.
  intros s params.
  destruct (sorted_filter_elements
              (list_to_set (required_names s)) (is_missing params))
    as [Hs Hn].
  split; [exact Hs|]. split; [exact Hn|].
  intros k Hk. now apply missing_required_spec in Hk.
Qed.

(** X10. A call passes validation exactly when it gives every required name
    a value other than [None] and the empty string; parameters the spec
    does not know never make it fail. *)
Theorem validate_params_ok_iff_supplied :
  forall (s : Endpoint) (params : gmap string value),
    ok (validate_params (Some s) params) = true <->
    (forall k, In k (required_names s) ->
               exists v, params !! k = Some v /\ v <> JNull /\ v <> JStr "").
Proof.
  intros s params.
  assert (Hok : ok (validate_params (Some s) params) = true <->
                missing_required (validate_params (Some s) params) = []).
  { cbn [validate_params ok missing_required].
    destruct (sort_by String.leb _); split; congruence. }
  rewrite Hok. split.
  - intros Hnil k Hk.
    destruct (is_missing params k) eqn:Hm.
    + assert (Hin : In k (missing_required (validate_params (Some s) params)))
        by (apply missing_required_spec; now split).
      rewrite Hnil in Hin. destruct Hin.
    + destruct (params !! k) as [v|] eqn:Hv.
      * exists v. split; [reflexivity|].
        split; intros ->;
          (assert (Hc : is_missing params k = true)
             by (apply is_missing_spec; rewrite Hv; auto));
          congruence.
      * assert (Hc : is_missing params k = true)
          by (apply is_missing_spec; now left).
        congruence.
  - intros Hall.
    destruct (missing_required (validate_params (Some s) params))
      as [|k l] eqn:E; [reflexivity|].
    assert (Hin : In k (missing_required (validate_params (Some s) params)))
      by (rewrite E; now left).
    apply missing_required_spec in Hin as [Hreq Hm].
    destruct (Hall k Hreq) as (v & Hv & Hnull & Hempty).
    apply is_missing_spec in Hm. destruct Hm as [Hm|[Hm|Hm]]; congruence.
Qed.

End SpecsLaws.

(** ** scrape.py: the parameter tables *)

Module RowsFacts.
Import Py SortFacts SpecsFacts DictFacts.
Import Specs(dict_set).
Import Rows.

Definition json_types : list string :=
  ["string"; "integer"; "number"; "boolean"].

(** A dict with a JSON type under [type] and a [description]. *)
Definition typed_described (d : list (string * string)) : Prop :=
  (exists ty, assoc "type" d = Some ty /\ In ty json_types) /\
  is_Some (assoc "description" d).

(** The three shapes of what [_coerce_type] returns. *)
Lemma coerce_type_shape (type_text : option string) :
  exists ty,
    In ty json_types /\
    (Scrape._coerce_type type_text = [("type", ty)] \/
     exists k v,
       (k = "format" \/ k = "ts_type") /\
       Scrape._coerce_type type_text = [("type", ty); (k, v)]).
Proof.
  unfold Scrape._coerce_type, json_types.
  repeat match goal with
         | |- context [if ?b then _ else _] => destruct b
         end;
    try (eexists; split; [|left; reflexivity]; cbn; tauto);
    eexists; (split; [|right; eexists _, _; split; [|reflexivity]; tauto]);
    cbn; tauto.
Qed.

Lemma input_schema_typed (row : list (string * string)) :
  typed_described (input_schema row).
Proof.
  unfold input_schema, typed_described.
  set (t := Some _). set (desc := strip (pick row ["描述"; _; _; _])).
  set (dflt := strip (pick row ["默认"; _])).
  assert (H : typed_described
                (dict_set "description" desc (Scrape._coerce_type t))).
  { destruct (coerce_type_shape t) as (ty & Hty & [-> | (k & v & Hk & ->)]).
    - split; [exists ty; now split|now eexists].
    - split.
      + exists ty. split; [|exact Hty]. now destruct Hk as [-> | ->].
      + rewrite assoc_dict_set_eq. now eexists. }
  destruct (String.eqb dflt ""); [exact H|].
  destruct H as [(ty & Hty & Hin) Hd]. split.
  - exists ty. split; [|exact Hin].
    now rewrite assoc_dict_set_ne by discriminate.
  - now rewrite assoc_dict_set_ne by discriminate.
Qed.

(** What the loop of [_map_input_rows] keeps true of its state. *)
Record input_invariant (rows : list (list (string * string)))
    (st : InputState) : Prop := {
  keys_distinct : List.NoDup (map fst (properties st));
  keys_are_names :
    forall k, In k (map fst (properties st)) <->
              exists row, In row rows /\ input_name row = k /\ k <> "";
  required_are_flagged :
    forall k, In k (required st) <->
              exists row, In row rows /\ input_name row = k /\ k <> "" /\
                          input_required row = true;
  schemas_typed : Forall (fun kv => typed_described (snd kv)) (properties st)
}.

Lemma input_row_invariant (rows : list (list (string * string)))
    (st : InputState) (row : list (string * string)) :
  input_invariant rows st ->
  input_invariant (rows ++ [row]) (input_row st row).
Proof.
  intros [Hnd Hkeys Hreq Hty]. unfold input_row.
  destruct (String.eqb_spec (input_name row) "") as [Hname|Hname].
  - split; [exact Hnd| | |exact Hty].
    + intros k. rewrite Hkeys. split.
      * intros (r & Hin & Hr). exists r. split; [|exact Hr].
        apply in_or_app. now left.
      * intros (r & Hin & Hr & Hk). apply in_app_or in Hin as [Hin|[<-|[]]].
        -- now exists r.
        -- congruence.
    + intros k. rewrite Hreq. split.
      * intros (r & Hin & Hr). exists r. split; [|exact Hr].
        apply in_or_app. now left.
      * intros (r & Hin & Hr & Hk & Hf).
        apply in_app_or in Hin as [Hin|[<-|[]]].
        -- now exists r.
        -- congruence.
  - split; cbn [properties required].
    + now apply dict_set_NoDup.
    + intros k. rewrite dict_set_keys, Hkeys. split.
      * intros [->|(r & Hin & Hr)].
        -- exists row. split; [apply in_or_app; right; now left|now split].
        -- exists r. split; [apply in_or_app; now left|exact Hr].
      * intros (r & Hin & Hr & Hk). apply in_app_or in Hin as [Hin|[<-|[]]].
        -- right. now exists r.
        -- now left.
    + intros k.
      assert (Hold : In k (required st) \/
                     (input_required row = true /\ k = input_name row) <->
                     exists r, In r (rows ++ [row]) /\ input_name r = k /\
                               k <> "" /\ input_required r = true).
      { rewrite Hreq. split.
        - intros [(r & Hin & Hr)|[Hf ->]].
          + exists r. split; [apply in_or_app; now left|exact Hr].
          + exists row. split; [apply in_or_app; right; now left|now split].
        - intros (r & Hin & Hr & Hk & Hf).
          apply in_app_or in Hin as [Hin|[<-|[]]].
          + left. now exists r.
          + right. now split. }
      rewrite <- Hold. destruct (input_required row).
      * rewrite in_app_iff. cbn [In]. intuition.
      * intuition. discriminate.
    + apply dict_set_values; [apply input_schema_typed|exact Hty].
Qed.

Lemma fold_input_invariant (rows : list (list (string * string))) :
  forall done st,
    input_invariant done st ->
    input_invariant (done ++ rows) (fold_left input_row rows st).
Proof.
  induction rows as [|row rows IH]; intros done st H; cbn [fold_left].
  - now rewrite app_nil_r.
  - replace (done ++ row :: rows)%list with ((done ++ [row]) ++ rows)%list
      by now rewrite <- app_assoc.
    apply IH. now apply input_row_invariant.
Qed.

Lemma map_input_rows_invariant (rows : list (list (string * string))) :
  input_invariant rows
    (fold_left input_row rows {| properties := []; required := [] |}).
Proof.
  apply (fold_input_invariant rows []). split; cbn.
  - constructor.
  - intros k. split; [intros []|intros (r & [] & _)].
  - intros k. split; [intros []|intros (r & [] & _)].
  - constructor.
Qed.

Lemma required_of_map_input_rows (rows : list (list (string * string)))
    (k : string) :
  In k (required (_map_input_rows rows)) <->
  In k (required
          (fold_left input_row rows {| properties := []; required := [] |})).
Proof.
  cbn [_map_input_rows required].
  now rewrite sort_by_In, In_elements_list_to_set.
Qed.

(** X11. In the input schema built from a parameter table the required
    names are sorted, each once, and every one of them is a key of
    [properties]; the keys of [properties] are distinct and none is
    empty. *)
Theorem map_input_rows_required_within_properties :
  forall (rows : list (list (string * string))),
    StronglySorted (fun a b => String.leb a b = true)
      (required (_map_input_rows rows)) /\
    List.NoDup (required (_map_input_rows rows)) /\
    (forall k, In k (required (_map_input_rows rows)) ->
               is_Some (assoc k (properties (_map_input_rows rows)))) /\
    List.NoDup (map fst (properties (_map_input_rows rows))) /\
    ~ In "" (map fst (properties (_map_input_rows rows))).
Proof.
  intros rows. destruct (map_input_rows_invariant rows) as [Hnd Hkeys Hreq _].
  split; [|split; [|split; [|split]]].
  - apply (sort_by_sorted String.leb leb_string_total leb_string_trans).
  - eapply Permutation_NoDup; [symmetry; apply sort_by_perm|].
    apply NoDup_ListNoDup, NoDup_elements.
  - intros k Hk. apply required_of_map_input_rows in Hk.
    apply assoc_is_Some. cbn [_map_input_rows properties].
    apply Hkeys. apply Hreq in Hk as (r & Hin & Hr & Hne & _). now exists r.
  - exact Hnd.
  - cbn [_map_input_rows properties]. rewrite Hkeys.
    intros (r & _ & _ & Hne). now apply Hne.
Qed.

(** X12. A parameter is a key of [properties] exactly when some row names
    it, and is required exactly when some row that names it is marked
    required: a later row of the same name that is not marked does not clear
    it.  Rows without a name add nothing. *)
Theorem map_input_rows_names :
  forall (rows : list (list (string * string))) (k : string),
    (is_Some (assoc k (properties (_map_input_rows rows))) <->
     exists row, In row rows /\ input_name row = k /\ k <> "") /\
    (In k (required (_map_input_rows rows)) <->
     exists row, In row rows /\ input_name row = k /\ k <> "" /\
                 input_required row = true).
Proof.
  intros rows k. destruct (map_input_rows_invariant rows) as [_ Hkeys Hreq _].
  split.
  - rewrite assoc_is_Some. apply Hkeys.
  - rewrite required_of_map_input_rows. apply Hreq.
Qed.

(** X13. Every schema under [properties] has a JSON type, one of string,
    integer, number and boolean, and a description. *)
Theorem map_input_rows_schemas_typed :
  forall (rows : list (list (string * string))) (k : string)
    (schema : list (string * string)),
    assoc k (properties (_map_input_rows rows)) = Some schema ->
    (exists ty, assoc "type" schema = Some ty /\ In ty json_types) /\
    is_Some (assoc "description" schema).
Proof.
  intros rows k schema H. apply assoc_In in H.
  destruct (map_input_rows_invariant rows) as [_ _ _ Hty].
  rewrite List.Forall_forall in Hty. exact (Hty _ H).
Qed.


(** The parameter table of a documentation page: two rows for the same
    name, the first marked required, and a row without a name. *)
Definition example_rows : list (list (string * string)) :=
  [ [("名称", "ts_code"); ("类型", "str"); ("必填", "Y"); ("描述", "code")];
    [("名称", " "); ("类型", "int"); ("必填", "Y"); ("描述", "")];
    [("名称", "ts_code"); ("类型", "datetime"); ("必填", "N");
     ("描述", "again")] ].

Lemma map_input_rows_schemas_typed_witness :
  (exists ty,
     assoc "type" [("type", "string"); ("format", "date-time");
                   ("description", "again")] = Some ty /\
     In ty json_types) /\
  is_Some (assoc "description" [("type", "string"); ("format", "date-time");
                                ("description", "again")]).
Proof.
  apply (map_input_rows_schemas_typed example_rows "ts_code").
  vm_compute. reflexivity.
Defined.

Lemma fold_input_other_names (k : string)
    (rows : list (list (string * string))) :
  Forall (fun r => input_name r <> k) rows ->
  forall st,
    assoc k (properties (fold_left input_row rows st))
    = assoc k (properties st).
Proof.
  induction 1 as [|row rows Hrow _ IH]; intros st; [reflexivity|].
  cbn [fold_left]. rewrite IH. unfold input_row.
  destruct (String.eqb (input_name row) ""); [reflexivity|].
  cbn [properties]. apply assoc_dict_set_ne. congruence.
Qed.

(** X14. When several rows name the same parameter, its schema is the one
    of the last of them. *)
Theorem map_input_rows_last_row_wins :
  forall (before after : list (list (string * string)))
    (row : list (string * string)),
    input_name row <> "" ->
    Forall (fun r => input_name r <> input_name row) after ->
    assoc (input_name row)
      (properties (_map_input_rows (before ++ row :: after)))
    = Some (input_schema row).
Proof.
  intros before after row Hname Hafter.
  cbn [_map_input_rows properties]. rewrite fold_left_app. cbn [fold_left].
  rewrite fold_input_other_names by exact Hafter.
  unfold input_row at 1. apply String.eqb_neq in Hname. rewrite Hname.
  cbn [properties]. apply assoc_dict_set_eq.
Qed.

Lemma map_input_rows_last_row_wins_witness :
  assoc "ts_code" (properties (_map_input_rows example_rows))
  = Some [("type", "string"); ("format", "date-time");
          ("description", "again")].
Proof.
  apply (map_input_rows_last_row_wins
           [ [("名称", "ts_code"); ("类型", "str"); ("必填", "Y");
              ("描述", "code")];
             [("名称", " "); ("类型", "int"); ("必填", "Y"); ("描述", "")] ]
           []
           [("名称", "ts_code"); ("类型", "datetime"); ("必填", "N");
            ("描述", "again")]).
  - vm_compute. discriminate.
  - constructor.
Defined.

Lemma field_of_typed (name desc : string) (type_text : option string) :
  assoc "name" (field_of name desc (Scrape._coerce_type type_text))
  = Some name /\
  typed_described (field_of name desc (Scrape._coerce_type type_text)).
Proof.
  unfold typed_described.
  destruct (coerce_type_shape type_text)
    as (ty & Hty & [-> | (k & v & [-> | ->] & ->)]); cbn;
    (split; [reflexivity|]); (split; [exists ty; now split|now eexists]).
Qed.

(** X15. The output fields are the rows that have a name, in the table's
    order, each under its stripped name and with a JSON type and a
    description; rows without a name are left out. *)
Theorem map_output_rows_fields :
  forall (rows : list (list (string * string))),
    map (assoc "name") (_map_output_rows rows)
    = map Some
        (List.filter (fun name => negb (String.eqb name ""))
           (map output_name rows)) /\
    Forall (fun field =>
              (exists ty, assoc "type" field = Some ty /\ In ty json_types) /\
              is_Some (assoc "description" field))
      (_map_output_rows rows).
Proof.
  induction rows as [|row rows [IHn IHt]]; [split; [reflexivity|constructor]|].
  cbn [_map_output_rows map List.filter]. unfold output_row.
  destruct (String.eqb (output_name row) ""); cbn [negb]; [now split|].
  cbn [map]. rewrite IHn.
  destruct (field_of_typed (output_name row)
              (strip (pick row ["描述"; "说明"; "desc"; "备注"]))
              (Some (strip (pick row ["类型"; "数据类型"; "type"]))))
    as [Hn Ht].
  rewrite Hn. split; [reflexivity|]. constructor; [exact Ht|exact IHt].
Qed.

End RowsFacts.

(** ** scrape.py: the minimum points *)

Module PointsFacts.
Import Py Points.

(** A text of decimal digits. *)
Fixpoint all_digits (s : string) : bool :=
  match s with
  | EmptyString => true
  | String c rest => is_digit c && all_digits rest
  end.

Lemma digit_not_space (c : ascii) : is_digit c = true -> is_space c = false.
Proof.
  unfold is_digit, is_space. intros H. apply andb_true_iff in H as [H1 H2].
  apply N.leb_le in H1. apply N.leb_le in H2.
  apply orb_false_iff. split; apply andb_false_iff.
  - right. apply N.leb_gt. lia.
  - right. apply N.leb_gt. lia.
Qed.

Lemma digit_value_range (c : ascii) :
  is_digit c = true -> 0 <= digit_value c <= 9.
Proof.
  unfold is_digit, digit_value. intros H. apply andb_true_iff in H as [H1 H2].
  apply N.leb_le in H1. apply N.leb_le in H2. lia.
Qed.

Lemma digit_no_sign (c : ascii) (s : string) :
  is_digit c = true -> sign (String c s) = (false, String c s).
Proof.
  destruct c as [[] [] [] [] [] [] [] []]; vm_compute; intros H;
    reflexivity || discriminate.
Qed.

Lemma all_digits_rstrip (s : string) : all_digits s = true -> rstrip s = s.
Proof.
  induction s as [|c s IH]; [reflexivity|]. cbn [all_digits rstrip].
  intros H. apply andb_true_iff in H as [Hc Hs]. rewrite (IH Hs).
  destruct s; [|reflexivity]. now rewrite (digit_not_space c Hc).
Qed.

Lemma all_digits_strip (s : string) : all_digits s = true -> strip s = s.
Proof.
  intros H. unfold strip.
  assert (Hl : lstrip s = s).
  { destruct s as [|c s]; [reflexivity|]. cbn in *.
    apply andb_true_iff in H as [Hc _]. now rewrite (digit_not_space c Hc). }
  rewrite Hl. now apply all_digits_rstrip.
Qed.

Lemma all_digits_digitpart (s : string) :
  all_digits s = true ->
  forall acc n,
    exists z,
      digitpart acc n s = (z, (n + String.length s)%nat, EmptyString) /\
      acc * 10 ^ Z.of_nat (String.length s) <= z
      < (acc + 1) * 10 ^ Z.of_nat (String.length s).
Proof.
  induction s as [|c s IH]; intros H acc n.
  - exists acc. cbn. rewrite Nat.add_0_r. split; [reflexivity|lia].
  - cbn [all_digits] in H. apply andb_true_iff in H as [Hc Hs].
    cbn [digitpart]. rewrite Hc.
    destruct (IH Hs (10 * acc + digit_value c) (S n)) as (z & Hz & Hb).
    exists z. split.
    + rewrite Hz. cbn [String.length]. now rewrite Nat.add_succ_r.
    + pose proof (digit_value_range c Hc) as Hd.
      cbn [String.length]. rewrite Nat2Z.inj_succ, Z.pow_succ_r by lia.
      nia.
Qed.

(** [int] reads a text of one to seven digits as a number below
    10,000,000. *)
Lemma int_of_digits (s : string) :
  all_digits s = true ->
  (1 <= String.length s <= 7)%nat ->
  exists z, int_of_str s = Ok z /\ 0 <= z <= 9999999.
Proof.
  intros H Hlen. unfold int_of_str. rewrite (all_digits_strip s H).
  destruct s as [|c s]; [cbn in Hlen; lia|].
  assert (Hc : is_digit c = true)
    by (cbn in H; now apply andb_true_iff in H as [Hc _]).
  rewrite (digit_no_sign c s Hc).
  destruct (all_digits_digitpart (String c s) H 0 0%nat) as (z & Hz & Hb).
  rewrite Hz. cbn [Nat.add]. cbn [String.length] in *.
  exists z. split; [reflexivity|].
  assert (Hp : 10 ^ Z.of_nat (S (String.length s)) <= 10 ^ 7)
    by (apply Z.pow_le_mono_r; lia).
  change (10 ^ 7) with 10000000 in Hp. lia.
Qed.


(** What the group of the pattern can hold: one to seven digits. *)
Definition digit_run (x : string) : Prop :=
  all_digits x = true /\ (1 <= String.length x <= 7)%nat.

Lemma concat_digits (l : list string) :
  forallb digit_char l = true ->
  all_digits (String.concat "" l) = true /\
  String.length (String.concat "" l) = length l.
Proof.
  induction l as [|c l IH]; [now split|]. cbn [forallb]. intros H.
  apply andb_true_iff in H as [Hc Hl]. destruct (IH Hl) as [Ha Hn].
  destruct c as [|a [|b c]]; try discriminate. cbn in Hc.
  destruct l as [|d l].
  - cbn. now rewrite Hc.
  - change (String.concat "" (String a "" :: d :: l))
      with (String a (String.concat "" (d :: l))).
    cbn [all_digits String.length]. rewrite Hc, Ha, Hn. now split.
Qed.

Lemma span_spec (p : string -> bool) (s : list string) :
  forall hi,
    (span p hi s <= length s)%nat /\
    (forall n, hi = Some n -> (span p hi s <= n)%nat) /\
    forallb p (firstn (span p hi s) s) = true.
Proof.
  induction s as [|c s IH]; intros hi.
  - destruct hi as [[|n]|]; cbn; repeat split; try reflexivity; try lia;
      intros m H; lia.
  - destruct hi as [[|n]|]; cbn [span].
    + repeat split; [cbn; lia|intros m H; lia].
    + destruct (p c) eqn:Hc; [|repeat split; [cbn; lia|intros m H; lia]].
      destruct (IH (pred <$> Some (S n))) as (Hlen & Hhi & Hall).
      repeat split.
      * cbn [length]. lia.
      * intros m H. injection H as <-. specialize (Hhi n eq_refl). lia.
      * cbn [firstn forallb]. now rewrite Hc, Hall.
    + destruct (p c) eqn:Hc; [|repeat split; [cbn; lia|discriminate]].
      destruct (IH (pred <$> None)) as (Hlen & Hhi & Hall).
      repeat split.
      * cbn [length]. lia.
      * discriminate.
      * cbn [firstn forallb]. now rewrite Hc, Hall.
Qed.

Lemma forallb_firstn_le {A : Type} (p : A -> bool) (k n : nat) (l : list A) :
  (k <= n)%nat -> forallb p (firstn n l) = true ->
  forallb p (firstn k l) = true.
Proof.
  intros Hk H. rewrite forallb_forall in *. intros x Hx. apply H.
  rewrite <- (Nat.min_l k n Hk), <- firstn_firstn in Hx.
  rewrite <- (firstn_skipn k (firstn n l)). apply in_or_app. now left.
Qed.

(** The ways the group matches: each takes one to seven digits off the
    head of the text. *)
Lemma run_group_digits (cap : option string) (s : list string)
    (m : option string * list string) :
  In m (run (PGroup (PRep digit_char 1 (Some 7%nat))) cap s) ->
  exists x, fst m = Some x /\ digit_run x.
Proof.
  cbn [run]. rewrite map_map. unfold rep_rests. rewrite map_map.
  intros H. apply in_map_iff in H as (k & <- & Hk).
  apply in_rev, in_seq in Hk.
  destruct (span_spec digit_char s (Some 7%nat)) as (Hlen & Hhi & Hall).
  specialize (Hhi 7%nat eq_refl).
  set (n := span digit_char (Some 7%nat) s) in *.
  cbn [fst snd]. eexists. split; [reflexivity|].
  rewrite length_skipn.
  replace (length s - (length s - k))%nat with k by lia.
  destruct (concat_digits (firstn k s)) as [Ha Hn].
  { apply (forallb_firstn_le _ k n); [lia|exact Hall]. }
  split; [exact Ha|]. rewrite Hn, length_firstn. lia.
Qed.

(** What follows the group leaves the group's text as it is. *)
Lemma run_tail_keeps_group (cap : option string) (s : list string)
    (m : option string * list string) :
  In m (run (PCat (PRep space_char 0 None) (PStr (Scrape.chars "积分"))) cap s) ->
  fst m = cap.
Proof.
  cbn [run]. intros H. apply in_flat_map in H as (m1 & H1 & H2).
  apply in_map_iff in H1 as (rest & <- & _). cbn [fst snd] in H2.
  destruct (Scrape.strip_prefix _ rest); [|destruct H2].
  destruct H2 as [<-|[]]. reflexivity.
Qed.

Lemma run_points_pattern (s : list string) (m : option string * list string) :
  In m (run points_pattern None s) ->
  exists x, fst m = Some x /\ digit_run x.
Proof.
  unfold points_pattern. cbn [run]. intros H.
  apply in_flat_map in H as (m1 & H1 & H2).
  apply run_group_digits in H1 as (x & Hx & Hd).
  apply run_tail_keeps_group in H2. exists x. split; [congruence|exact Hd].
Qed.

Lemma findall_points_digits (s : list string) :
  forall skip, Forall digit_run (findall_from points_pattern skip s).
Proof.
  induction s as [|c s IH]; intros skip; [constructor|].
  cbn [findall_from]. destruct skip as [|k]; [|apply IH].
  destruct (run points_pattern None (c :: s)) as [|[cap after] rest] eqn:Hrun;
    [apply IH|].
  constructor; [|apply IH].
  destruct (run_points_pattern (c :: s) (cap, after)) as (x & Hx & Hd).
  { rewrite Hrun. now left. }
  cbn in Hx. subst cap. exact Hd.
Qed.

Lemma ints_of_digit_runs (l : list string) :
  Forall digit_run l ->
  exists zs,
    Scrape.ints l = Ok zs /\ Forall (fun z => 0 <= z <= 9999999) zs.
Proof.
  induction 1 as [|x l [Ha Hn] _ (zs & Hzs & Hb)].
  - exists []. split; [reflexivity|constructor].
  - destruct (int_of_digits x Ha Hn) as (z & Hz & Hzb).
    exists (z :: zs). cbn [Scrape.ints]. rewrite Hz, Hzs.
    split; [reflexivity|]. now constructor.
Qed.

Lemma fold_min_bounds (lo hi : Z) (l : list Z) :
  Forall (fun z => lo <= z <= hi) l ->
  forall x, lo <= x <= hi -> lo <= fold_left Z.min l x <= hi.
Proof.
  induction 1 as [|y l Hy _ IH]; intros x Hx; [exact Hx|].
  cbn [fold_left]. apply IH. lia.
Qed.

(** X16. On every text the least number of points is found without raising
    and lies between 0 and 9,999,999; it is 0 when the text is [None] or
    empty. *)
Theorem extract_min_points_total :
  forall (text : option string),
    (exists n, _extract_min_points text = Ok n /\ 0 <= n <= 9999999) /\
    (text = None \/ text = Some "" -> _extract_min_points text = Ok 0).
Proof.
  intros text. split.
  - unfold _extract_min_points.
    destruct (ints_of_digit_runs _
                (findall_points_digits (Scrape.chars (default "" text)) O))
      as (zs & Hzs & Hb).
    rewrite Hzs. cbn [mbind result_bind]. eexists. split; [reflexivity|].
    destruct Hb as [|z zs Hz Hb]; cbn [minimum from_option id]; [lia|].
    now apply fold_min_bounds.
  - intros [-> | ->]; reflexivity.
Qed.

(** The least of the amounts a page mentions. *)
Lemma extract_min_points_example :
  _extract_min_points (Some "需5000积分, 至少 2000 积分, 120积分以上")
  = Ok 120.
Proof. vm_compute. reflexivity. Qed.

End PointsFacts.

(** ** scrape.py: the crawl *)

Module CrawlFacts.
Import Py Crawl.
Import Specs(dict_set).

Definition not_in (seen : gset string) (u : string) : bool :=
  negb (bool_decide (u ∈ seen)).

(** Links already seen are the ones filtered out of a fresh pass. *)
Lemma union_absorb (seen1 seen2 : gset string) (u : string) :
  u ∈ seen1 -> seen1 ∪ ({[u]} ∪ seen2) = seen1 ∪ seen2.
Proof.
  intros Hu. apply set_eq. intros x.
  rewrite !elem_of_union, elem_of_singleton.
  split; [intros [H|[->|H]]; auto|intros [H|H]; auto].
Qed.

Lemma union_swap (seen1 seen2 : gset string) (u : string) :
  seen1 ∪ ({[u]} ∪ seen2) = {[u]} ∪ (seen1 ∪ seen2).
Proof.
  apply set_eq. intros x. rewrite !elem_of_union, elem_of_singleton. tauto.
Qed.

Lemma unique_from_union (hrefs : list string) :
  forall seen1 seen2,
    unique_from (seen1 ∪ seen2) hrefs
    = List.filter (not_in seen1) (unique_from seen2 hrefs).
Proof.
  induction hrefs as [|u rest IH]; intros seen1 seen2; [reflexivity|].
  cbn [unique_from].
  destruct (decide (u ∈ seen2)) as [H2|H2].
  - rewrite (bool_decide_eq_true_2 (u ∈ seen1 ∪ seen2))
      by (apply elem_of_union; now right).
    rewrite (bool_decide_eq_true_2 _ H2). apply IH.
  - rewrite (bool_decide_eq_false_2 _ H2). cbn [List.filter].
    unfold not_in at 1.
    destruct (decide (u ∈ seen1)) as [H1|H1].
    + rewrite (bool_decide_eq_true_2 (u ∈ seen1 ∪ seen2))
        by (apply elem_of_union; now left).
      rewrite (bool_decide_eq_true_2 _ H1). cbn [negb].
      now rewrite <- IH, union_absorb.
    + rewrite (bool_decide_eq_false_2 (u ∈ seen1 ∪ seen2))
        by (rewrite elem_of_union; tauto).
      rewrite (bool_decide_eq_false_2 _ H1). cbn [negb].
      now rewrite <- IH, union_swap.
Qed.

Definition differs (u v : string) : bool := negb (String.eqb v u).

Lemma unique_links_cons (u : string) (hrefs : list string) :
  unique_links (u :: hrefs)
  = u :: List.filter (differs u) (unique_links hrefs).
Proof.
  unfold unique_links. cbn [unique_from].
  rewrite (bool_decide_eq_false_2 (u ∈ (∅ : gset string)))
    by apply not_elem_of_empty.
  f_equal. rewrite unique_from_union. apply List.filter_ext. intros v.
  unfold not_in, differs. f_equal.
  destruct (String.eqb_spec v u) as [->|Hne].
  - apply bool_decide_eq_true_2. now apply elem_of_singleton.
  - apply bool_decide_eq_false_2. now rewrite elem_of_singleton.
Qed.

Lemma unique_links_In (hrefs : list string) (u : string) :
  In u (unique_links hrefs) <-> In u hrefs.
Proof.
  induction hrefs as [|v rest IH]; [reflexivity|].
  rewrite unique_links_cons. cbn [In]. rewrite filter_In, IH.
  unfold differs. destruct (String.eqb_spec u v) as [->|Hne]; cbn.
  - intuition.
  - intuition congruence.
Qed.

Lemma unique_links_NoDup (hrefs : list string) :
  List.NoDup (unique_links hrefs).
Proof.
  induction hrefs as [|v rest IH]; [constructor|].
  rewrite unique_links_cons. constructor.
  - rewrite filter_In. unfold differs. rewrite String.eqb_refl.
    intros [_ H]. discriminate.
  - now apply List.NoDup_filter.
Qed.

Lemma unique_links_fixed (links : list string) :
  List.NoDup links -> unique_links links = links.
Proof.
  induction 1 as [|u links Hnotin _ IH]; [reflexivity|].
  rewrite unique_links_cons, IH. f_equal.
  rewrite <- (List.forallb_filter_id (differs u) links) at 2; [reflexivity|].
  apply forallb_forall. intros v Hv. unfold differs.
  destruct (String.eqb_spec v u) as [->|Hne]; [contradiction|reflexivity].
Qed.

(** X17. The links to crawl are the links of the base page without
    repetitions: each link once, at the place of its first occurrence.  A
    list without repetitions is left as it is, so removing repetitions twice
    changes nothing. *)
Theorem unique_links_first_occurrences :
  forall (hrefs : list string),
    List.NoDup (unique_links hrefs) /\
    (forall u, In u (unique_links hrefs) <-> In u hrefs) /\
    (forall u,
       unique_links (u :: hrefs)
       = u :: List.filter (fun v => negb (String.eqb v u))
                (unique_links hrefs)) /\
    unique_links (unique_links hrefs) = unique_links hrefs.
Proof.
  intros hrefs. split; [apply unique_links_NoDup|].
  split; [intros u; apply unique_links_In|]. split.
  - intros u. apply unique_links_cons.
  - apply unique_links_fixed, unique_links_NoDup.
Qed.

(** *** The crawl *)

Lemma slice_to_NoDup {A : Type} (n : Z) (links : list A) :
  List.NoDup links -> List.NoDup (slice_to n links).
Proof.
  intros H. unfold slice_to.
  destruct (0 <=? n);
    match goal with
    | |- List.NoDup (firstn ?k links) =>
        rewrite <- (firstn_skipn k links) in H;
        exact (List.NoDup_app_remove_r _ _ H)
    end.
Qed.

Lemma slice_to_In {A : Type} (n : Z) (links : list A) (u : A) :
  In u (slice_to n links) -> In u links.
Proof.
  unfold slice_to.
  destruct (0 <=? n); intros H;
    match type of H with
    | In u (firstn ?k links) =>
        rewrite <- (firstn_skipn k links); apply in_or_app; now left
    end.
Qed.

Section Pages.
Context {Spec : Type} (page : string -> outcome Spec).

(** The assignment [apis[name] = spec]. *)
Definition record (apis : list (string * Spec)) (r : string * Spec)
  : list (string * Spec) :=
  dict_set (fst r) (snd r) apis.

Definition named (api_name : string) (r : string * Spec) : bool :=
  String.eqb (fst r) api_name.

(** The endpoints the pages of [links] give, in the order of the links. *)
Definition fetched (links : list string) : list (string * Spec) :=
  flat_map (fun url =>
              match page url with
              | Parsed (Some r) => [r]
              | _ => []
              end)
    links.

(** No page of [links] makes the parser raise. *)
Definition parsable (links : list string) : Prop :=
  forall url e, In url links -> page url <> Broken e.

(** On links without repetition, none of them visited, the guard on
    [visited] never fires: every link is fetched, once and in order. *)
Lemma crawl_fold (links : list string) :
  List.NoDup links ->
  parsable links ->
  forall visited apis,
    (forall u, In u links -> u ∉ visited) ->
    crawl page visited apis links
    = Ok (fold_left record (fetched links) apis).
Proof.
  induction 1 as [|url links Hnotin Hnd IH]; intros Hp visited apis Hfresh;
    [reflexivity|].
  cbn [crawl fetched flat_map].
  rewrite (bool_decide_eq_false_2 _ (Hfresh url (or_introl eq_refl))).
  assert (Hrest : forall u, In u links -> u ∉ {[url]} ∪ visited).
  { intros u Hu. rewrite elem_of_union, elem_of_singleton.
    intros [->|Hv]; [contradiction|]. exact (Hfresh u (or_intror Hu) Hv). }
  assert (Hp' : parsable links).
  { intros u e Hu. apply Hp. now right. }
  pose proof (Hp url) as Hurl.
  destruct (page url) as [|e|[[api_name spec]|]]; cbn [app fold_left].
  - now rewrite (IH Hp' _ _ Hrest).
  - exfalso. now apply (Hurl e (or_introl eq_refl)).
  - now rewrite (IH Hp' _ _ Hrest).
  - now rewrite (IH Hp' _ _ Hrest).
Qed.

(** The first page that makes the parser raise ends the crawl. *)
Lemma crawl_raises (before after : list string) (url : string) (e : exn) :
  List.NoDup (before ++ url :: after) ->
  parsable before ->
  page url = Broken e ->
  forall visited apis,
    (forall u, In u (before ++ url :: after) -> u ∉ visited) ->
    crawl page visited apis (before ++ url :: after) = Raise e.
Proof.
  induction before as [|u before IH]; intros Hnd Hp Hurl visited apis Hfresh.
  - cbn [app crawl].
    rewrite (bool_decide_eq_false_2 _ (Hfresh url (or_introl eq_refl))).
    now rewrite Hurl.
  - cbn [app crawl].
    rewrite (bool_decide_eq_false_2 _ (Hfresh u (or_introl eq_refl))).
    inversion Hnd as [|? ? Hnotin Hnd']; subst.
    assert (Hrest : forall v, In v (before ++ url :: after) ->
                              v ∉ {[u]} ∪ visited).
    { intros v Hv. rewrite elem_of_union, elem_of_singleton.
      intros [->|Hin]; [contradiction|].
      exact (Hfresh v (or_intror Hv) Hin). }
    assert (Hp' : parsable before).
    { intros v e' Hv. apply Hp. now right. }
    pose proof (Hp u) as Hu.
    destruct (page u) as [|e'|[[api_name spec]|]].
    + now apply IH.
    + exfalso. now apply (Hu e' (or_introl eq_refl)).
    + now apply IH.
    + now apply IH.
Qed.

Lemma fold_record_keys (rs : list (string * Spec)) :
  forall apis,
    List.NoDup (map fst apis) ->
    List.NoDup (map fst (fold_left record rs apis)).
Proof.
  induction rs as [|r rs IH]; intros apis H; [exact H|].
  cbn [fold_left]. apply IH. now apply DictFacts.dict_set_NoDup.
Qed.

(** A name holds what the last assignment to it gave. *)
Lemma fold_record_assoc (api_name : string) (rs : list (string * Spec)) :
  forall apis,
    assoc api_name (fold_left record rs apis)
    = match last (List.filter (named api_name) rs) with
      | Some r => Some (snd r)
      | None => assoc api_name apis
      end.
Proof.
  induction rs as [|r rs IH]; intros apis; [reflexivity|].
  cbn [fold_left List.filter]. rewrite IH. unfold named at 2, record.
  destruct (String.eqb_spec (fst r) api_name) as [<-|Hne].
  - rewrite last_cons.
    destruct (last (List.filter (named (fst r)) rs)); [reflexivity|].
    now rewrite DictFacts.assoc_dict_set_eq.
  - destruct (last (List.filter (named api_name) rs)); [reflexivity|].
    apply DictFacts.assoc_dict_set_ne. congruence.
Qed.

Lemma capped_NoDup (max_pages : option Z) (hrefs : list string) :
  List.NoDup (capped max_pages (unique_links hrefs)).
Proof.
  unfold capped. destruct max_pages as [n|];
    [apply slice_to_NoDup|]; apply unique_links_NoDup.
Qed.

(** X18. When no page among the links kept makes the parser raise, the
    crawl fetches each of them once, the guard on visited links never
    firing, and returns a catalog with one entry for each endpoint name
    found, holding the spec of the last page that gave that name; [count]
    is the number of entries.  Otherwise the parser's error at the first
    such page ends the crawl and no catalog is returned. *)
Theorem scrape_catalog_entries :
  forall (max_pages : option Z) (hrefs : list string),
    (parsable (capped max_pages (unique_links hrefs)) ->
     exists apis,
       scrape page max_pages hrefs = Ok (apis, Z.of_nat (length apis)) /\
       apis
       = fold_left record
           (fetched (capped max_pages (unique_links hrefs))) [] /\
       List.NoDup (map fst apis) /\
       (forall api_name,
          assoc api_name apis
          = snd <$> last (List.filter (named api_name)
                            (fetched (capped max_pages (unique_links hrefs)))))) /\
    (forall before after url e,
       capped max_pages (unique_links hrefs) = (before ++ url :: after)%list ->
       parsable before ->
       page url = Broken e ->
       scrape page max_pages hrefs = Raise e).
Proof.
  intros max_pages hrefs. set (links := capped max_pages (unique_links hrefs)).
  assert (Hnd : List.NoDup links) by apply capped_NoDup.
  split.
  - intros Hp. eexists. unfold scrape. fold links.
    rewrite (crawl_fold links Hnd Hp ∅ [])
      by (intros u _; apply not_elem_of_empty).
    cbn [mbind result_bind]. split; [reflexivity|].
    split; [reflexivity|]. split.
    + apply fold_record_keys. constructor.
    + intros api_name. rewrite fold_record_assoc.
      now destruct (last (List.filter (named api_name) (fetched links))).
  - intros before after url e Heq Hp Hurl. unfold scrape. fold links.
    rewrite Heq in *.
    rewrite (crawl_raises before after url e Hnd Hp Hurl ∅ [])
      by (intros u _; apply not_elem_of_empty).
    reflexivity.
Qed.

End Pages.

(** Three links, the second met twice; the page of the last one has a
    table the parser cannot read. *)
Definition example_page (url : string) : outcome Z :=
  if String.eqb url "doc_id=25" then Parsed (Some ("daily", 25))
  else if String.eqb url "doc_id=26" then Unreachable
  else if String.eqb url "doc_id=27" then Broken Error
  else Parsed None.

Lemma scrape_catalog_entries_witness :
  scrape example_page (Some 2)
    ["doc_id=25"; "doc_id=26"; "doc_id=26"; "doc_id=27"]
  = Ok ([("daily", 25)], 1) /\
  scrape example_page None
    ["doc_id=25"; "doc_id=26"; "doc_id=26"; "doc_id=27"]
  = Raise Error.
Proof.
  split.
  - destruct (proj1 (scrape_catalog_entries example_page (Some 2)
                       ["doc_id=25"; "doc_id=26"; "doc_id=26"; "doc_id=27"]))
      as (apis & Hs & Heq & _).
    + intros url e Hin. vm_compute in Hin.
      destruct Hin as [<-|[<-|[]]]; discriminate.
    + rewrite Hs, Heq. reflexivity.
  - apply (proj2 (scrape_catalog_entries example_page None
                    ["doc_id=25"; "doc_id=26"; "doc_id=26"; "doc_id=27"])
             ["doc_id=25"; "doc_id=26"] [] "doc_id=27" Error).
    + reflexivity.
    + intros url e Hin. destruct Hin as [<-|[<-|[]]]; discriminate.
    + reflexivity.
Defined.

End CrawlFacts.

(** ** client.py: the provider handle *)

Module ClientFacts.
Import Py Client.

(** An environment variable that is set and not empty. *)
Definition set_to (v : option string) (token : string) : Prop :=
  v = Some token /\ token <> "".

Definition unset (v : option string) : Prop := v = None \/ v = Some "".

Section Provider.
Context {Handle Fn : Type}
        (import_error : option string)
        (pro_api : string -> Handle)
        (attribute : Handle -> string -> option (Fn + unit)).

Lemma from_env_token (environ : gmap string string) (token : string) :
  set_to (environ !! "TUSHARE_TOKEN") token \/
  (unset (environ !! "TUSHARE_TOKEN") /\
   set_to (environ !! "TS_TOKEN") token) ->
  _token (from_env (Handle := Handle) environ) = Some token /\
  falsy (Some token) = false.
Proof.
  unfold from_env, set_to, unset. cbn [_token].
  intros [[-> Hne]|[[-> | ->] [-> Hne]]]; cbn;
    apply String.eqb_neq in Hne; rewrite ?Hne; now split.
Qed.

(** X19. A client made from the environment takes the token of
    [TUSHARE_TOKEN] when that is set and not empty, and otherwise the one of
    [TS_TOKEN]; the provider handle is built from it on first use.  With
    neither set, every lookup fails with the missing-token error and the
    client stays as it was. *)
Theorem from_env_token_precedence :
  forall (environ : gmap string string),
    (forall token,
       set_to (environ !! "TUSHARE_TOKEN") token \/
       (unset (environ !! "TUSHARE_TOKEN") /\
        set_to (environ !! "TS_TOKEN") token) ->
       _get_pro import_error pro_api (from_env environ)
       = match import_error with
         | Some e =>
             (Failed (RuntimeError ("Failed to import `tushare`: " ++ e)),
              from_env environ)
         | None =>
             (Done (pro_api token),
              {| _token := Some token; _pro := Some (pro_api token) |})
         end) /\
    (unset (environ !! "TUSHARE_TOKEN") -> unset (environ !! "TS_TOKEN") ->
     forall api_name,
       get_api import_error pro_api attribute (from_env environ) api_name
       = (Failed (RuntimeError
                    "Missing Tushare token. Set env `TUSHARE_TOKEN` (or `TS_TOKEN`)."),
          from_env environ)).
Proof.
  intros environ. split.
  - intros token H. destruct (from_env_token environ token H) as [Ht Hf].
    unfold Client._get_pro. cbn [_pro from_env]. cbn [_token from_env] in *.
    rewrite Ht, Hf. now destruct import_error.
  - intros H1 H2 api_name. unfold Client.get_api, Client._get_pro, from_env.
    cbn [_pro _token].
    destruct H1 as [-> | ->], H2 as [-> | ->]; reflexivity.
Qed.

(** X20. Looking an endpoint up never changes the token.  Once the client
    holds a provider handle, lookups leave the client as it is and use that
    handle.  A lookup that fails for want of a token or of the library
    leaves the client without a handle, as it was; any other lookup, also
    one that fails on an unknown name, leaves a handle behind. *)
Theorem get_api_caches_handle :
  forall (self : TushareClient) (api_name : string),
    let after := get_api import_error pro_api attribute self api_name in
    _token (snd after) = _token self /\
    (forall pro,
       _pro self = Some pro ->
       after
       = (match attribute pro api_name with
          | Some (inl fn) => Done fn
          | _ => Failed (AttributeError ("Unknown Tushare API: " ++ api_name))
          end, self)) /\
    (forall message,
       fst after = Failed (RuntimeError message) ->
       snd after = self /\ _pro self = None) /\
    ((forall message, fst after <> Failed (RuntimeError message)) ->
     exists pro,
       _pro (snd after) = Some pro /\
       forall other,
         snd (get_api import_error pro_api attribute (snd after) other)
         = snd after).
Proof.
  intros [token [pro|]] api_name after; subst after;
    unfold Client.get_api, Client._get_pro; cbn [_pro _token].
  - split; [|split; [|split]].
    + now destruct (attribute pro api_name) as [[fn|[]]|].
    + intros pro' H. injection H as <-.
      now destruct (attribute pro api_name) as [[fn|[]]|].
    + intros message.
      now destruct (attribute pro api_name) as [[fn|[]]|].
    + intros _. exists pro.
      destruct (attribute pro api_name) as [[fn|[]]|]; cbn [snd _pro];
        (split; [reflexivity|]); intros other;
        now destruct (attribute pro other) as [[fn'|[]]|].
  - destruct (falsy token) eqn:Hf.
    + split; [reflexivity|]. split; [discriminate|].
      split; [now intros message _|].
      intros H. now destruct (H _ eq_refl).
    + destruct import_error as [e|].
      * split; [reflexivity|]. split; [discriminate|].
        split; [now intros message _|].
        intros H. now destruct (H _ eq_refl).
      * set (pro := pro_api (default "" token)).
        split; [now destruct (attribute pro api_name) as [[fn|[]]|]|].
        split; [discriminate|]. split.
        -- intros message.
           now destruct (attribute pro api_name) as [[fn|[]]|].
        -- intros _. exists pro.
           destruct (attribute pro api_name) as [[fn|[]]|]; cbn [snd _pro];
             (split; [reflexivity|]); intros other;
             now destruct (attribute pro other) as [[fn'|[]]|].
Qed.

End Provider.

Lemma from_env_token_precedence_witness :
  _get_pro None (fun token => "handle:" ++ token)
    (from_env {[ "TUSHARE_TOKEN" := ""; "TS_TOKEN" := "abc" ]})
  = (Done "handle:abc",
     {| _token := Some "abc"; _pro := Some "handle:abc" |}).
Proof.
  apply (proj1 (from_env_token_precedence None (fun token => "handle:" ++ token)
                  (fun (_ : string) (_ : string) => @None (unit + unit))
                  {[ "TUSHARE_TOKEN" := ""; "TS_TOKEN" := "abc" ]}) "abc").
  right. split.
  - right. reflexivity.
  - split; [reflexivity|discriminate].
Defined.

End ClientFacts.

(** ** scrape.py: the endpoint's name and the permission note *)

Module PageFacts.
Import Py Points Page PointsFacts.

(** A name: a letter or an underscore, then letters, digits and
    underscores. *)
Fixpoint name_chars (s : string) : bool :=
  match s with
  | EmptyString => true
  | String a rest =>
      (is_letter a || is_digit a || Ascii.eqb a "_") && name_chars rest
  end.

Definition is_name (s : string) : bool :=
  match s with
  | EmptyString => false
  | String a rest => (is_letter a || Ascii.eqb a "_") && name_chars rest
  end.

Lemma concat_name_chars (l : list string) :
  forallb name_char l = true -> name_chars (String.concat "" l) = true.
Proof.
  induction l as [|c l IH]; [reflexivity|]. cbn [forallb]. intros H.
  apply andb_true_iff in H as [Hc Hl]. specialize (IH Hl).
  destruct c as [|a [|b c]]; try discriminate. cbn in Hc.
  destruct l as [|d l].
  - cbn. now rewrite Hc.
  - change (String.concat "" (String a "" :: d :: l))
      with (String a (String.concat "" (d :: l))).
    cbn [name_chars]. now rewrite Hc, IH.
Qed.

Lemma concat_name (c : string) (l : list string) :
  name_start c = true -> forallb name_char l = true ->
  is_name (String.concat "" (c :: l)) = true.
Proof.
  intros Hc Hl. apply concat_name_chars in Hl.
  destruct c as [|a [|b c]]; try discriminate. cbn in Hc.
  destruct l as [|d l].
  - cbn. now rewrite Hc.
  - change (String.concat "" (String a "" :: d :: l))
      with (String a (String.concat "" (d :: l))).
    cbn [is_name]. now rewrite Hc, Hl.
Qed.

(** The ways the group matches: each takes a name off the head of the
    text. *)
Lemma run_name_group (cap : option string) (s : list string)
    (m : option string * list string) :
  In m (run (PGroup (PCat (PRep name_start 1 (Some 1%nat))
                          (PRep name_char 0 None))) cap s) ->
  exists x, fst m = Some x /\ is_name x = true.
Proof.
  cbn [run]. intros H. apply in_map_iff in H as (m2 & <- & H).
  apply in_flat_map in H as (m1 & H1 & H2).
  apply in_map_iff in H1 as (rest1 & <- & H1). cbn [fst snd] in H2.
  apply in_map_iff in H2 as (rest2 & <- & H2). cbn [fst snd].
  unfold rep_rests in H1, H2.
  apply in_map_iff in H1 as (k & <- & Hk). apply in_rev, in_seq in Hk.
  apply in_map_iff in H2 as (j & <- & Hj). apply in_rev, in_seq in Hj.
  destruct (span_spec name_start s (Some 1%nat)) as (Hlen & Hhi & Hall).
  specialize (Hhi 1%nat eq_refl).
  assert (Hk1 : k = 1%nat /\ span name_start (Some 1%nat) s = 1%nat).
  { revert Hk Hhi. generalize (span name_start (Some 1%nat) s). lia. }
  destruct Hk1 as [-> Hspan]. rewrite Hspan in Hall, Hlen.
  destruct s as [|c s]; [cbn in Hlen; lia|].
  cbn [firstn forallb] in Hall. rewrite andb_true_r in Hall.
  change (skipn 1 (c :: s)) with s in *.
  destruct (span_spec name_char s None) as (Hlen' & _ & Hall').
  set (n := span name_char None s) in *.
  eexists. split; [reflexivity|].
  rewrite length_skipn. cbn [length].
  replace (S (length s) - (length s - j))%nat with (S j) by lia.
  cbn [firstn]. apply concat_name; [exact Hall|].
  apply (forallb_firstn_le _ j n); [lia|exact Hall'].
Qed.

Lemma run_cat_last (r1 r2 : pattern) (cap : option string) (s : list string)
    (m : option string * list string) :
  In m (run (PCat r1 r2) cap s) ->
  exists cap' s', In m (run r2 cap' s').
Proof.
  cbn [run]. intros H. apply in_flat_map in H as (m1 & _ & H).
  now exists (fst m1), (snd m1).
Qed.

Lemma run_name_pattern (s : list string) (m : option string * list string) :
  In m (run name_pattern None s) ->
  exists x, fst m = Some x /\ is_name x = true.
Proof.
  unfold name_pattern. intros H.
  apply run_cat_last in H as (c1 & s1 & H).
  apply run_cat_last in H as (c2 & s2 & H).
  apply run_cat_last in H as (c3 & s3 & H).
  exact (run_name_group _ _ _ H).
Qed.

Lemma search_name_pattern (s : list string) (cap : option string) :
  search name_pattern s = Some cap ->
  exists x, cap = Some x /\ is_name x = true.
Proof.
  induction s as [|c s IH]; cbn [search].
  - destruct (run name_pattern None []) as [|[cap' rest] l] eqn:Hrun;
      [discriminate|].
    intros H. injection H as <-.
    destruct (run_name_pattern [] (cap', rest)) as (x & Hx & Hn);
      [rewrite Hrun; now left|]. now exists x.
  - destruct (run name_pattern None (c :: s)) as [|[cap' rest] l] eqn:Hrun;
      [exact IH|].
    intros H. injection H as <-.
    destruct (run_name_pattern (c :: s) (cap', rest)) as (x & Hx & Hn);
      [rewrite Hrun; now left|]. now exists x.
Qed.

(** X21. A name taken from the text of a page is always a well-formed
    name: a letter or an underscore followed by letters, digits and
    underscores, never empty.  A missing or empty text gives no name. *)
Theorem extract_api_name_from_text_is_name :
  forall (text : option string),
    (forall name,
       _extract_api_name_from_text text = Some name -> is_name name = true) /\
    (text = None \/ text = Some "" ->
     _extract_api_name_from_text text = None).
Proof.
  intros text. split.
  - intros name. unfold _extract_api_name_from_text.
    destruct text as [text|]; [|discriminate].
    destruct (String.eqb text ""); [discriminate|].
    destruct (search name_pattern (Scrape.chars text)) as [cap|] eqn:Hs;
      [|discriminate].
    intros ->. apply search_name_pattern in Hs as (x & Hx & Hn).
    now injection Hx as <-.
  - intros [-> | ->]; reflexivity.
Qed.

(** The name after the word, up to the first character that is not of a
    name. *)
Lemma extract_api_name_from_text_example :
  _extract_api_name_from_text (Some "日线行情 接口： daily_basic，描述")
  = Some "daily_basic".
Proof. vm_compute. reflexivity. Qed.

(** *** [needle in hay] *)

Lemma prefix_iff (a h : string) :
  String.prefix a h = true <-> exists rest, h = a ++ rest.
Proof.
  revert h. induction a as [|c a IH]; intros h.
  - split; [intros _; now exists h|now destruct h].
  - destruct h as [|d h]; cbn [String.prefix].
    + split; [discriminate|intros [rest H]; discriminate].
    + destruct (ascii_dec c d) as [->|Hne].
      * rewrite IH. split; intros [rest H]; exists rest.
        -- rewrite H. reflexivity.
        -- change (String d a ++ rest) with (String d (a ++ rest)) in H.
           now injection H.
      * split; [discriminate|]. intros [rest H].
        change (String c a ++ rest) with (String c (a ++ rest)) in H.
        injection H as Hd _. congruence.
Qed.

Lemma contains_iff (a h : string) :
  contains a h = true <-> exists before rest, h = before ++ a ++ rest.
Proof.
  induction h as [|d h IH]; cbn [contains]; rewrite orb_true_iff, prefix_iff.
  - split.
    + intros [[rest H]|H]; [|discriminate]. now exists "", rest.
    + intros (before & rest & H). left.
      destruct before; [now exists rest|discriminate].
  - rewrite IH. split.
    + intros [[rest H]|(before & rest & H)].
      * now exists "", rest.
      * exists (String d before), rest. rewrite H. reflexivity.
    + intros (before & rest & H). destruct before as [|c before].
      * left. now exists rest.
      * right.
        change (String c before ++ a ++ rest)
          with (String c (before ++ a ++ rest)) in H.
        injection H as _ H. now exists before, rest.
Qed.

(** X22. A page is taken to need a permission of its own exactly when its
    text holds one of the six phrases somewhere; a missing or empty text
    never does. *)
Theorem detect_permission_required_iff :
  forall (text : option string),
    _detect_permission_required text = true <->
    exists kw before rest,
      In kw permission_phrases /\ text = Some (before ++ kw ++ rest).
Proof.
  intros [text|]; cbn [_detect_permission_required].
  - destruct (String.eqb_spec text "") as [->|Hne].
    + split; [discriminate|]. intros (kw & before & rest & Hin & H).
      injection H as H. destruct before; [|discriminate].
      cbn in Hin. cbn in H.
      repeat (destruct Hin as [<-|Hin]; [discriminate|]). destruct Hin.
    + rewrite existsb_exists. split.
      * intros (kw & Hin & Hc).
        apply contains_iff in Hc as (before & rest & ->).
        now exists kw, before, rest.
      * intros (kw & before & rest & Hin & H). injection H as ->.
        exists kw. split; [exact Hin|]. apply contains_iff.
        now exists before, rest.
  - split; [discriminate|]. intros (kw & before & rest & _ & H). discriminate.
Qed.

End PageFacts.

(** ** scrape.py: cells and tables *)

Module TableFacts.
Import Py DictFacts SpecsLaws.
Import Specs(dict_set).
Import Rows Table.

Definition required_marks : list string :=
  ["y"; "yes"; "是"; "必填"; "required"; "true"; "1"].

Lemma strip_lower (s : string) : strip (lower s) = lower (strip s).
Proof. unfold strip. now rewrite lstrip_lower, rstrip_lower. Qed.

(** X23. Whether a cell marks a parameter as required does not depend on
    the case of its letters or on white space around it: the cell counts
    when, stripped and in lower case, it is one of y, yes, 是, 必填,
    required, true and 1. *)
Theorem is_required_ignores_case_and_blanks :
  forall (v : string),
    (_is_required v = true <-> In (lower (strip v)) required_marks) /\
    _is_required (strip v) = _is_required v /\
    _is_required (lower v) = _is_required v.
Proof.
  intros v. unfold _is_required. split; [|split].
  - apply ScrapeFacts.mem_str_In.
  - now rewrite strip_idem.
  - now rewrite strip_lower, lower_idem.
Qed.

(** *** [_parse_table] *)

Lemma dict_set_fresh {A : Type} (k : string) (v : A)
    (items : list (string * A)) :
  ~ In k (map fst items) -> dict_set k v items = (items ++ [(k, v)])%list.
Proof.
  induction items as [|[k' v'] items IH]; cbn [dict_set map fst In app];
    intros H; [reflexivity|].
  destruct (String.eqb_spec k k') as [->|Hne]; [tauto|].
  rewrite IH; tauto.
Qed.

Lemma build_row_keys (headers : list string) :
  forall values row,
    (forall k, In k (map fst (build_row headers values row)) <->
               In k headers \/ In k (map fst row)) /\
    (List.NoDup (map fst row) ->
     List.NoDup (map fst (build_row headers values row))).
Proof.
  induction headers as [|h headers IH]; intros values row; cbn [build_row].
  - split; [intros k; cbn; tauto|trivial].
  - destruct (IH (tl values) (dict_set h (hd "" values) row)) as [Hk Hn].
    split.
    + intros k. rewrite Hk, dict_set_keys. cbn [In]. intuition.
    + intros H. now apply Hn, dict_set_NoDup.
Qed.

(** With distinct headers, none of them in [row]: the headers are added in
    order, each with the cell of its column. *)
Lemma build_row_columns (headers : list string) :
  List.NoDup headers ->
  forall values row,
    (forall h, In h headers -> ~ In h (map fst row)) ->
    map fst (build_row headers values row) = (map fst row ++ headers)%list /\
    (forall i h, nth_error headers i = Some h ->
                 assoc h (build_row headers values row)
                 = Some (nth i values "")) /\
    (forall k, ~ In k headers ->
               assoc k (build_row headers values row) = assoc k row).
Proof.
  induction 1 as [|h headers Hnotin Hnd IH]; intros values row Hfresh;
    cbn [build_row].
  - split; [now rewrite app_nil_r|]. split; [|reflexivity].
    intros [|i] h H; discriminate.
  - assert (Hh : ~ In h (map fst row)) by (apply Hfresh; now left).
    destruct (IH (tl values) (dict_set h (hd "" values) row))
      as (Hkeys & Hcols & Hother).
    { intros h' Hin. rewrite dict_set_keys. intros [->|H]; [contradiction|].
      apply (Hfresh h'); [now right|exact H]. }
    split; [|split].
    + rewrite Hkeys, (dict_set_fresh h _ row Hh), map_app, <- app_assoc.
      reflexivity.
    + intros [|i] h' H.
      * injection H as <-. rewrite (Hother h Hnotin), assoc_dict_set_eq.
        now destruct values.
      * cbn [nth_error] in H. rewrite (Hcols i h' H).
        destruct values as [|v values]; [now destruct i|reflexivity].
    + intros k Hk. rewrite Hother by (intros Hin; apply Hk; now right).
      apply assoc_dict_set_ne. intros ->. apply Hk. now left.
Qed.

Definition has_cells (cells : list string) : bool :=
  match cells with [] => false | _ :: _ => true end.

(** X24. A table without any row cannot be read (the header lookup
    fails).  Otherwise one dict is returned for each body row that has
    cells, in order, and the keys of each are the header texts, each
    once. *)
Theorem parse_table_row_keys :
  forall (headers : list string) (body : list (list string)),
    _parse_table [] = None /\
    exists rows,
      _parse_table (headers :: body) = Some rows /\
      length rows = length (List.filter has_cells body) /\
      Forall (fun row =>
                List.NoDup (map fst row) /\
                forall h, In h (map fst row) <-> In h headers) rows.
Proof.
  intros headers body. split; [reflexivity|]. eexists.
  split; [reflexivity|]. split.
  - induction body as [|[|c cells] body IH];
      cbn [flat_map List.filter has_cells]; [reflexivity|exact IH|].
    cbn [app length]. now rewrite IH.
  - apply List.Forall_forall. intros row Hin.
    apply in_flat_map in Hin as ([|c cells] & _ & Hrow); [destruct Hrow|].
    destruct Hrow as [<-|[]].
    destruct (build_row_keys headers (c :: cells) []) as [Hk Hn]. split.
    + apply Hn. constructor.
    + intros h. rewrite Hk. cbn. tauto.
Qed.

(** X25. With distinct header texts, the dict of a body row has the headers
    as its keys in the order of the columns, and gives each header the text
    of the cell in its column, or the empty string when the row is too
    short; cells beyond the last header are dropped. *)
Theorem parse_table_columns :
  forall (headers : list string) (body : list (list string)),
    List.NoDup headers ->
    exists rows,
      _parse_table (headers :: body) = Some rows /\
      rows = map (fun cells => build_row headers cells [])
               (List.filter has_cells body) /\
      forall cells,
        map fst (build_row headers cells []) = headers /\
        forall i h,
          nth_error headers i = Some h ->
          assoc h (build_row headers cells []) = Some (nth i cells "").
Proof.
  intros headers body Hnd. eexists. split; [reflexivity|]. split.
  - induction body as [|[|c cells] body IH];
      cbn [flat_map List.filter has_cells map]; [reflexivity|exact IH|].
    cbn [app]. now rewrite IH.
  - intros cells.
    destruct (build_row_columns headers Hnd cells []) as (Hkeys & Hcols & _);
      [intros h _ []|].
    split; [exact Hkeys|exact Hcols].
Qed.

Lemma parse_table_columns_witness :
  exists rows,
    _parse_table [["名称"; "类型"; "必填"]; ["ts_code"; "str"; "Y"; "x"]; [];
                  ["trade_date"]]
    = Some rows /\
    rows = [ [("名称", "ts_code"); ("类型", "str"); ("必填", "Y")];
             [("名称", "trade_date"); ("类型", ""); ("必填", "")] ].
Proof.
  destruct (parse_table_columns ["名称"; "类型"; "必填"]
              [["ts_code"; "str"; "Y"; "x"]; []; ["trade_date"]])
    as (rows & Hrows & Heq & _).
  - repeat constructor; cbn; intros H;
      repeat (destruct H as [H|H]; [discriminate|]); exact H.
  - exists rows. split; [exact Hrows|]. rewrite Heq. reflexivity.
Defined.


(** *** From a table to a schema *)

Definition name_headers : list string :=
  ["参数名称"; "参数"; "字段"; "名称"; "字段名"; "name"].

Lemma pick_absent (row : list (string * string)) (keys : list string) :
  (forall k, In k keys -> ~ In k (map fst row)) -> pick row keys = "".
Proof.
  induction keys as [|k keys IH]; intros H; [reflexivity|]. cbn [pick].
  destruct (assoc k row) as [v|] eqn:Hk.
  - exfalso. apply (H k); [now left|]. apply assoc_is_Some. rewrite Hk.
    now eexists.
  - apply IH. intros k' Hk'. apply H. now right.
Qed.

(** X26. A table none of whose header texts is one of the headers a name is
    looked up under yields nothing: the input schema built from its rows
    has no property and no required name, and the output schema no field,
    whatever the rows hold. *)
Theorem unrecognized_headers_give_empty_schemas :
  forall (headers : list string) (body : list (list string)),
    (forall h, In h name_headers -> ~ In h headers) ->
    exists rows,
      _parse_table (headers :: body) = Some rows /\
      _map_input_rows rows = {| properties := []; required := [] |} /\
      _map_output_rows rows = [].
Proof.
  intros headers body Hnone.
  destruct (parse_table_row_keys headers body)
    as [_ (rows & Hrows & _ & Hkeys)].
  exists rows. split; [exact Hrows|].
  assert (Hin : Forall (fun row => input_name row = "") rows).
  { eapply List.Forall_impl; [|exact Hkeys]. intros row [_ Hk].
    unfold input_name. rewrite pick_absent; [reflexivity|].
    intros k Hkin Hrow. exact (Hnone k Hkin (proj1 (Hk k) Hrow)). }
  assert (Hout : Forall (fun row => output_name row = "") rows).
  { eapply List.Forall_impl; [|exact Hkeys]. intros row [_ Hk].
    unfold output_name. rewrite pick_absent; [reflexivity|].
    intros k Hkin Hrow. apply (Hnone k); [|exact (proj1 (Hk k) Hrow)].
    unfold name_headers. cbn in *. tauto. }
  split.
  - unfold _map_input_rows.
    assert (Hfold : forall st, fold_left input_row rows st = st).
    { clear -Hin. induction Hin as [|row rows Hrow _ IH]; intros st;
        [reflexivity|].
      cbn [fold_left]. unfold input_row at 2. rewrite Hrow. cbn. apply IH. }
    rewrite Hfold. cbn [properties required list_to_set].
    now rewrite elements_empty.
  - clear -Hout. induction Hout as [|row rows Hrow _ IH]; [reflexivity|].
    cbn [_map_output_rows]. unfold output_row. now rewrite Hrow.
Qed.

Lemma unrecognized_headers_give_empty_schemas_witness :
  exists rows,
    _parse_table [["Field"; "Type"]; ["ts_code"; "str"]] = Some rows /\
    _map_input_rows rows = {| properties := []; required := [] |} /\
    _map_output_rows rows = [].
Proof.
  apply (unrecognized_headers_give_empty_schemas
           ["Field"; "Type"] [["ts_code"; "str"]]).
  intros h Hh Hin. cbn in Hh, Hin.
  repeat (destruct Hh as [<-|Hh];
          [repeat (destruct Hin as [Hin|Hin]; [discriminate|]); exact Hin|]).
  exact Hh.
Defined.

End TableFacts.

(** ** capture_storage_state.py: when the page counts as logged in *)

Module CaptureCases.
Import Py Capture.

(** X27. The page counts as logged in exactly when its URL is not a login
    URL (it cannot be read, is missing, or does not contain "login"), or
    local storage is read and has a key with "token" or "auth" in it, or
    the cookies are read and one has "token", "session" or "auth" in its
    name, letter case aside. *)
Theorem looks_logged_in_iff :
  forall (page : Page),
    _looks_logged_in page = true <->
    (forall u, url page = Ok (Some u) -> contains "login" u = false) \/
    (exists keys k,
       local_storage_keys page = Ok keys /\ In k keys /\
       storage_key_hit k = true) \/
    (exists cookies c,
       cookie_names page = Ok cookies /\ In c cookies /\
       cookie_hit c = true).
Proof.
  intros [u keys cookies]. unfold _looks_logged_in.
  cbn [url local_storage_keys cookie_names].
  assert (Hurl :
    negb (contains "login" (try_except (u0 ← u; Ok (default "" u0)) ""))
    = true <->
    (forall u1, u = Ok (Some u1) -> contains "login" u1 = false)).
  { destruct u as [[u1|]|e]; cbn.
    - rewrite negb_true_iff. split.
      + intros H u2 Heq. now injection Heq as <-.
      + intros H. now apply H.
    - split; [discriminate|reflexivity].
    - split; [discriminate|reflexivity]. }
  assert (Hkeys :
    try_except (ks ← keys; Ok (existsb storage_key_hit ks)) false = true <->
    exists ks k, keys = Ok ks /\ In k ks /\ storage_key_hit k = true).
  { destruct keys as [ks|e]; cbn.
    - rewrite existsb_exists. split.
      + intros (k & Hin & Hk). now exists ks, k.
      + intros (ks' & k & Heq & Hin & Hk). injection Heq as <-. now exists k.
    - split; [discriminate|]. intros (ks & k & Heq & _). discriminate. }
  assert (Hcookies :
    try_except (cs ← cookies; Ok (existsb cookie_hit cs)) false = true <->
    exists cs c, cookies = Ok cs /\ In c cs /\ cookie_hit c = true).
  { destruct cookies as [cs|e]; cbn.
    - rewrite existsb_exists. split.
      + intros (c & Hin & Hc). now exists cs, c.
      + intros (cs' & c & Heq & Hin & Hc). injection Heq as <-. now exists c.
    - split; [discriminate|]. intros (cs & c & Heq & _). discriminate. }
  rewrite <- Hurl, <- Hkeys, <- Hcookies.
  destruct (negb _); [tauto|].
  destruct (try_except (ks ← keys; Ok (existsb storage_key_hit ks)) false);
    [tauto|].
  destruct (try_except (cs ← cookies; Ok (existsb cookie_hit cs)) false);
    intuition discriminate.
Qed.

End CaptureCases.
